(** * uncrypt: block map production (uncrypt/uncrypt.c)

    A shallow embedding of [write_at_offset], [add_block_to_ranges] and
    [produce_block_map], together with the system calls they issue, and
    the properties of the block map they produce; then of
    [find_block_device], [parse_recovery_command_file],
    [reboot_to_recovery] and [main], which prepare and use the call of
    [produce_block_map].

    C data is represented as follows (LP64 data model):
    - [int] values are integers in [Z]; every [int] addition or
      multiplication of the source is wrapped to 32 bits by [wrap_int];
    - [size_t] values wrap modulo [2^64], [off64_t] products wrap to
      64 signed bits;
    - the [int* ranges] array is a [list Z] accessed by index; an access
      outside the allocated cells is a fault of the program;
    - block buffers and files are lists of bytes, the raw device is a
      function from byte offsets to bytes.

    The operating system is an input of the model: the results of
    [stat], [open], the FIBMAP [ioctl], [read] and [write] are given by a
    [world], and every call is recorded in a trace.  [malloc] and
    [realloc] are taken to succeed; the messages printed on [stdout] and
    [stderr] are left out.  The system properties, the fstab, [realpath]
    and the two command files of [/cache/recovery] are inputs of the
    model as well ([platform], [machine], [cache_dir]). *)

From Stdlib Require Import ZArith Lia Bool String DecimalString.
From stdpp Require Import base tactics option list list_numbers.

Local Open Scope Z_scope.

(** ** C integers *)

Definition INT_MAX : Z := 2 ^ 31 - 1.

Definition wrap_int (x : Z) : Z := (x + 2 ^ 31) mod 2 ^ 32 - 2 ^ 31.
Definition wrap_size (x : Z) : Z := x mod 2 ^ 64.
Definition wrap_off64 (x : Z) : Z := (x + 2 ^ 63) mod 2 ^ 64 - 2 ^ 63.

Definition int_add (a b : Z) : Z := wrap_int (a + b).
Definition int_sub (a b : Z) : Z := wrap_int (a - b).
Definition int_mul (a b : Z) : Z := wrap_int (a * b).
Definition size_add (a b : Z) : Z := wrap_size (a + b).
Definition size_sub (a b : Z) : Z := wrap_size (a - b).

(** C truth value of an [int]. *)
Definition truthy (x : Z) : bool := negb (x =? 0).

(** ** Arrays of [int] *)

Definition load {A} (a : list A) (i : Z) : option A :=
  if i <? 0 then None else a !! Z.to_nat i.

Definition store {A} (a : list A) (i : Z) (x : A) : option (list A) :=
  if (0 <=? i) && (i <? Z.of_nat (length a))
  then Some (<[Z.to_nat i := x]> a)
  else None.

(** [realloc a n]: the first [n] cells of [a], followed by fresh cells of
    indeterminate content [junk] when the array grows. *)
Definition realloc (junk : Z) (a : list Z) (n : nat) : list Z :=
  take n a ++ replicate (n - length a)%nat junk.

(** ** The range coalescer (lines 75-102) *)

Record range_list := RangeList {
  ranges : list Z;
  range_alloc : Z;
  range_used : Z
}.

(** The state set up in [produce_block_map] before the first block:
    one allocated range holding the sentinel [-1 -1]. *)
Definition initial_ranges : range_list :=
  {| ranges := [-1; -1]; range_alloc := 1; range_used := 1 |}.

Definition add_block_to_ranges (junk : Z) (r : range_list) (new_block : Z)
  : option range_list :=
  let used := range_used r in
  let i_start := int_sub (int_mul used 2) 2 in
  let i_end := int_sub (int_mul used 2) 1 in
  cur_start ← load (ranges r) i_start;
  a ← (if cur_start <? 0
       then a1 ← store (ranges r) i_start new_block;
            store a1 i_end new_block
       else Some (ranges r));
  cur_end ← load a i_end;
  if new_block =? cur_end then
    a' ← store a i_end (int_add cur_end 1);
    Some {| ranges := a'; range_alloc := range_alloc r; range_used := used |}
  else
    '(a', alloc') ←
       (if range_alloc r <=? used then
          let alloc' := int_mul (range_alloc r) 2 in
          let cells := int_mul alloc' 2 in
          if cells <? 0 then None
          else Some (realloc junk a (Z.to_nat cells), alloc')
        else Some (a, range_alloc r));
    let used' := int_add used 1 in
    a1 ← store a' (int_sub (int_mul used' 2) 2) new_block;
    a2 ← store a1 (int_sub (int_mul used' 2) 1) (int_add new_block 1);
    Some {| ranges := a2; range_alloc := alloc'; range_used := used' |}.

(** Feeding a sequence of blocks, in order. *)
Fixpoint add_blocks (junk : Z) (r : range_list) (bs : list Z)
  : option range_list :=
  match bs with
  | [] => Some r
  | b :: bs' => r' ← add_block_to_ranges junk r b; add_blocks junk r' bs'
  end.

(** The finalized range list: the pairs [ranges[2i], ranges[2i+1]] for
    [i < range_used], as the serializer reads them. *)
Fixpoint read_pairs (a : list Z) (i : Z) (n : nat) : option (list (Z * Z)) :=
  match n with
  | O => Some []
  | S n' =>
      s ← load a (int_mul i 2);
      e ← load a (int_add (int_mul i 2) 1);
      rest ← read_pairs a (int_add i 1) n';
      Some ((s, e) :: rest)
  end.

Definition finalized (r : range_list) : option (list (Z * Z)) :=
  read_pairs (ranges r) 0 (Z.to_nat (range_used r)).

(** The blocks of a half-open range, and of a list of ranges. *)
Definition expand_range (p : Z * Z) : list Z := seqZ (fst p) (snd p - fst p).
Definition expand (rs : list (Z * Z)) : list Z := concat (map expand_range rs).

Definition sum_lengths (rs : list (Z * Z)) : Z :=
  foldr (fun p acc => (snd p - fst p) + acc) 0 rs.

(** Number of positions [i >= 1] with [b_i <> b_(i-1) + 1]. *)
Fixpoint breaks (prev : Z) (bs : list Z) : Z :=
  match bs with
  | [] => 0
  | b :: bs' => (if b =? prev + 1 then 0 else 1) + breaks b bs'
  end.

Definition non_adjacent (bs : list Z) : Z :=
  match bs with
  | [] => 0
  | b :: bs' => breaks b bs'
  end.

(** ** The environment of one call

    The answers of the operating system are inputs of the model. *)

Record stat := Stat { st_size : Z; st_blksize : Z }.

Inductive handle := MapFile | SourceFd | DeviceFd.

Inductive event :=
| EvOpen (h : handle) (ok : bool)
| EvStat (ok : bool)
| EvFsync
| EvFibmap (logical : Z) (res : option Z)
| EvRead (count : Z) (res : option Z)
| EvLseek (offset : Z)
| EvWrite (count : Z) (res : option Z)
| EvFprintf (text : string)
| EvClose (h : handle).

(** [read] and [write] follow the rules of a regular file and of a block
    device: a call that does not fail transfers at least one byte when
    one is asked for and available, and never more than asked for.  How
    many bytes each call transfers, and which calls fail, is chosen by
    the oracles [w_read] and [w_write]. *)
Record world := World {
  w_fopen : bool;               (* fopen(map_file, "w") gives a stream *)
  w_stat : option stat;         (* stat(path); None when it fails *)
  w_open_src : bool;            (* open(path, O_RDONLY) succeeds *)
  w_open_dev : bool;            (* open(blk_dev, O_WRONLY) succeeds *)
  w_fibmap : Z -> option Z;     (* FIBMAP on the source file; None when
                                   the ioctl returns non-zero *)
  w_file : list Byte.byte;      (* content of the source file *)
  w_read : nat -> option nat;   (* k-th read call: None is an error,
                                   Some c transfers at most c+1 bytes *)
  w_write : nat -> option nat;  (* k-th write call, likewise *)
  w_device : Z -> Byte.byte;    (* raw device content before the call *)
  w_junk_int : Z;               (* content of fresh realloc cells *)
  w_junk_byte : Byte.byte       (* content of fresh malloc bytes *)
}.

Record sys := Sys {
  trace : list event;           (* calls issued so far, oldest first *)
  device : Z -> Byte.byte;      (* raw device content *)
  fd_pos : Z;                   (* file offset of the source descriptor *)
  wfd_pos : Z;                  (* file offset of the device descriptor *)
  reads : nat;                  (* read calls issued so far *)
  writes : nat                  (* write calls issued so far *)
}.

Definition initial_sys (w : world) : sys :=
  {| trace := []; device := w_device w; fd_pos := 0; wfd_pos := 0;
     reads := 0; writes := 0 |}.

Definition log (e : event) (s : sys) : sys :=
  {| trace := trace s ++ [e]; device := device s; fd_pos := fd_pos s;
     wfd_pos := wfd_pos s; reads := reads s; writes := writes s |}.

(** Device content after [data] is stored at byte offset [off]. *)
Definition dev_write (d : Z -> Byte.byte) (off : Z) (data : list Byte.byte)
  : Z -> Byte.byte :=
  fun a =>
    if (off <=? a) && (a <? off + Z.of_nat (length data))
    then default (d a) (data !! Z.to_nat (a - off))
    else d a.

Definition dev_read (d : Z -> Byte.byte) (off : Z) (n : Z) : list Byte.byte :=
  (fun i => d (off + i)) <$> seqZ 0 n.

(** ** Results and the monad of the program *)

Inductive result :=
| Returned (code : Z)    (* the function returned [code] *)
| Fault                  (* NULL stream, array access out of bounds,
                            division by zero *)
| OutOfFuel.             (* the loop bound of the model was reached *)

Inductive outcome (A : Type) :=
| Next (a : A) (s : sys)
| Halt (r : result) (s : sys).
Arguments Next {A} a s.
Arguments Halt {A} r s.

Definition M (A : Type) : Type := sys -> outcome A.

Definition ret {A} (a : A) : M A := fun s => Next a s.
Definition bind {A B} (m : M A) (k : A -> M B) : M B :=
  fun s => match m s with
           | Next a s' => k a s'
           | Halt r s' => Halt r s'
           end.
Definition halt {A} (r : result) : M A := fun s => Halt r s.
Definition emit (e : event) : M unit := fun s => Next tt (log e s).

#[global] Instance M_ret : MRet M := @ret.
#[global] Instance M_bind : MBind M := fun A B k m => bind m k.

(** ** System calls *)

Definition sys_open (h : handle) (ok : bool) : M bool :=
  emit (EvOpen h ok) ;; ret ok.

Definition sys_close (h : handle) : M unit := emit (EvClose h).

Definition sys_stat (w : world) : M (option stat) :=
  emit (EvStat (bool_decide (is_Some (w_stat w)))) ;; ret (w_stat w).

Definition sys_fibmap (w : world) (logical : Z) : M (option Z) :=
  emit (EvFibmap logical (w_fibmap w logical)) ;; ret (w_fibmap w logical).

(** [read(fd, buf, count)]: the bytes transferred, taken at the file
    offset of the descriptor, which advances past them. *)
Definition sys_read (w : world) (count : Z) : M (option (list Byte.byte)) :=
  fun s =>
    match w_read w (reads s) with
    | None =>
        Next None
          {| trace := trace s ++ [EvRead count None]; device := device s;
             fd_pos := fd_pos s; wfd_pos := wfd_pos s;
             reads := S (reads s); writes := writes s |}
    | Some c =>
        let data := take (Nat.min (S c) (Z.to_nat count))
                         (drop (Z.to_nat (fd_pos s)) (w_file w)) in
        let n := Z.of_nat (length data) in
        Next (Some data)
          {| trace := trace s ++ [EvRead count (Some n)]; device := device s;
             fd_pos := fd_pos s + n; wfd_pos := wfd_pos s;
             reads := S (reads s); writes := writes s |}
    end.

(** [lseek64(wfd, offset, SEEK_SET)]; a negative offset is refused and
    leaves the file offset where it was. *)
Definition sys_lseek (offset : Z) : M unit :=
  fun s =>
    Next tt
      {| trace := trace s ++ [EvLseek offset]; device := device s;
         fd_pos := fd_pos s;
         wfd_pos := if offset <? 0 then wfd_pos s else offset;
         reads := reads s; writes := writes s |}.

(** [write(wfd, mem, count)]: stores a prefix of [mem] at the file offset
    of the device descriptor and returns its length. *)
Definition sys_write (w : world) (mem : list Byte.byte) (count : Z)
  : M (option Z) :=
  fun s =>
    match w_write w (writes s) with
    | None =>
        Next None
          {| trace := trace s ++ [EvWrite count None]; device := device s;
             fd_pos := fd_pos s; wfd_pos := wfd_pos s;
             reads := reads s; writes := S (writes s) |}
    | Some c =>
        let data := take (Nat.min (S c) (Z.to_nat count)) mem in
        let n := Z.of_nat (length data) in
        Next (Some n)
          {| trace := trace s ++ [EvWrite count (Some n)];
             device := dev_write (device s) (wfd_pos s) data;
             fd_pos := fd_pos s; wfd_pos := wfd_pos s + n;
             reads := reads s; writes := S (writes s) |}
    end.

(** [fprintf(mapf, ...)] and [fclose(mapf)] on the stream returned by
    [fopen]; a NULL stream is a fault. *)
Definition fprintf (mapf : bool) (text : string) : M unit :=
  if mapf then emit (EvFprintf text) else halt Fault.

Definition fclose (mapf : bool) : M unit :=
  if mapf then sys_close MapFile else halt Fault.

(** ** write_at_offset (lines 59-73)

    The loop runs at most [size] times, since every call that does not
    fail transfers a byte; [fuel] is this bound. *)

Fixpoint write_loop (w : world) (fuel : nat) (buffer : list Byte.byte)
    (size written : Z) : M Z :=
  if written <? size then
    match fuel with
    | O => halt OutOfFuel
    | S fuel' =>
        wrote ← sys_write w (drop (Z.to_nat written) buffer)
                          (size_sub size written);
        match wrote with
        | None => ret (-1)
        | Some n => write_loop w fuel' buffer size (size_add written n)
        end
    end
  else ret 0.

Definition write_at_offset (w : world) (buffer : list Byte.byte) (size : Z)
    (offset : Z) : M Z :=
  sys_lseek offset ;;
  write_loop w (Z.to_nat size) buffer size 0.

(** ** produce_block_map (lines 173-298) *)

Definition WINDOW_SIZE : Z := 5.

(** Decimal text of [%d], [%lld] (signed) and [%lu] (unsigned long). *)
Definition dec (z : Z) : string := NilZero.string_of_int (Z.to_int z).
Definition dec_unsigned (z : Z) : string := dec (wrap_size z).

(** [int blocks = ((sb.st_size-1) / sb.st_blksize) + 1], which the source
    prints. *)
Definition blocks (sb : stat) : Z :=
  wrap_int ((st_size sb - 1) ÷ st_blksize sb + 1).

(** The local variables of the two loops. *)
Record vars := Vars {
  rl : range_list;
  buffers : list (list Byte.byte);
  head_block : Z;
  head : Z;
  tail : Z;
  pos : Z
}.

(** "write out head buffer": the body shared by the main loop when the
    window is full (lines 231-244) and by the draining loop (lines
    270-283). *)
Definition flush_head (w : world) (encrypted : Z) (sb : stat) (v : vars)
  : M vars :=
  r ← sys_fibmap w (head_block v);
  match r with
  | None => halt (Returned (-1))
  | Some block =>
      match add_block_to_ranges (w_junk_int w) (rl v) block with
      | None => halt Fault
      | Some rl' =>
          (if truthy encrypted then
             match load (buffers v) (head v) with
             | None => halt Fault
             | Some buf =>
                 rc ← write_at_offset w buf (wrap_size (st_blksize sb))
                        (wrap_off64 (st_blksize sb * block));
                 if rc =? 0 then ret () else halt (Returned (-1))
             end
           else ret ());;
          ret {| rl := rl'; buffers := buffers v;
                 head_block := int_add (head_block v) 1;
                 head := Z.rem (int_add (head v) 1) WINDOW_SIZE;
                 tail := tail v; pos := pos v |}
      end
  end.

(** Copy of [data] into [buf] from index [off] on. *)
Definition blit (buf : list Byte.byte) (off : Z) (data : list Byte.byte)
  : list Byte.byte :=
  take (Z.to_nat off) buf ++ data
    ++ drop (Z.to_nat off + length data)%nat buf.

(** The inner loop that fills [buffers[tail]] (lines 250-258). *)
Fixpoint read_block (w : world) (fuel : nat) (sb : stat)
    (buf : list Byte.byte) (so_far pos : Z) : M (list Byte.byte * Z) :=
  if (so_far <? wrap_size (st_blksize sb)) && (pos <? wrap_size (st_size sb))
  then
    match fuel with
    | O => halt OutOfFuel
    | S fuel' =>
        r ← sys_read w (size_sub (st_blksize sb) so_far);
        match r with
        | None => halt (Returned (-1))
        | Some data =>
            let this_read := Z.of_nat (length data) in
            read_block w fuel' sb (blit buf so_far data)
              (size_add so_far this_read) (size_add pos this_read)
        end
    end
  else ret (buf, pos).

(** "read next block to tail" (lines 248-265). *)
Definition read_next_block (w : world) (encrypted : Z) (sb : stat) (v : vars)
  : M vars :=
  if truthy encrypted then
    match load (buffers v) (tail v) with
    | None => halt Fault
    | Some buf =>
        '(buf', pos') ← read_block w (Z.to_nat (st_blksize sb)) sb buf 0 (pos v);
        ret {| rl := rl v;
               buffers := <[Z.to_nat (tail v) := buf']> (buffers v);
               head_block := head_block v; head := head v;
               tail := Z.rem (int_add (tail v) 1) WINDOW_SIZE;
               pos := pos' |}
    end
  else
    ret {| rl := rl v; buffers := buffers v;
           head_block := head_block v; head := head v;
           tail := Z.rem (int_add (tail v) 1) WINDOW_SIZE;
           pos := size_add (pos v) (st_blksize sb) |}.

(** Control points of the two loops (lines 228-284): the test of the
    main loop, the reading of the next block, the test of the draining
    loop, and the point after both loops.  One step goes from a control
    point to the next one. *)
Inductive control := AtLoop | AtRead | AtDrain | AtEnd.

Definition step (w : world) (encrypted : Z) (sb : stat)
    (c : control) (v : vars) : M (control * vars) :=
  match c with
  | AtLoop =>
      if pos v <? wrap_size (st_size sb) then
        if Z.rem (int_add (tail v) 1) WINDOW_SIZE =? head v then
          v' ← flush_head w encrypted sb v; ret (AtRead, v')
        else ret (AtRead, v)
      else ret (AtDrain, v)
  | AtRead => v' ← read_next_block w encrypted sb v; ret (AtLoop, v')
  | AtDrain =>
      if head v =? tail v then ret (AtEnd, v)
      else v' ← flush_head w encrypted sb v; ret (AtDrain, v')
  | AtEnd => ret (AtEnd, v)
  end.

(** [n] steps from a control point. *)
Fixpoint steps (w : world) (encrypted : Z) (sb : stat) (n : nat)
    (c : control) (v : vars) : M (control * vars) :=
  match n with
  | O => ret (c, v)
  | S n' =>
      '(c', v') ← step w encrypted sb c v;
      steps w encrypted sb n' c' v'
  end.

(** Both loops, run until the point after them. *)
Fixpoint run_loops (w : world) (encrypted : Z) (sb : stat) (fuel : nat)
    (c : control) (v : vars) : M vars :=
  match c with
  | AtEnd => ret v
  | _ =>
      match fuel with
      | O => halt OutOfFuel
      | S fuel' =>
          '(c', v') ← step w encrypted sb c v;
          run_loops w encrypted sb fuel' c' v'
      end
  end.

(** Bound on the steps of the two loops: every block takes two steps of
    the main loop and there are at most [st_size] blocks. *)
Definition loop_fuel (sb : stat) : nat :=
  (2 * Z.to_nat (st_size sb) + 8)%nat.

Definition initial_vars (w : world) (encrypted : Z) (sb : stat) : vars :=
  {| rl := initial_ranges;
     buffers :=
       if truthy encrypted
       then replicate (Z.to_nat WINDOW_SIZE)
              (replicate (Z.to_nat (wrap_size (st_blksize sb))) (w_junk_byte w))
       else replicate (Z.to_nat WINDOW_SIZE) [];
     head_block := 0; head := 0; tail := 0; pos := 0 |}.

Definition newline : string := String (Ascii.ascii_of_nat 10) EmptyString.

(** ["%s\n%lld %lu\n"], ["%d\n"] and ["%d %d\n"]. *)
Definition header (blk_dev : string) (sb : stat) : string :=
  (blk_dev ++ newline ++ dec (st_size sb) ++ " " ++
     dec_unsigned (st_blksize sb) ++ newline)%string.

Definition count_line (n : Z) : string := (dec n ++ newline)%string.

Definition range_line (p : Z * Z) : string :=
  (dec (fst p) ++ " " ++ dec (snd p) ++ newline)%string.

Fixpoint print_ranges (mapf : bool) (ps : list (Z * Z)) : M unit :=
  match ps with
  | [] => ret ()
  | p :: ps' => fprintf mapf (range_line p);; print_ranges mapf ps'
  end.

(** The body of the function, in the order of the source: [fopen], [stat],
    the division for the printed block count, the header, [open] of the
    source file, [fsync], [open] of the raw device when [encrypted], the
    two loops, the range count and the range lines, and the three
    closes.  An early [return -1] leaves the function at once. *)
Definition produce_block_map_body (w : world) (blk_dev : string)
    (encrypted : Z) : M Z :=
  mapf ← sys_open MapFile (w_fopen w);
  st ← sys_stat w;
  match st with
  | None => ret (-1)
  | Some sb =>
      if st_blksize sb =? 0 then halt Fault else
      fprintf mapf (header blk_dev sb);;
      fd_ok ← sys_open SourceFd (w_open_src w);
      if negb fd_ok then ret (-1) else
      emit EvFsync;;
      wfd_ok ← (if truthy encrypted then sys_open DeviceFd (w_open_dev w)
                else ret true);
      if negb wfd_ok then ret (-1) else
      v ← run_loops w encrypted sb (loop_fuel sb) AtLoop
            (initial_vars w encrypted sb);
      fprintf mapf (count_line (range_used (rl v)));;
      match finalized (rl v) with
      | None => halt Fault
      | Some ps =>
          print_ranges mapf ps;;
          fclose mapf;;
          sys_close SourceFd;;
          (if truthy encrypted then sys_close DeviceFd else ret ());;
          ret 0
      end
  end.

Definition produce_block_map (w : world) (blk_dev : string) (encrypted : Z)
  : result * sys :=
  match produce_block_map_body w blk_dev encrypted (initial_sys w) with
  | Next code s => (Returned code, s)
  | Halt r s => (r, s)
  end.

(** ** Observations on the final state *)

(** Text handed to the map stream, in order. *)
Definition map_text (t : list event) : string :=
  foldr (fun e acc => match e with
                      | EvFprintf text => (text ++ acc)%string
                      | _ => acc
                      end) EmptyString t.

(** The FIBMAP queries issued, in order. *)
Definition resolved (t : list event) : list (Z * option Z) :=
  omap (fun e => match e with
                 | EvFibmap l r => Some (l, r)
                 | _ => None
                 end) t.

Definition seeks (t : list event) : list Z :=
  omap (fun e => match e with EvLseek o => Some o | _ => None end) t.

(** Descriptors opened, and descriptors closed, in order. *)
Definition opened (t : list event) : list handle :=
  omap (fun e => match e with EvOpen h true => Some h | _ => None end) t.
Definition closed (t : list event) : list handle :=
  omap (fun e => match e with EvClose h => Some h | _ => None end) t.

(** ** Specification-level definitions *)

(** The coalescer as a function on a list of ranges, most recent range
    first; [coalesce] gives the ranges in the order they were opened. *)
Definition coalesce_add (rs : list (Z * Z)) (b : Z) : list (Z * Z) :=
  match rs with
  | [] => [(b, b + 1)]
  | (s, e) :: rest => if b =? e then (s, e + 1) :: rest else (b, b + 1) :: rs
  end.

Definition coalesce (bs : list Z) : list (Z * Z) :=
  rev (foldl coalesce_add [] bs).

(** The array cells of a list of ranges. *)
Definition cells (rs : list (Z * Z)) : list Z :=
  concat (map (fun p => [fst p; snd p]) rs).

(** [rep r rs]: the array state [r] holds the ranges [rs] (most recent
    first); before the first block it is the sentinel state. *)
Definition rep (r : range_list) (rs : list (Z * Z)) : Prop :=
  match rs with
  | [] => r = initial_ranges
  | _ =>
      range_used r = Z.of_nat (length rs) /\
      Z.of_nat (length rs) <= range_alloc r /\
      Forall (fun p => 0 <= fst p) rs /\
      exists spare,
        ranges r = cells (rev rs) ++ spare /\
        Z.of_nat (length spare) = 2 * (range_alloc r - Z.of_nat (length rs))
  end.

(** Physical block numbers the model accepts: non-negative [int]s whose
    successor is an [int]. *)
Definition block_ok (b : Z) : Prop := 0 <= b < INT_MAX.

(** Largest number of blocks for which the index arithmetic of the range
    array stays within [int]. *)
Definition MAX_BLOCKS : Z := 2 ^ 29.

(** Invariant of the abstract state: every range is non-empty and the
    current one ends just after the last block fed. *)
Definition current_ends_at (rs : list (Z * Z)) (last : Z) : Prop :=
  match rs with
  | [] => False
  | (s, e) :: _ => e = last + 1
  end.

(** The calls of one run of the loop of [write_at_offset] with
    [remaining] bytes to go, ending with return code [rc]: every call
    asks for all the remaining bytes, a call that transfers some of them
    is followed by a call for the rest, and an error ends the run. *)
Fixpoint write_calls (remaining : Z) (evs : list event) (rc : Z) : Prop :=
  match evs with
  | [] => remaining = 0 /\ rc = 0
  | EvWrite c (Some n) :: evs' =>
      c = remaining /\ 0 < n <= remaining /\
      write_calls (remaining - n) evs' rc
  | EvWrite c None :: evs' =>
      c = remaining /\ 0 < remaining /\ evs' = [] /\ rc = -1
  | _ => False
  end.

Definition write_error (e : event) : Prop :=
  match e with EvWrite _ None => True | _ => False end.

(** Bytes transferred by the write calls of a trace. *)
Definition bytes_written (evs : list event) : Z :=
  foldr (fun e acc => match e with
                      | EvWrite _ (Some n) => n + acc
                      | _ => acc
                      end) 0 evs.

(** ** Assumptions on the environment *)

(** A [stat] result: a file size that fits [off_t] and a positive block
    size of at most 32 bits. *)
Definition stat_ok (sb : stat) : Prop :=
  0 <= st_size sb < 2 ^ 63 /\ 0 < st_blksize sb < 2 ^ 32.

(** Number of logical blocks of the file. *)
Definition block_count (sb : stat) : Z :=
  (st_size sb + st_blksize sb - 1) / st_blksize sb.

(** The source file has the size that [stat] reported. *)
Definition file_ok (w : world) (sb : stat) : Prop :=
  Z.of_nat (length (w_file w)) = st_size sb.

(** The file has at most [MAX_BLOCKS] blocks and FIBMAP answers with
    admissible physical block numbers. *)
Definition blocks_ok (w : world) (sb : stat) : Prop :=
  block_count sb <= MAX_BLOCKS /\
  forall k b, 0 <= k < block_count sb -> w_fibmap w k = Some b -> block_ok b.

(** Physical block of logical block [k], and of the first [n] blocks. *)
Definition phys (w : world) (k : Z) : Z :=
  default 0 (w_fibmap w (wrap_int k)).
Definition phys_list (w : world) (n : Z) : list Z := phys w <$> seqZ 0 n.

(** The bytes of logical block [k] of a file. *)
Definition chunk (file : list Byte.byte) (bs : Z) (k : Z) : list Byte.byte :=
  take (Z.to_nat bs) (drop (Z.to_nat (k * bs)) file).

(** Device content after a sequence of stores, oldest first. *)
Fixpoint shadow (d : Z -> Byte.byte) (ws : list (Z * list Byte.byte))
  : Z -> Byte.byte :=
  match ws with
  | [] => d
  | (off, data) :: ws' => shadow (dev_write d off data) ws'
  end.

(** Bytes read back from the device through a list of ranges: the blocks
    of the ranges in order, cut at the file size. *)
Definition read_back (d : Z -> Byte.byte) (bs : Z) (ps : list (Z * Z))
    (size : Z) : list Byte.byte :=
  take (Z.to_nat size)
       (concat ((fun b => dev_read d (b * bs) bs) <$> expand ps)).

(** The text of a block map. *)
Definition block_map (blk_dev : string) (sb : stat) (ps : list (Z * Z))
  : string :=
  (header blk_dev sb ++ count_line (Z.of_nat (length ps))
     ++ foldr (fun p acc => range_line p ++ acc) EmptyString ps)%string.

(** ** Events of the two loops *)

Definition loop_event (e : event) : Prop :=
  match e with
  | EvFibmap _ _ | EvRead _ _ | EvLseek _ | EvWrite _ _ => True
  | _ => False
  end.

(** A failed resolution, read or write. *)
Definition failure (e : event) : Prop :=
  match e with
  | EvFibmap _ None | EvRead _ None | EvWrite _ None => True
  | _ => False
  end.

Definition read_ok (e : event) : Prop :=
  match e with EvRead _ (Some _) => True | _ => False end.

Definition clean (evs : list event) : Prop :=
  Forall (fun e => loop_event e /\ ~ failure e) evs.

(** A run of loop events that ends with the first failure. *)
Definition failing (evs : list event) : Prop :=
  exists evs0 e, evs = evs0 ++ [e] /\ clean evs0 /\ loop_event e /\ failure e.

(** ** Invariant of the two loops

    [a] blocks have been blocks_read and [h] of them flushed. *)
Section Invariant.
Context (w : world) (encrypted : Z) (sb : stat) (s0 : sys).

Record state_inv (v : vars) (s : sys) (a h : Z) : Prop := {
  si_h : 0 <= h <= a;
  si_win : a - h <= WINDOW_SIZE - 1;
  si_a : a <= block_count sb;
  si_head : head v = h mod WINDOW_SIZE;
  si_tail : tail v = a mod WINDOW_SIZE;
  si_head_block : head_block v = wrap_int h;
  si_pos : pos v = if truthy encrypted
                   then Z.min (a * st_blksize sb) (st_size sb)
                   else a * st_blksize sb;
  si_fd : truthy encrypted = true -> fd_pos s = pos v;
  si_bufs : truthy encrypted = true ->
            length (buffers v) = 5%nat /\
            Forall (fun b => Z.of_nat (length b) = st_blksize sb) (buffers v);
  si_phys : forall k, 0 <= k < h -> is_Some (w_fibmap w (wrap_int k));
  si_rl : add_blocks (w_junk_int w) initial_ranges (phys_list w h)
          = Some (rl v);
  si_trace : exists evs,
      trace s = trace s0 ++ evs /\ clean evs /\
      resolved evs
      = (fun k => (wrap_int k, w_fibmap w (wrap_int k))) <$> seqZ 0 h /\
      (truthy encrypted = false ->
       seeks evs = [] /\ forall x, device s x = device s0 x) /\
      (truthy encrypted = true -> blocks_ok w sb ->
       seeks evs = (fun k => st_blksize sb * phys w k) <$> seqZ 0 h);
  si_data : truthy encrypted = true -> blocks_ok w sb ->
      (forall k, h <= k < a ->
         exists buf rest,
           buffers v !! Z.to_nat (k mod WINDOW_SIZE) = Some buf /\
           buf = chunk (w_file w) (st_blksize sb) k ++ rest) /\
      exists datas,
        Z.of_nat (length datas) = h /\
        (forall k data, datas !! k = Some data ->
           Z.of_nat (length data) = st_blksize sb /\
           exists rest,
             data = chunk (w_file w) (st_blksize sb) (Z.of_nat k) ++ rest) /\
        forall x, device s x
                  = shadow (device s0)
                      (zip ((fun k => st_blksize sb * phys w k)
                              <$> seqZ 0 h) datas) x
}.

Definition ctl_inv (c : control) (v : vars) (a h : Z) : Prop :=
  match c with
  | AtLoop => True
  | AtRead => pos v < st_size sb /\ a - h <= WINDOW_SIZE - 2
  | AtDrain => st_size sb <= pos v
  | AtEnd => st_size sb <= pos v /\ h = a
  end.

(** Steps left, at most. *)
Definition measure (c : control) (a h : Z) : Z :=
  match c with
  | AtLoop => 2 * (block_count sb - a) + 6
  | AtRead => 2 * (block_count sb - a) + 5
  | AtDrain => (a - h) + 1
  | AtEnd => 0
  end.
End Invariant.

(** ** Shape of a call of [produce_block_map] *)

Definition opens_ok (w : world) (encrypted : Z) : Prop :=
  w_fopen w = true /\ w_open_src w = true /\
  (truthy encrypted = true -> w_open_dev w = true).

(** Calls issued before the main loop when every open succeeds, and
    after the draining loop. *)
Definition prologue_trace (blk_dev : string) (sb : stat) (encrypted : Z)
  : list event :=
  [EvOpen MapFile true; EvStat true; EvFprintf (header blk_dev sb);
   EvOpen SourceFd true; EvFsync]
  ++ (if truthy encrypted then [EvOpen DeviceFd true] else []).

Definition epilogue_trace (encrypted : Z) (used : Z) (ps : list (Z * Z))
  : list event :=
  EvFprintf (count_line used)
  :: ((fun p => EvFprintf (range_line p)) <$> ps)
  ++ [EvClose MapFile; EvClose SourceFd]
  ++ (if truthy encrypted then [EvClose DeviceFd] else []).

(** State of the system at the entry of the main loop. *)
Definition loop_entry (w : world) (blk_dev : string) (sb : stat)
    (encrypted : Z) : sys :=
  {| trace := prologue_trace blk_dev sb encrypted; device := w_device w;
     fd_pos := 0; wfd_pos := 0; reads := 0; writes := 0 |}.

(** The ways a call can end once [stat] has succeeded. *)
Inductive pass_outcome (w : world) (blk_dev : string) (encrypted : Z)
    (sb : stat) : result -> sys -> Prop :=
| PassNoStream s :
    w_fopen w = false ->
    trace s = [EvOpen MapFile false; EvStat true] ->
    pass_outcome w blk_dev encrypted sb Fault s
| PassNoSource s :
    w_fopen w = true -> w_open_src w = false ->
    trace s = [EvOpen MapFile true; EvStat true;
               EvFprintf (header blk_dev sb); EvOpen SourceFd false] ->
    pass_outcome w blk_dev encrypted sb (Returned (-1)) s
| PassNoDevice s :
    w_fopen w = true -> w_open_src w = true ->
    truthy encrypted = true -> w_open_dev w = false ->
    trace s = [EvOpen MapFile true; EvStat true;
               EvFprintf (header blk_dev sb); EvOpen SourceFd true;
               EvFsync; EvOpen DeviceFd false] ->
    pass_outcome w blk_dev encrypted sb (Returned (-1)) s
| PassAborted s evs :
    opens_ok w encrypted ->
    trace s = prologue_trace blk_dev sb encrypted ++ evs ->
    failing evs ->
    pass_outcome w blk_dev encrypted sb (Returned (-1)) s
| PassFault s :
    opens_ok w encrypted ->
    ~ blocks_ok w sb ->
    Forall (fun e => ~ failure e) (trace s) ->
    pass_outcome w blk_dev encrypted sb Fault s
| PassDone s v s1 ps :
    opens_ok w encrypted ->
    state_inv w encrypted sb (loop_entry w blk_dev sb encrypted) v s1
      (block_count sb) (block_count sb) ->
    finalized (rl v) = Some ps ->
    trace s = trace s1 ++ epilogue_trace encrypted (range_used (rl v)) ps ->
    (forall x, device s x = device s1 x) ->
    pass_outcome w blk_dev encrypted sb (Returned 0) s.

(** The ranges a successful call prints: the coalesced physical blocks,
    or the untouched sentinel range when the file has no block. *)
Definition final_ranges (w : world) (sb : stat) : list (Z * Z) :=
  if block_count sb =? 0 then [(-1, -1)]
  else coalesce (phys_list w (block_count sb)).

(** ** Window occupancy *)

(** Slots of the circular window between [head] and [tail]. *)
Definition in_flight (v : vars) : Z := (tail v - head v) mod WINDOW_SIZE.

(** Blocks read so far, from the position in the file. *)
Definition blocks_read (sb : stat) (v : vars) : Z :=
  (pos v + st_blksize sb - 1) / st_blksize sb.

(** Blocks flushed so far: one FIBMAP query each. *)
Definition flushed (s : sys) : Z := Z.of_nat (length (resolved (trace s))).

(** ** Example environments *)

(** The mapping of the example in the header comment of the source:
    blocks 1000..1007, 2100..2101 and 30..32 for logical blocks 0..12. *)
Definition example_resolver (i : Z) : option Z :=
  if i <? 0 then None
  else if i <? 8 then Some (1000 + i)
  else if i <? 10 then Some (2100 + (i - 8))
  else if i <? 13 then Some (30 + (i - 10))
  else None.

(** An environment in which every open succeeds; the [k]-th read
    transfers at most [k mod 3 + 1] bytes and the [k]-th write at most
    [k mod 2 + 1] bytes. *)
Definition example_world (st : option stat) (fibmap : Z -> option Z)
    (file : list Byte.byte) : world :=
  {| w_fopen := true; w_stat := st; w_open_src := true; w_open_dev := true;
     w_fibmap := fibmap; w_file := file;
     w_read := fun k => Some (k mod 3)%nat;
     w_write := fun k => Some (k mod 2)%nat;
     w_device := fun _ => Byte.x00;
     w_junk_int := 7; w_junk_byte := Byte.xff |}.

Definition ten_bytes : list Byte.byte :=
  [Byte.x01; Byte.x02; Byte.x03; Byte.x04; Byte.x05;
   Byte.x06; Byte.x07; Byte.x08; Byte.x09; Byte.x0a].

(** A file of ten bytes in blocks of four bytes. *)
Definition small_stat : stat := Stat 10 4.
Definition small_world : world :=
  example_world (Some small_stat) example_resolver ten_bytes.
Definition example_dev : string := "/dev/block/sda".

(** Two blocks of two bytes that FIBMAP places on the same physical
    block. *)
Definition shared_stat : stat := Stat 4 2.
Definition shared_world : world :=
  example_world (Some shared_stat) (fun _ => Some 7)
    [Byte.x01; Byte.x02; Byte.x03; Byte.x04].

(** The file of the header comment of the source: 49652 bytes in blocks
    of 4096 bytes. *)
Definition header_stat : stat := Stat 49652 4096.
Definition header_world : world :=
  example_world (Some header_stat) example_resolver [].

(** An empty file. *)
Definition empty_stat : stat := Stat 0 4096.
Definition empty_world : world :=
  example_world (Some empty_stat) example_resolver [].

(** Ten bytes in blocks of four bytes whose third block FIBMAP cannot
    resolve. *)
Definition unmapped_world : world :=
  example_world (Some small_stat)
    (fun k => if k <? 2 then Some (50 + k) else None) ten_bytes.

(** A file that [stat] does not find. *)
Definition missing_world : world :=
  example_world None example_resolver [].

(** The file of the header comment with its 49652 bytes. *)
Definition header_file_world : world :=
  example_world (Some header_stat) example_resolver
    (replicate (Z.to_nat 49652) Byte.x2a).

(** ** find_block_device (lines 104-144)

    The system properties and the fstab of the device are inputs of the
    model.  C strings are [string]s; they hold no NUL character, and the
    value of a property fits the buffers of the source, which have room
    for [PROPERTY_VALUE_MAX] characters. *)

Record fstab_rec := FstabRec {
  mount_point : option string;    (* NULL for an entry without one *)
  blk_device : string;
  fs_mgr_is_encryptable : bool    (* answer of fs_mgr_is_encryptable(v) *)
}.

Record platform := Platform {
  p_property : string -> option string;         (* the system properties *)
  p_fstab : string -> option (list fstab_rec)   (* fs_mgr_read_fstab(path);
                                                   None when it fails *)
}.

(** [property_get(key, value, default_value)]: the length it returns and
    the text it leaves in [value]; a property that is unset or empty
    gives the default. *)
Definition property_get (p : platform) (key dflt : string) : Z * string :=
  let value := match p_property p key with
               | Some v => if (String.length v =? 0)%nat then dflt else v
               | None => dflt
               end in
  (Z.of_nat (String.length value), value).

(** The character ['/']. *)
Definition slash : Ascii.ascii := Ascii.ascii_of_nat 47.

(** The test of lines 127-128:
    [strncmp(path, mount_point, len) == 0 &&
     (path[len] == '/' || path[len] == 0)]. *)
Definition mount_matches (path mp : string) : bool :=
  String.prefix mp path &&
  match String.get (String.length mp) path with
  | Some c => Ascii.eqb c slash
  | None => true
  end.

(** The loop over the entries of the fstab (lines 123-141), with the
    values of [*encryptable] and [*encrypted] threaded through. *)
Fixpoint scan_fstab (p : platform) (path : string) (recs : list fstab_rec)
    (encryptable encrypted : Z) : option string * (Z * Z) :=
  match recs with
  | [] => (None, (encryptable, encrypted))
  | v :: recs' =>
      match mount_point v with
      | None => scan_fstab p path recs' encryptable encrypted
      | Some mp =>
          if mount_matches path mp then
            if fs_mgr_is_encryptable v then
              let '(n, buffer) := property_get p "ro.crypto.state" EmptyString in
              if truthy n && String.eqb buffer "encrypted"
              then (Some (blk_device v), (1, 1))
              else (Some (blk_device v), (1, 0))
            else (Some (blk_device v), (0, 0))
          else scan_fstab p path recs' encryptable encrypted
      end
  end.

(** The result is the returned pointer (None for NULL) and the final
    values of [*encryptable] and [*encrypted]. *)
Definition find_block_device (p : platform) (path : string)
    (encryptable encrypted : Z) : option string * (Z * Z) :=
  let '(n, hardware) := property_get p "ro.hardware" EmptyString in
  if negb (truthy n) then (None, (encryptable, encrypted)) else
  let fstab_path := ("/fstab." ++ hardware)%string in
  match p_fstab p fstab_path with
  | None => (None, (encryptable, encrypted))
  | Some recs => scan_fstab p path recs encryptable encrypted
  end.

(** ** parse_recovery_command_file (lines 146-171) *)

Definition RECOVERY_COMMAND_FILE : string := "/cache/recovery/command".
Definition RECOVERY_COMMAND_FILE_TMP : string := "/cache/recovery/command.tmp".
Definition CACHE_BLOCK_MAP : string := "/cache/recovery/block.map".

(** The two files of [/cache/recovery] that the program rewrites; None
    for a file that does not exist. *)
Record cache_dir := CacheDir {
  command : option string;
  command_tmp : option string
}.

Definition is_newline (c : Ascii.ascii) : bool :=
  Ascii.eqb c (Ascii.ascii_of_nat 10).

(** [fgets(temp, n + 1, f)] on the unread part of a file: the characters
    up to and including the first newline, [n] at most, and what is left
    of the file. *)
Fixpoint fgets (n : nat) (f : string) : string * string :=
  match n, f with
  | S n', String c f' =>
      if is_newline c then (String c EmptyString, f')
      else let '(temp, rest) := fgets n' f' in (String c temp, rest)
  | _, _ => (EmptyString, f)
  end.

(** [s + n] for a string of at least [n] characters. *)
Fixpoint string_drop (n : nat) (s : string) : string :=
  match n, s with
  | S n', String _ s' => string_drop n' s'
  | _, _ => s
  end.

(** [newline = strchr(fn, '\n'); if (newline) *newline = 0]. *)
Fixpoint cut_at_newline (s : string) : string :=
  match s with
  | EmptyString => EmptyString
  | String c s' => if is_newline c then EmptyString
                   else String c (cut_at_newline s')
  end.

Definition is_nul (c : Ascii.ascii) : bool :=
  Ascii.eqb c (Ascii.ascii_of_nat 0).

(** The C string that an array of characters holds: the characters
    before the first NUL.  A file may hold NUL characters, which [fgets]
    stores like any other; [strncmp], [strdup] and [fputs] stop at the
    first of them. *)
Fixpoint c_string (s : string) : string :=
  match s with
  | EmptyString => EmptyString
  | String c s' => if is_nul c then EmptyString
                   else String c (c_string s')
  end.

Definition UPDATE_PACKAGE : string := "--update_package=".

Definition BLOCK_MAP_ARG : string :=
  ("--update_package=@" ++ CACHE_BLOCK_MAP ++ newline)%string.

(** The loop of lines 155-162: [f] is the unread part of the command
    file, [fn] the last package name found, [out] the text written to the
    stream [fo] so far.  [temp] holds the characters that [fgets] read;
    the comparison, the copy made by [strdup] and [fputs] see the C
    string in it.  Every turn reads a character, so the length of the
    file bounds the turns; [fuel] is this bound. *)
Fixpoint copy_command (fuel : nat) (fo : bool) (f : string)
    (fn : option string) (out : string)
  : result + (option string * string) :=
  match fgets 1023 f with
  | (EmptyString, _) => inr (fn, out)
  | (temp, rest) =>
      match fuel with
      | O => inl OutOfFuel
      | S fuel' =>
          let '(fn', temp') :=
            if String.prefix UPDATE_PACKAGE (c_string temp)
            then (Some (c_string
                          (string_drop (String.length UPDATE_PACKAGE) temp)),
                  BLOCK_MAP_ARG)
            else (fn, c_string temp) in
          if fo then copy_command fuel' fo rest fn' (out ++ temp')%string
          else inl Fault
      end
  end.

(** [fopen(RECOVERY_COMMAND_FILE_TMP, "w")]: when it gives a stream the
    file exists and is empty. *)
Definition fopen_tmp_w (ok : bool) (c : cache_dir) : cache_dir :=
  if ok then {| command := command c; command_tmp := Some EmptyString |}
  else c.

(** The function returns the package name (None for NULL) and leaves the
    rewritten command file in [command_tmp]; reading from, writing to or
    closing a NULL stream is a fault, which leaves the temporary file as
    [fopen] made it. *)
Definition parse_recovery_command_file (fopen_tmp : bool) (c : cache_dir)
  : result * cache_dir + option string * cache_dir :=
  let c0 := fopen_tmp_w fopen_tmp c in
  match command c with
  | None => inl (Fault, c0)
  | Some f =>
      match copy_command (String.length f) fopen_tmp f None EmptyString with
      | inl r => inl (r, c0)
      | inr (fn, out) =>
          if fopen_tmp then
            inr (cut_at_newline <$> fn,
                 {| command := command c; command_tmp := Some out |})
          else inl (Fault, c0)
      end
  end.

(** ** reboot_to_recovery and main (lines 300-377) *)

(** What [main] does to the rest of the system, oldest first. *)
Inductive action :=
| ActUnlink (path : string)
| ActRename (old new : string) (ok : bool)
| ActPass (path map_file blk_dev : string) (encrypted : Z)
          (r : result * sys)
| ActPropertySet (key value : string)
| ActSleep (seconds : Z).

Definition reboot_to_recovery : list action :=
  [ActPropertySet "sys.powerctl" "reboot,recovery"; ActSleep 10].

(** [unlink(RECOVERY_COMMAND_FILE_TMP)] and
    [rename(RECOVERY_COMMAND_FILE_TMP, RECOVERY_COMMAND_FILE)]; a rename
    of a file that does not exist fails and changes nothing, a rename of
    a file that exists is taken to succeed. *)
Definition unlink_tmp (c : cache_dir) : cache_dir :=
  {| command := command c; command_tmp := None |}.

Definition rename_tmp (c : cache_dir) : bool * cache_dir :=
  match command_tmp c with
  | Some text => (true, {| command := Some text; command_tmp := None |})
  | None => (false, c)
  end.

(** The environment of [main]: the platform, [realpath], whether the
    temporary command file can be opened for writing, the environment of
    the call of [produce_block_map] for a path and a map file, the
    content of the locals [encryptable] and [encrypted] before they are
    assigned, and the number of characters of the map stream that have
    reached the file when the program is stopped by a fault. *)
Record machine := Machine {
  m_platform : platform;
  m_realpath : string -> option string;
  m_fopen_tmp : bool;
  m_world : string -> string -> world;
  m_encryptable : Z;
  m_encrypted : Z;
  m_flushed : nat
}.

(** The content of the map file when the program ends: the text given to
    the stream, which [fclose] or the return of [main] writes out, and
    after a fault the part of it that had been written out. *)
Definition map_file_text (flushed : nat) (r : result * sys) : string :=
  match fst r with
  | Returned _ => map_text (trace (snd r))
  | _ => substring 0 flushed (map_text (trace (snd r)))
  end.

(** [fopen(map_file, "w")] of line 179 truncates the file it opens.  With
    two arguments the map file can be one of the two command files,
    which then holds the text of the map.  A path is taken to name one
    of the two files only when it is spelled like the constant of the
    source. *)
Definition write_map_file (w : world) (map_file text : string)
    (c : cache_dir) : cache_dir :=
  if String.eqb map_file RECOVERY_COMMAND_FILE then
    if w_fopen w
    then {| command := Some text; command_tmp := command_tmp c |} else c
  else if String.eqb map_file RECOVERY_COMMAND_FILE_TMP then
    if w_fopen w
    then {| command := command c; command_tmp := Some text |} else c
  else c.

(** Lines 335-376, once [input_path] and [map_file] are known. *)
Definition convert (m : machine) (input_path map_file : string)
    (c : cache_dir) : result * cache_dir * list action :=
  match m_realpath m input_path with
  | None => (Returned 1, c, [])
  | Some path =>
      match find_block_device (m_platform m) path
              (m_encryptable m) (m_encrypted m) with
      | (None, _) => (Returned 1, c, [])
      | (Some blk_dev, (encryptable, encrypted)) =>
          let finish (c1 : cache_dir) (done : list action) :=
            let '(ok, c2) := rename_tmp c1 in
            (Returned 0, c2,
             done ++ ActRename RECOVERY_COMMAND_FILE_TMP
                       RECOVERY_COMMAND_FILE ok :: reboot_to_recovery) in
          if negb (truthy encryptable) then
            finish (unlink_tmp c) [ActUnlink RECOVERY_COMMAND_FILE_TMP]
          else
            let w := m_world m path map_file in
            let r := produce_block_map w blk_dev encrypted in
            let pass := ActPass path map_file blk_dev encrypted r in
            let c1 := write_map_file w map_file
                        (map_file_text (m_flushed m) r) c in
            match fst r with
            | Returned code =>
                if code =? 0 then finish c1 [pass]
                else (Returned 1, c1, [pass])
            | halted => (halted, c1, [pass])
            end
      end
  end.

(** [argc] is the length of [argv]. *)
Definition main (m : machine) (argv : list string) (c : cache_dir)
  : result * cache_dir * list action :=
  let argc := Z.of_nat (length argv) in
  if negb (argc =? 1) && negb (argc =? 3) then (Returned 2, c, []) else
  if argc =? 3 then
    convert m (nth 1 argv EmptyString) (nth 2 argv EmptyString) c
  else
    match parse_recovery_command_file (m_fopen_tmp m) c with
    | inl (r, c') => (r, c', [])
    | inr (None, c') => (Returned 1, c', reboot_to_recovery)
    | inr (Some input_path, c') => convert m input_path CACHE_BLOCK_MAP c'
    end.

(** ** Specification-level definitions for the command file *)

Fixpoint has_newline (s : string) : bool :=
  match s with
  | EmptyString => false
  | String c s' => is_newline c || has_newline s'
  end.

Fixpoint has_nul (s : string) : bool :=
  match s with
  | EmptyString => false
  | String c s' => is_nul c || has_nul s'
  end.

(** A line that [fgets] reads in one piece and that is a C string: no
    newline and no NUL inside and, with its newline, at most 1023
    characters. *)
Definition short_line (l : string) : Prop :=
  has_newline l = false /\ has_nul l = false /\
  (String.length l < 1023)%nat.

(** The text of a file given by its lines. *)
Definition unlines (ls : list string) : string :=
  foldr (fun l acc => (l ++ newline ++ acc)%string) EmptyString ls.

(** The package named by a line, if it is an update package argument. *)
Definition package_of (l : string) : option string :=
  if String.prefix UPDATE_PACKAGE l
  then Some (string_drop (String.length UPDATE_PACKAGE) l)
  else None.

Definition rewrite_line (l : string) : string :=
  if String.prefix UPDATE_PACKAGE l
  then ("--update_package=@" ++ CACHE_BLOCK_MAP)%string
  else l.

(** The text in [fn] after a turn of the loop on the line [l], newline
    included. *)
Definition raw_package (fn : option string) (l : string) : option string :=
  if String.prefix UPDATE_PACKAGE l
  then Some (string_drop (String.length UPDATE_PACKAGE) l ++ newline)%string
  else fn.

(** ** Specification-level definitions for the fstab *)

(** [path] is the mount point [mp] or lies below it. *)
Definition below (mp path : string) : Prop :=
  path = mp \/ exists rest, path = (mp ++ String slash rest)%string.

(** An fstab entry that the loop of [find_block_device] passes over. *)
Definition passed_over (path : string) (v : fstab_rec) : Prop :=
  forall mp, mount_point v = Some mp -> ~ below mp path.

(** The value of [*encrypted] for the entry [v]. *)
Definition crypto_state (p : platform) (v : fstab_rec) : Z :=
  if fs_mgr_is_encryptable v then
    match p_property p "ro.crypto.state" with
    | Some state => if String.eqb state "encrypted" then 1 else 0
    | None => 0
    end
  else 0.

(** ** Shape of a run of [main] *)



(** The ways lines 335-376 can end. *)
Inductive convert_outcome (m : machine) (input_path map_file : string)
    (c : cache_dir) : result * cache_dir * list action -> Prop :=
| ConvNoPath :
    m_realpath m input_path = None ->
    convert_outcome m input_path map_file c (Returned 1, c, [])
| ConvNoDevice path :
    m_realpath m input_path = Some path ->
    fst (find_block_device (m_platform m) path
           (m_encryptable m) (m_encrypted m)) = None ->
    convert_outcome m input_path map_file c (Returned 1, c, [])
| ConvLeftAlone path blk_dev encrypted :
    m_realpath m input_path = Some path ->
    find_block_device (m_platform m) path (m_encryptable m) (m_encrypted m)
    = (Some blk_dev, (0, encrypted)) ->
    convert_outcome m input_path map_file c
      (Returned 0, {| command := command c; command_tmp := None |},
       ActUnlink RECOVERY_COMMAND_FILE_TMP
       :: ActRename RECOVERY_COMMAND_FILE_TMP RECOVERY_COMMAND_FILE false
       :: reboot_to_recovery)
| ConvPassed path blk_dev encrypted s :
    m_realpath m input_path = Some path ->
    find_block_device (m_platform m) path (m_encryptable m) (m_encrypted m)
    = (Some blk_dev, (1, encrypted)) ->
    produce_block_map (m_world m path map_file) blk_dev encrypted
    = (Returned 0, s) ->
    convert_outcome m input_path map_file c
      (Returned 0,
       snd (rename_tmp
              (write_map_file (m_world m path map_file) map_file
                 (map_text (trace s)) c)),
       ActPass path map_file blk_dev encrypted (Returned 0, s)
       :: ActRename RECOVERY_COMMAND_FILE_TMP RECOVERY_COMMAND_FILE
            (fst (rename_tmp
                    (write_map_file (m_world m path map_file) map_file
                       (map_text (trace s)) c)))
       :: reboot_to_recovery)
| ConvFailed path blk_dev encrypted r s :
    m_realpath m input_path = Some path ->
    find_block_device (m_platform m) path (m_encryptable m) (m_encrypted m)
    = (Some blk_dev, (1, encrypted)) ->
    produce_block_map (m_world m path map_file) blk_dev encrypted = (r, s) ->
    r <> Returned 0 ->
    convert_outcome m input_path map_file c
      (match r with Returned _ => Returned 1 | _ => r end,
       write_map_file (m_world m path map_file) map_file
         (map_file_text (m_flushed m) (r, s)) c,
       [ActPass path map_file blk_dev encrypted (r, s)]).

(** The ways [main] can end. *)
Inductive main_outcome (m : machine) (argv : list string) (c : cache_dir)
  : result * cache_dir * list action -> Prop :=
| MainUsage :
    length argv <> 1%nat -> length argv <> 3%nat ->
    main_outcome m argv c (Returned 2, c, [])
| MainArguments out :
    length argv = 3%nat ->
    convert_outcome m (nth 1 argv EmptyString) (nth 2 argv EmptyString) c out ->
    main_outcome m argv c out
| MainNoStream r c' :
    length argv = 1%nat ->
    parse_recovery_command_file (m_fopen_tmp m) c = inl (r, c') ->
    main_outcome m argv c (r, c', [])
| MainNoPackage c' :
    length argv = 1%nat ->
    parse_recovery_command_file (m_fopen_tmp m) c = inr (None, c') ->
    main_outcome m argv c (Returned 1, c', reboot_to_recovery)
| MainCommand input_path c' out :
    length argv = 1%nat ->
    parse_recovery_command_file (m_fopen_tmp m) c = inr (Some input_path, c') ->
    convert_outcome m input_path CACHE_BLOCK_MAP c' out ->
    main_outcome m argv c out.

(** ** Specification-level definitions for the ranges and the calls *)

(** No range starts where the range before it ends: two ranges that
    follow each other cannot be merged. *)
Definition separated (ps : list (Z * Z)) : Prop :=
  forall i p q, ps !! i = Some p -> ps !! S i = Some q -> fst q <> snd p.

(** The same for a list that holds the most recent range first. *)
Definition separated_rev (rs : list (Z * Z)) : Prop :=
  forall i p q, rs !! i = Some q -> rs !! S i = Some p -> fst q <> snd p.

(** Calls that read the source file or write to the raw device. *)
Definition file_io (e : event) : Prop :=
  match e with
  | EvRead _ _ | EvLseek _ | EvWrite _ _ => True
  | _ => False
  end.

(** A state in which no such call was issued. *)
Definition untouched (w : world) (s : sys) : Prop :=
  Forall (fun e => ~ file_io e) (trace s) /\
  device s = w_device w /\ fd_pos s = 0 /\ wfd_pos s = 0 /\
  reads s = 0%nat /\ writes s = 0%nat.

(** [m] keeps the property [P] of the state, however it ends. *)
Definition keeps {A} (P : sys -> Prop) (m : M A) : Prop :=
  forall s, P s -> match m s with
                   | Next _ s' => P s'
                   | Halt _ s' => P s'
                   end.

(** No call recorded in the trace has failed. *)
Definition no_failure (s : sys) : Prop :=
  Forall (fun e => ~ failure e) (trace s).

(** An environment in which no call of the two loops fails: FIBMAP
    resolves every block of the file and, when the file is read and the
    device written, no [read] and no [write] reports an error. *)
Definition oracles_ok (w : world) (sb : stat) (encrypted : Z) : Prop :=
  (forall k, 0 <= k < block_count sb -> is_Some (w_fibmap w k)) /\
  (truthy encrypted = true ->
   (forall k, w_read w k <> None) /\ (forall k, w_write w k <> None)).

(** The value and the state in which a computation ends. *)
Definition final_value {A} (o : outcome A) : option A :=
  match o with Next a _ => Some a | Halt _ _ => None end.

Definition final_state {A} (o : outcome A) : sys :=
  match o with Next _ s => s | Halt _ s => s end.

(** ** Example platform and command files *)

Local Open Scope string_scope.

Definition example_fstab : list fstab_rec :=
  [ FstabRec (Some "/system") "/dev/block/system" false;
    FstabRec None "/dev/block/zram0" false;
    FstabRec (Some "/cache") "/dev/block/cache" false;
    FstabRec (Some "/data") "/dev/block/userdata" true;
    FstabRec (Some "/data/media") "/dev/block/media" false ].

Definition example_platform : platform :=
  {| p_property := fun key =>
       if String.eqb key "ro.hardware" then Some "mako"
       else if String.eqb key "ro.crypto.state" then Some "encrypted"
       else None;
     p_fstab := fun path =>
       if String.eqb path "/fstab.mako" then Some example_fstab else None |}.

Definition example_lines : list string :=
  ["--wipe_cache"; "--update_package=/data/update.zip"; "--locale=en_US"].

Definition example_cache : cache_dir :=
  {| command := Some (unlines example_lines); command_tmp := None |}.

(** A machine on which the package of [example_cache] is the file of
    [small_world]. *)
Definition example_machine : machine :=
  {| m_platform := example_platform;
     m_realpath := fun p => Some p;
     m_fopen_tmp := true;
     m_world := fun _ _ => small_world;
     m_encryptable := 5; m_encrypted := 5; m_flushed := 0 |}.

(** A command file whose package lies on [/cache], and a machine on which
    the third block of the package cannot be resolved. *)
Definition cache_package : cache_dir :=
  {| command := Some (unlines ["--update_package=/cache/update.zip"]);
     command_tmp := None |}.

Definition failing_machine : machine :=
  {| m_platform := example_platform;
     m_realpath := fun p => Some p;
     m_fopen_tmp := true;
     m_world := fun _ _ => unmapped_world;
     m_encryptable := 5; m_encrypted := 5; m_flushed := 0 |}.

(** An environment whose first [write] transfers two bytes and whose
    second [write] fails. *)
Definition failing_write_world : world :=
  {| w_fopen := true; w_stat := Some small_stat;
     w_open_src := true; w_open_dev := true;
     w_fibmap := example_resolver; w_file := ten_bytes;
     w_read := fun _ => Some 0%nat;
     w_write := fun k => match k with O => Some 1%nat | S _ => None end;
     w_device := fun _ => Byte.x00;
     w_junk_int := 7; w_junk_byte := Byte.xff |}.

(** The command file of [example_cache] once rewritten. *)
Definition rewritten_cache : cache_dir :=
  {| command := Some (unlines (rewrite_line <$> example_lines));
     command_tmp := None |}.


Definition clobbering_run : result * cache_dir * list action :=
  main failing_machine
    ["uncrypt"; "/data/update.zip"; RECOVERY_COMMAND_FILE] example_cache.

Definition debug_run : result * cache_dir * list action :=
  main example_machine ["uncrypt"; "/data/update.zip"; "/tmp/block.map"]
    example_cache.

(** Four bytes written at offset 8 when the second [write] fails. *)
Definition failed_write : outcome Z :=
  write_at_offset failing_write_world ten_bytes 4 8
    (initial_sys failing_write_world).

(** The files of [example_cache] after [parse_recovery_command_file], and
    a command file that names no package. *)
Definition rewritten_tmp : cache_dir :=
  {| command := command example_cache;
     command_tmp := Some (unlines (rewrite_line <$> example_lines)) |}.

Definition wipe_cache : cache_dir :=
  {| command := Some (unlines ["--wipe_data"; "--locale=en_US"]);
     command_tmp := None |}.

Local Close Scope string_scope.

(** * Properties *)

(** ** The model on concrete inputs *)

Example coalesce_header_comment :
  finalized <$> add_blocks 0 initial_ranges
     [1000; 1001; 1002; 1003; 1004; 1005; 1006; 1007; 2100; 2101; 30; 31; 32]
  = Some (Some [(1000, 1008); (2100, 2102); (30, 33)]).
Proof. vm_compute. reflexivity. Qed.

(** A repeated block opens a new range. *)
Example coalesce_repeated_block :
  finalized <$> add_blocks 0 initial_ranges [4; 4; 5]
  = Some (Some [(4, 5); (4, 6)]).
Proof. vm_compute. reflexivity. Qed.

(** A negative block number opens a range that the next call takes for
    the unset sentinel and overwrites: block numbers must be
    non-negative for the coalescer to keep every block. *)
Example coalesce_negative_block :
  finalized <$> add_blocks 0 initial_ranges [5; -3; 9]
  = Some (Some [(5, 6); (9, 10)]).
Proof. vm_compute. reflexivity. Qed.

(** Ten bytes written in calls of one and two bytes. *)
Example short_writes :
  match write_at_offset small_world ten_bytes 10 40 (initial_sys small_world)
  with
  | Next rc s => Some (rc, trace s, dev_read (device s) 40 10)
  | Halt _ _ => None
  end
  = Some (0,
          [EvLseek 40; EvWrite 10 (Some 1); EvWrite 9 (Some 2);
           EvWrite 7 (Some 1); EvWrite 6 (Some 2); EvWrite 4 (Some 1);
           EvWrite 3 (Some 2); EvWrite 1 (Some 1)],
          ten_bytes).
Proof. vm_compute. reflexivity. Qed.

(** The calls of a shadow-writing pass whose third block cannot be
    resolved: three blocks are read, two are flushed, and the pass stops
    at the failed query. *)
Example unmapped_block_trace :
  drop 6 (trace (snd (produce_block_map unmapped_world example_dev 1)))
  = [EvRead 4 (Some 1); EvRead 3 (Some 2); EvRead 1 (Some 1);
     EvRead 4 (Some 1); EvRead 3 (Some 2); EvRead 1 (Some 1);
     EvRead 4 (Some 1); EvRead 3 (Some 1);
     EvFibmap 0 (Some 50); EvLseek 200;
     EvWrite 4 (Some 1); EvWrite 3 (Some 2); EvWrite 1 (Some 1);
     EvFibmap 1 (Some 51); EvLseek 204;
     EvWrite 4 (Some 2); EvWrite 2 (Some 1); EvWrite 1 (Some 1);
     EvFibmap 2 None].
Proof. vm_compute. reflexivity. Qed.

(** After a shadow-writing pass over ten bytes in blocks of four, the
    third device block holds the last two bytes of the file followed by
    what the buffer held before. *)
Example small_pass_device :
  dev_read (device (snd (produce_block_map small_world example_dev 1)))
    4000 12
  = ten_bytes ++ [Byte.xff; Byte.xff].
Proof. vm_compute. reflexivity. Qed.

(** The window after twenty steps on the thirteen-block example: ten
    blocks read, six flushed, four slots in use. *)
Example window_after_twenty_steps :
  match steps header_world 0 header_stat 20 AtLoop
          (initial_vars header_world 0 header_stat)
          (loop_entry header_world example_dev header_stat 0) with
  | Next (c, v) s =>
      Some (c, in_flight v, blocks_read header_stat v, flushed s)
  | Halt _ _ => None
  end
  = Some (AtLoop, 4, 10, 6).
Proof. vm_compute. reflexivity. Qed.

(** ** C integers *)

Lemma wrap_int_small x : - 2 ^ 31 <= x <= INT_MAX -> wrap_int x = x.
Proof.
  unfold wrap_int, INT_MAX. intros H.
  rewrite Z.mod_small by lia. lia.
Qed.

Lemma wrap_size_small x : 0 <= x < 2 ^ 64 -> wrap_size x = x.
Proof. unfold wrap_size. intros H. apply Z.mod_small. lia. Qed.

Lemma wrap_off64_small x : - 2 ^ 63 <= x < 2 ^ 63 -> wrap_off64 x = x.
Proof.
  unfold wrap_off64. intros H. rewrite Z.mod_small by lia. lia.
Qed.

Lemma wrap_int_succ x : wrap_int (wrap_int x + 1) = wrap_int (x + 1).
Proof.
  unfold wrap_int.
  replace ((x + 2 ^ 31) mod 2 ^ 32 - 2 ^ 31 + 1 + 2 ^ 31)
    with ((x + 2 ^ 31) mod 2 ^ 32 + 1) by lia.
  replace (x + 1 + 2 ^ 31) with ((x + 2 ^ 31) + 1) by lia.
  rewrite Z.add_mod_idemp_l by lia. reflexivity.
Qed.

Lemma int_add_small a b : - 2 ^ 31 <= a + b <= INT_MAX -> int_add a b = a + b.
Proof. apply wrap_int_small. Qed.
Lemma int_sub_small a b : - 2 ^ 31 <= a - b <= INT_MAX -> int_sub a b = a - b.
Proof. apply wrap_int_small. Qed.
Lemma int_mul_small a b : - 2 ^ 31 <= a * b <= INT_MAX -> int_mul a b = a * b.
Proof. apply wrap_int_small. Qed.

(** ** The abstract coalescer *)

Lemma cells_length rs : length (cells rs) = (2 * length rs)%nat.
Proof. unfold cells. induction rs as [|p rs IH]; simpl; lia. Qed.

Lemma cells_app rs1 rs2 : cells (rs1 ++ rs2) = cells rs1 ++ cells rs2.
Proof. unfold cells. rewrite map_app, concat_app. reflexivity. Qed.

Lemma expand_app rs1 rs2 : expand (rs1 ++ rs2) = expand rs1 ++ expand rs2.
Proof. unfold expand. rewrite map_app, concat_app. reflexivity. Qed.

Lemma sum_lengths_app rs1 rs2 :
  sum_lengths (rs1 ++ rs2) = sum_lengths rs1 + sum_lengths rs2.
Proof. unfold sum_lengths. induction rs1 as [|p rs1 IH]; simpl; lia. Qed.

Lemma expand_range_snoc s e :
  s <= e -> expand_range (s, e + 1) = expand_range (s, e) ++ [e].
Proof.
  intros H. unfold expand_range. simpl.
  replace (e + 1 - s) with ((e - s) + 1) by lia.
  rewrite seqZ_app by lia. f_equal.
  rewrite seqZ_cons by lia. rewrite seqZ_nil by lia. f_equal. lia.
Qed.

Lemma expand_range_single b : expand_range (b, b + 1) = [b].
Proof.
  unfold expand_range. simpl. replace (b + 1 - b) with 1 by lia.
  reflexivity.
Qed.

Lemma expand_single p : expand [p] = expand_range p.
Proof. unfold expand. simpl. apply app_nil_r. Qed.

Lemma coalesce_add_proper rs b :
  Forall (fun p => fst p < snd p) rs ->
  Forall (fun p => fst p < snd p) (coalesce_add rs b).
Proof.
  intros H. destruct rs as [|[s e] rest]; simpl.
  - constructor; [simpl; lia | constructor].
  - inversion H as [|? ? Hp Hrest]; subst. simpl in Hp.
    destruct (b =? e); constructor; simpl; try lia; auto.
Qed.

Lemma coalesce_add_expand rs b :
  Forall (fun p => fst p < snd p) rs ->
  expand (rev (coalesce_add rs b)) = expand (rev rs) ++ [b].
Proof.
  intros H. destruct rs as [|[s e] rest]; simpl.
  - rewrite expand_single, expand_range_single. reflexivity.
  - inversion H as [|? ? Hp Hrest]; subst. simpl in Hp.
    destruct (b =? e) eqn:E.
    + apply Z.eqb_eq in E. subst b. simpl.
      rewrite !expand_app, !expand_single.
      rewrite expand_range_snoc by lia.
      rewrite app_assoc. reflexivity.
    + simpl. rewrite !expand_app, !expand_single.
      rewrite expand_range_single, <- !app_assoc.
      reflexivity.
Qed.

Lemma coalesce_add_sum rs b :
  sum_lengths (coalesce_add rs b) = sum_lengths rs + 1.
Proof.
  destruct rs as [|[s e] rest]; simpl; [lia|].
  destruct (b =? e); simpl; lia.
Qed.

Lemma coalesce_add_nonneg rs b :
  0 <= b -> Forall (fun p => 0 <= fst p) rs ->
  Forall (fun p => 0 <= fst p) (coalesce_add rs b).
Proof.
  intros Hb H. destruct rs as [|[s e] rest]; simpl.
  - constructor; [simpl; lia | constructor].
  - inversion H as [|? ? Hp Hrest]; subst.
    destruct (b =? e); constructor; simpl; auto.
Qed.

Lemma foldl_coalesce_proper bs : forall rs,
  Forall (fun p => fst p < snd p) rs ->
  Forall (fun p => fst p < snd p) (foldl coalesce_add rs bs).
Proof.
  induction bs as [|b bs IH]; intros rs H; simpl; auto.
  apply IH, coalesce_add_proper, H.
Qed.

Lemma foldl_coalesce_expand bs : forall rs,
  Forall (fun p => fst p < snd p) rs ->
  expand (rev (foldl coalesce_add rs bs)) = expand (rev rs) ++ bs.
Proof.
  induction bs as [|b bs IH]; intros rs H; simpl.
  - rewrite app_nil_r. reflexivity.
  - rewrite IH by (apply coalesce_add_proper, H).
    rewrite coalesce_add_expand by exact H.
    rewrite <- app_assoc. reflexivity.
Qed.

Lemma foldl_coalesce_sum bs : forall rs,
  sum_lengths (foldl coalesce_add rs bs)
  = sum_lengths rs + Z.of_nat (length bs).
Proof.
  induction bs as [|b bs IH]; intros rs; simpl; [lia|].
  rewrite IH, coalesce_add_sum. lia.
Qed.

Lemma foldl_coalesce_nonneg bs : forall rs,
  Forall (fun b => 0 <= b) bs ->
  Forall (fun p => 0 <= fst p) rs ->
  Forall (fun p => 0 <= fst p) (foldl coalesce_add rs bs).
Proof.
  induction bs as [|b bs IH]; intros rs Hbs H; simpl; auto.
  inversion Hbs; subst. apply IH; auto. apply coalesce_add_nonneg; auto.
Qed.

Lemma foldl_coalesce_length bs : forall rs last,
  current_ends_at rs last ->
  Z.of_nat (length (foldl coalesce_add rs bs))
  = Z.of_nat (length rs) + breaks last bs.
Proof.
  induction bs as [|b bs IH]; intros rs last H; simpl; [lia|].
  destruct rs as [|[s e] rest]; simpl in H; [contradiction|]. subst e.
  simpl. destruct (b =? last + 1) eqn:E.
  - rewrite (IH _ b) by (simpl; apply Z.eqb_eq in E; lia). simpl. lia.
  - rewrite (IH _ b) by (simpl; lia). simpl length. lia.
Qed.

Lemma foldl_coalesce_length_le bs : forall rs,
  (length (foldl coalesce_add rs bs) <= length rs + length bs)%nat.
Proof.
  induction bs as [|b bs IH]; intros rs; simpl; [lia|].
  etransitivity; [apply IH|].
  destruct rs as [|[s e] rest]; simpl; [lia|].
  destruct (b =? e); simpl; lia.
Qed.

Lemma sum_lengths_rev rs : sum_lengths (rev rs) = sum_lengths rs.
Proof.
  induction rs as [|p rs IH]; simpl; [reflexivity|].
  rewrite sum_lengths_app, IH. simpl. lia.
Qed.

Lemma coalesce_expand bs : expand (coalesce bs) = bs.
Proof.
  unfold coalesce. rewrite foldl_coalesce_expand by constructor.
  reflexivity.
Qed.

Lemma coalesce_sum bs : sum_lengths (coalesce bs) = Z.of_nat (length bs).
Proof.
  unfold coalesce. rewrite sum_lengths_rev, foldl_coalesce_sum.
  simpl. lia.
Qed.

Lemma coalesce_count bs :
  bs <> [] -> Z.of_nat (length (coalesce bs)) = 1 + non_adjacent bs.
Proof.
  intros H. destruct bs as [|b bs]; [contradiction|].
  unfold coalesce. rewrite length_rev. simpl.
  rewrite (foldl_coalesce_length bs _ b) by (simpl; lia).
  simpl. lia.
Qed.

(** ** The array coalescer refines the abstract one *)

(** Case analysis on the first integer test of the goal. *)
Ltac ztest :=
  match goal with
  | |- context [?a <? ?b] => destruct (Z.ltb_spec a b)
  | |- context [?a <=? ?b] => destruct (Z.leb_spec a b)
  | |- context [?a =? ?b] => destruct (Z.eqb_spec a b)
  end.

Lemma load_at {A} (pre : list A) x post i :
  i = Z.of_nat (length pre) -> load (pre ++ x :: post) i = Some x.
Proof.
  intros ->. unfold load. ztest; [lia|].
  rewrite Nat2Z.id. apply list_lookup_middle. reflexivity.
Qed.

Lemma store_at {A} (pre : list A) x post i y :
  i = Z.of_nat (length pre) ->
  store (pre ++ x :: post) i y = Some (pre ++ y :: post).
Proof.
  intros ->. unfold store. rewrite length_app. simpl.
  ztest; [|lia]. ztest; [|lia].
  simpl. f_equal. rewrite Nat2Z.id.
  replace (length pre) with (length pre + 0)%nat at 1 by lia.
  rewrite insert_app_r. reflexivity.
Qed.

Lemma rep_initial : rep initial_ranges [].
Proof. reflexivity. Qed.

Lemma add_block_first junk b :
  block_ok b ->
  add_block_to_ranges junk initial_ranges b
  = Some {| ranges := [b; b + 1]; range_alloc := 1; range_used := 1 |}.
Proof.
  unfold block_ok, INT_MAX. intros Hb.
  unfold add_block_to_ranges, initial_ranges. simpl range_used.
  simpl ranges. simpl range_alloc.
  change (int_mul 1 2) with 2. change (int_sub 2 2) with 0.
  change (int_sub 2 1) with 1.
  change (load [-1; -1] 0) with (Some (-1)). cbn [mbind option_bind].
  change (-1 <? 0) with true. cbv iota.
  change (store [-1; -1] 0 b) with (Some [b; -1]). cbn [mbind option_bind].
  change (store [b; -1] 1 b) with (Some [b; b]). cbn [mbind option_bind].
  change (load [b; b] 1) with (Some b). cbn [mbind option_bind].
  rewrite Z.eqb_refl.
  change (store [b; b] 1 (int_add b 1)) with (Some [b; int_add b 1]).
  cbn [mbind option_bind app]. rewrite int_add_small by (unfold INT_MAX; lia).
  reflexivity.
Qed.

Lemma realloc_grow junk (a : list Z) (n : nat) :
  (length a <= n)%nat ->
  realloc junk a n = a ++ replicate (n - length a) junk.
Proof.
  intros H. unfold realloc. rewrite take_ge by lia. reflexivity.
Qed.

Lemma add_block_next junk r s e rest b :
  rep r ((s, e) :: rest) ->
  block_ok b ->
  Z.of_nat (length ((s, e) :: rest)) < MAX_BLOCKS ->
  exists r', add_block_to_ranges junk r b = Some r' /\
             rep r' (coalesce_add ((s, e) :: rest) b).
Proof.
  unfold block_ok, MAX_BLOCKS, INT_MAX.
  destruct r as [arr alloc used]. simpl.
  intros (Hused & Halloc & Hpos & spare & Harr & Hspare) Hb Hn.
  pose proof (Forall_inv Hpos) as Hs. simpl in Hs.
  pose proof (Forall_inv_tail Hpos) as Hrest.
  rewrite cells_app in Harr. unfold cells at 2 in Harr. simpl in Harr.
  set (P := cells (rev rest)) in *.
  assert (HP : Z.of_nat (length P) = 2 * Z.of_nat (length rest)).
  { unfold P. rewrite cells_length, length_rev. lia. }
  set (N := Z.of_nat (length rest)) in *.
  assert (HN : Z.of_nat (S (length rest)) = N + 1) by (unfold N; lia).
  rewrite HN in *. clear HN. subst used.
  assert (HN0 : 0 <= N) by (unfold N; lia).
  assert (HS : Z.of_nat (S (length rest)) = N + 1) by (unfold N; lia).
  assert (HSS : Z.of_nat (S (S (length rest))) = N + 2) by (unfold N; lia).
  unfold add_block_to_ranges. simpl.
  rewrite (int_mul_small (N + 1) 2) by (unfold INT_MAX; lia).
  rewrite (int_sub_small ((N + 1) * 2) 2), (int_sub_small ((N + 1) * 2) 1)
    by (unfold INT_MAX; lia).
  subst arr. rewrite <- app_assoc. simpl.
  rewrite (load_at P s (e :: spare)) by lia. cbn [mbind option_bind].
  destruct (Z.ltb_spec s 0) as [?|_]; [lia|].
  cbn [mbind option_bind].
  assert (Hidx : (N + 1) * 2 - 1 = Z.of_nat (length (P ++ [s]))).
  { rewrite length_app. simpl. lia. }
  replace (P ++ s :: e :: spare) with ((P ++ [s]) ++ e :: spare)
    by (rewrite <- app_assoc; reflexivity).
  rewrite (load_at (P ++ [s]) e spare) by exact Hidx.
  cbn [mbind option_bind].
  destruct (Z.eqb_spec b e) as [->|Hne].
  - rewrite (store_at (P ++ [s]) e spare) by exact Hidx.
    cbn [mbind option_bind]. eexists. split; [reflexivity|].
    rewrite int_add_small by (unfold INT_MAX; lia).
    simpl. rewrite ?HS.
    repeat split; try lia.
    + constructor; [simpl; lia | exact Hrest].
    + exists spare. split; [|lia].
      rewrite cells_app. unfold cells at 2. simpl. fold P.
      rewrite <- !app_assoc. reflexivity.
  - assert (Hused' : int_add (N + 1) 1 = N + 2).
    { rewrite int_add_small by (unfold INT_MAX; lia). lia. }
    rewrite Hused'.
    rewrite (int_mul_small (N + 2) 2) by (unfold INT_MAX; lia).
    rewrite (int_sub_small ((N + 2) * 2) 2), (int_sub_small ((N + 2) * 2) 1)
      by (unfold INT_MAX; lia).
    rewrite (int_add_small b 1) by (unfold INT_MAX; lia).
    set (Q := (P ++ [s]) ++ [e]).
    assert (HQ : Z.of_nat (length Q) = 2 * N + 2).
    { unfold Q. rewrite !length_app. simpl. lia. }
    assert (Hcells : cells (rev ((b, b + 1) :: (s, e) :: rest))
                     = Q ++ [b; b + 1]).
    { simpl. rewrite !cells_app. unfold cells at 2 3. simpl. fold P.
      unfold Q. rewrite <- !app_assoc. reflexivity. }
    destruct (Z.leb_spec alloc (N + 1)) as [Hfull|Hroom].
    + assert (alloc = N + 1) by lia. subst alloc.
      assert (spare = []) by (destruct spare; [reflexivity | simpl in Hspare; lia]).
      subst spare.
      rewrite (int_mul_small (N + 1) 2) by (unfold INT_MAX; lia).
      rewrite (int_mul_small _ 2) by (unfold INT_MAX; lia).
      destruct (Z.ltb_spec ((N + 1) * 2 * 2) 0) as [?|_]; [lia|].
      cbn [mbind option_bind].
      fold Q.
      rewrite realloc_grow by lia.
      assert (Hrep : (Z.to_nat ((N + 1) * 2 * 2) - length Q
                      = S (S (Z.to_nat (2 * N))))%nat) by lia.
      rewrite Hrep. simpl replicate.
      rewrite (store_at Q junk) by lia. cbn [mbind option_bind].
      replace (Q ++ b :: junk :: replicate (Z.to_nat (2 * N)) junk)
        with ((Q ++ [b]) ++ junk :: replicate (Z.to_nat (2 * N)) junk)
        by (rewrite <- app_assoc; reflexivity).
      rewrite (store_at (Q ++ [b]) junk)
        by (rewrite length_app; simpl; lia).
      cbn [mbind option_bind]. eexists. split; [reflexivity|].
      simpl. rewrite ?HSS.
      repeat split; try lia.
      * constructor; [simpl; lia | exact Hpos].
      * exists (replicate (Z.to_nat (2 * N)) junk). split.
        -- simpl in Hcells. rewrite Hcells, <- !app_assoc. reflexivity.
        -- rewrite length_replicate. lia.
    + cbn [mbind option_bind]. fold Q.
      destruct spare as [|x [|y spare']]; simpl in Hspare; try lia.
      replace ((P ++ [s]) ++ e :: x :: y :: spare')
        with (Q ++ x :: y :: spare')
        by (unfold Q; rewrite <- (app_assoc _ [e]); reflexivity).
      rewrite (store_at Q x) by lia. cbn [mbind option_bind].
      replace (Q ++ b :: y :: spare') with ((Q ++ [b]) ++ y :: spare')
        by (rewrite <- app_assoc; reflexivity).
      rewrite (store_at (Q ++ [b]) y) by (rewrite length_app; simpl; lia).
      cbn [mbind option_bind]. eexists. split; [reflexivity|].
      simpl. rewrite ?HSS.
      repeat split; try lia.
      * constructor; [simpl; lia | exact Hpos].
      * exists spare'. split; [|lia].
        simpl in Hcells. rewrite Hcells, <- !app_assoc. reflexivity.
Qed.

Lemma add_block_refines junk r rs b :
  rep r rs -> block_ok b -> Z.of_nat (length rs) < MAX_BLOCKS ->
  exists r', add_block_to_ranges junk r b = Some r' /\
             rep r' (coalesce_add rs b).
Proof.
  intros Hrep Hb Hn. destruct rs as [|[s e] rest].
  - simpl in Hrep. subst r. rewrite add_block_first by exact Hb.
    eexists. split; [reflexivity|]. simpl.
    repeat split; try lia.
    + constructor; [simpl; unfold block_ok in Hb; lia | constructor].
    + exists []. split; reflexivity.
  - eapply add_block_next; eauto.
Qed.

Lemma add_blocks_refines junk bs : forall r rs,
  rep r rs -> Forall block_ok bs ->
  Z.of_nat (length rs) + Z.of_nat (length bs) <= MAX_BLOCKS ->
  exists r', add_blocks junk r bs = Some r' /\
             rep r' (foldl coalesce_add rs bs).
Proof.
  induction bs as [|b bs IH]; intros r rs Hrep Hbs Hn; simpl.
  - eexists; split; [reflexivity | exact Hrep].
  - pose proof (Forall_inv Hbs) as Hb.
    pose proof (Forall_inv_tail Hbs) as Hbs'.
    simpl in Hn.
    destruct (add_block_refines junk r rs b Hrep Hb) as (r1 & E1 & Hrep1);
      [lia|].
    rewrite E1. cbn [mbind option_bind].
    apply IH; auto.
    pose proof (foldl_coalesce_length_le [b] rs) as Hle. simpl in Hle.
    lia.
Qed.

Lemma read_pairs_cells l : forall pre spare i,
  Z.of_nat (length pre) = 2 * i ->
  i + Z.of_nat (length l) <= MAX_BLOCKS ->
  read_pairs (pre ++ cells l ++ spare) i (length l) = Some l.
Proof.
  unfold MAX_BLOCKS.
  induction l as [|[s e] l IH]; intros pre spare i Hpre Hn.
  - reflexivity.
  - assert (0 <= i) by lia.
    change (cells ((s, e) :: l)) with (s :: e :: cells l).
    rewrite length_cons in Hn. cbn [read_pairs length app].
    rewrite (int_mul_small i 2) by (unfold INT_MAX; lia).
    rewrite (int_add_small (i * 2) 1) by (unfold INT_MAX; lia).
    rewrite (int_add_small i 1) by (unfold INT_MAX; lia).
    rewrite (load_at pre s _ (i * 2)) by lia. cbn [mbind option_bind].
    replace (pre ++ s :: e :: cells l ++ spare)
      with ((pre ++ [s]) ++ e :: cells l ++ spare)
      by (rewrite <- app_assoc; reflexivity).
    rewrite (load_at (pre ++ [s]) e _ (i * 2 + 1))
      by (rewrite length_app; simpl; lia).
    cbn [mbind option_bind].
    replace ((pre ++ [s]) ++ e :: cells l ++ spare)
      with (((pre ++ [s]) ++ [e]) ++ cells l ++ spare)
      by (rewrite <- (app_assoc _ [e]); reflexivity).
    rewrite IH; [reflexivity | rewrite !length_app; simpl; lia | lia].
Qed.

Lemma finalized_rep r rs :
  rep r rs -> rs <> [] -> Z.of_nat (length rs) <= MAX_BLOCKS ->
  finalized r = Some (rev rs).
Proof.
  intros Hrep Hne Hn. destruct rs as [|p rest]; [contradiction|].
  destruct Hrep as (Hused & _ & _ & spare & Harr & _).
  unfold finalized. rewrite Harr, Hused, Nat2Z.id.
  rewrite <- (length_rev (p :: rest)).
  apply (read_pairs_cells _ [] spare 0); [reflexivity|].
  rewrite length_rev. lia.
Qed.

Lemma rep_used r rs :
  rep r rs -> rs <> [] -> range_used r = Z.of_nat (length rs).
Proof.
  intros Hrep Hne. destruct rs; [contradiction|]. apply Hrep.
Qed.

(** A run of the array coalescer on admissible blocks, summarised. *)
Lemma add_blocks_coalesce junk bs :
  bs <> [] -> Forall block_ok bs -> Z.of_nat (length bs) <= MAX_BLOCKS ->
  exists r, add_blocks junk initial_ranges bs = Some r /\
            finalized r = Some (coalesce bs) /\
            range_used r = Z.of_nat (length (coalesce bs)).
Proof.
  intros Hne Hbs Hn.
  destruct (add_blocks_refines junk bs initial_ranges [] rep_initial Hbs)
    as (r & E & Hrep); [simpl; lia|].
  exists r. split; [exact E|].
  assert (Hne' : foldl coalesce_add [] bs <> []).
  { destruct bs as [|b bs]; [contradiction|]. simpl.
    pose proof (foldl_coalesce_length bs [(b, b + 1)] b) as HL.
    simpl in HL. specialize (HL ltac:(lia)).
    intros Heq. rewrite Heq in HL. simpl in HL.
    assert (0 <= breaks b bs).
    { clear. revert b. induction bs as [|x bs IH]; intros b; simpl; [lia|].
      specialize (IH x). destruct (x =? b + 1); lia. }
    lia. }
  assert (Hlen : Z.of_nat (length (foldl coalesce_add [] bs)) <= MAX_BLOCKS).
  { pose proof (foldl_coalesce_length_le bs []) as Hle. simpl in Hle. lia. }
  split.
  - apply finalized_rep; auto.
  - unfold coalesce. rewrite length_rev. apply rep_used; auto.
Qed.

(** C3: feeding a non-empty sequence of physical block numbers to the
    coalescer, starting from the state set up by [produce_block_map],
    yields a range list whose lengths sum to the number of blocks and
    whose number of ranges is one more than the number of positions
    where a block does not directly follow its predecessor. *)
Theorem coalescer_sum_and_count junk (bs : list Z) :
  bs <> [] -> Forall block_ok bs -> Z.of_nat (length bs) <= MAX_BLOCKS ->
  exists r ps,
    add_blocks junk initial_ranges bs = Some r /\
    finalized r = Some ps /\
    range_used r = Z.of_nat (length ps) /\
    sum_lengths ps = Z.of_nat (length bs) /\
    Z.of_nat (length ps) = 1 + non_adjacent bs.
Proof.
  intros Hne Hbs Hn.
  destruct (add_blocks_coalesce junk bs Hne Hbs Hn) as (r & E & Hf & Hu).
  exists r, (coalesce bs). repeat split; auto.
  - apply coalesce_sum.
  - apply coalesce_count, Hne.
Qed.

Lemma coalescer_sum_and_count_witness :
  exists r ps,
    add_blocks 0 initial_ranges [7; 8; 3; 4; 5; 9] = Some r /\
    finalized r = Some ps /\
    range_used r = Z.of_nat (length ps) /\
    sum_lengths ps = 6 /\
    Z.of_nat (length ps) = 1 + 2.
Proof.
  apply (coalescer_sum_and_count 0 [7; 8; 3; 4; 5; 9]).
  - discriminate.
  - repeat constructor; vm_compute; intros; discriminate.
  - vm_compute. intros; discriminate.
Defined.

(** ** write_at_offset *)

Lemma bind_unfold {A B} (m : M A) (k : A -> M B) s :
  (m ≫= k) s = match m s with
               | Next a s' => k a s'
               | Halt r s' => Halt r s'
               end.
Proof. reflexivity. Qed.

Lemma dev_write_nil d p a : dev_write d p [] a = d a.
Proof.
  unfold dev_write. destruct (_ && _); reflexivity.
Qed.

Lemma dev_write_app d p d1 d2 a :
  dev_write (dev_write d p d1) (p + Z.of_nat (length d1)) d2 a
  = dev_write d p (d1 ++ d2) a.
Proof.
  unfold dev_write. rewrite length_app.
  destruct (Z.leb_spec (p + Z.of_nat (length d1)) a);
    destruct (Z.ltb_spec a (p + Z.of_nat (length d1) + Z.of_nat (length d2)));
    destruct (Z.leb_spec p a);
    destruct (Z.ltb_spec a (p + Z.of_nat (length d1)));
    destruct (Z.ltb_spec a (p + Z.of_nat (length d1 + length d2)%nat));
    simpl; try lia; try reflexivity.
  - rewrite lookup_app_r by lia.
    replace (Z.to_nat (a - p) - length d1)%nat
      with (Z.to_nat (a - (p + Z.of_nat (length d1)))) by lia.
    destruct (d2 !! _) eqn:E; [reflexivity|].
    apply lookup_ge_None in E. lia.
  - rewrite lookup_app_l by lia. reflexivity.
Qed.

Lemma dev_write_lookup d p data a :
  p <= a < p + Z.of_nat (length data) ->
  data !! Z.to_nat (a - p) = Some (dev_write d p data a).
Proof.
  intros H. unfold dev_write.
  destruct (Z.leb_spec p a); [|lia].
  destruct (Z.ltb_spec a (p + Z.of_nat (length data))); [|lia]. simpl.
  destruct (data !! Z.to_nat (a - p)) eqn:E; [reflexivity|].
  apply lookup_ge_None in E. lia.
Qed.

Lemma dev_write_outside d p data a :
  a < p \/ p + Z.of_nat (length data) <= a -> dev_write d p data a = d a.
Proof.
  intros H. unfold dev_write.
  destruct (Z.leb_spec p a); destruct (Z.ltb_spec a (p + Z.of_nat (length data)));
    simpl; try reflexivity; lia.
Qed.

Lemma dev_write_ext d d' p data a :
  (forall x, d x = d' x) -> dev_write d p data a = dev_write d' p data a.
Proof. intros H. unfold dev_write. rewrite H. reflexivity. Qed.

Lemma dev_read_write d p data :
  0 <= p -> dev_read (dev_write d p data) p (Z.of_nat (length data)) = data.
Proof.
  intros Hp. apply list_eq. intros i. unfold dev_read.
  rewrite list_lookup_fmap.
  destruct (decide (i < length data)%nat) as [Hi|Hi].
  - rewrite lookup_seqZ_lt by lia. simpl.
    match goal with
    | |- Some (dev_write _ _ _ ?x) = _ =>
        rewrite <- (dev_write_lookup d p data x) by lia; f_equal; lia
    end.
  - rewrite lookup_seqZ_ge by lia. simpl. symmetry.
    apply lookup_ge_None. lia.
Qed.

Lemma write_loop_spec w buffer size : forall fuel written s,
  0 <= written <= size -> size <= Z.of_nat (length buffer) ->
  size < 2 ^ 64 -> size - written <= Z.of_nat fuel ->
  exists rc s' evs,
    write_loop w fuel buffer size written s = Next rc s' /\
    trace s' = trace s ++ evs /\
    write_calls (size - written) evs rc /\
    fd_pos s' = fd_pos s /\ reads s' = reads s /\
    (rc = 0 ->
     wfd_pos s' = wfd_pos s + (size - written) /\
     forall a, device s' a
               = dev_write (device s) (wfd_pos s)
                   (take (Z.to_nat (size - written))
                      (drop (Z.to_nat written) buffer)) a).
Proof.
  induction fuel as [|fuel IH]; intros written s Hw Hbuf Hsz Hfuel.
  - assert (written = size) by lia. subst written.
    exists 0, s, []. simpl. rewrite Z.ltb_irrefl.
    rewrite app_nil_r, Z.sub_diag.
    repeat split; auto; try lia.
    intros a. simpl. rewrite dev_write_nil. reflexivity.
  - simpl. destruct (Z.ltb_spec written size) as [Hlt|Hge].
    + rewrite bind_unfold. unfold sys_write, size_sub.
      rewrite wrap_size_small by lia.
      destruct (w_write w (writes s)) as [c|].
      * set (data := take (Nat.min (S c) (Z.to_nat (size - written)))
                       (drop (Z.to_nat written) buffer)).
        assert (Hlen : length data = Nat.min (S c) (Z.to_nat (size - written))).
        { unfold data. rewrite length_take, length_drop. lia. }
        set (n := Z.of_nat (length data)).
        assert (Hn : 0 < n <= size - written) by (unfold n; lia).
        unfold size_add. rewrite wrap_size_small by lia.
        edestruct (IH (written + n)) as (rc & s' & evs & E & Htr & Hcalls
                                         & Hfd & Hrd & Hok);
          [| exact Hbuf | exact Hsz | | rewrite E]; try lia.
        exists rc, s', (EvWrite (size - written) (Some n) :: evs).
        simpl in Htr, Hfd, Hrd, Hok.
        split; [reflexivity|].
        split; [rewrite Htr, <- app_assoc; reflexivity|].
        split.
        { simpl. split; [reflexivity|]. split; [lia|].
          replace (size - written - n) with (size - (written + n)) by lia.
          exact Hcalls. }
        split; [exact Hfd|]. split; [exact Hrd|].
        intros Hrc. destruct (Hok Hrc) as [Hpos Hdev].
        split; [lia|]. intros a. rewrite Hdev.
        unfold n. rewrite dev_write_app. f_equal. fold n.
        set (D := drop (Z.to_nat written) buffer) in *.
        assert (Hd : data = take (length data) D)
          by (unfold data at 1; rewrite Hlen; reflexivity).
        replace (drop (Z.to_nat (written + n)) buffer)
          with (drop (length data) D)
          by (unfold D; rewrite drop_drop; f_equal; lia).
        rewrite Hd at 1. rewrite take_take_drop. f_equal. lia.
      * eexists (-1), _, [EvWrite (size - written) None].
        split; [reflexivity|]. simpl.
        repeat split; auto; try lia; discriminate.
    + assert (written = size) by lia. subst written.
      exists 0, s, []. rewrite app_nil_r, Z.sub_diag.
      repeat split; auto; try lia.
      intros a. simpl. rewrite dev_write_nil. reflexivity.
Qed.

Lemma dev_read_ext d d' p n :
  (forall a, d a = d' a) -> dev_read d p n = dev_read d' p n.
Proof.
  intros H. unfold dev_read. apply list_fmap_ext. intros i x _. apply H.
Qed.

Lemma write_at_offset_spec w buffer size offset s :
  0 <= size <= Z.of_nat (length buffer) -> size < 2 ^ 64 ->
  exists rc s' evs,
    write_at_offset w buffer size offset s = Next rc s' /\
    trace s' = trace s ++ EvLseek offset :: evs /\
    write_calls size evs rc /\
    fd_pos s' = fd_pos s /\ reads s' = reads s /\
    (rc = 0 -> 0 <= offset ->
     forall a, device s' a
               = dev_write (device s) offset (take (Z.to_nat size) buffer) a).
Proof.
  intros Hsize Hmax. unfold write_at_offset. rewrite bind_unfold.
  unfold sys_lseek.
  edestruct (write_loop_spec w buffer size (Z.to_nat size) 0)
    as (rc & s' & evs & E & Htr & Hcalls & Hfd & Hrd & Hok);
    [| | exact Hmax | | rewrite E]; try lia.
  simpl in Htr, Hfd, Hrd, Hok. rewrite Z.sub_0_r in *.
  exists rc, s', evs. split; [reflexivity|].
  split; [rewrite Htr, <- app_assoc; reflexivity|].
  split; [exact Hcalls|]. split; [exact Hfd|]. split; [exact Hrd|].
  intros Hrc Hoff. destruct (Hok Hrc) as [_ Hdev]. intros a.
  rewrite Hdev. destruct (Z.ltb_spec offset 0); [lia|]. reflexivity.
Qed.

Lemma write_calls_rc evs : forall remaining rc,
  write_calls remaining evs rc -> rc = 0 \/ rc = -1.
Proof.
  induction evs as [|e evs IH]; intros remaining rc H; simpl in H.
  - left. apply H.
  - destruct e as [| | | | | |c [n|]| |]; try contradiction.
    + destruct H as (_ & _ & H). eapply IH, H.
    + right. apply H.
Qed.

Lemma write_calls_error evs : forall remaining rc,
  write_calls remaining evs rc -> (rc = -1 <-> Exists write_error evs).
Proof.
  induction evs as [|e evs IH]; intros remaining rc H; simpl in H.
  - destruct H as [_ ->]. split; [discriminate|].
    intros Hex. inversion Hex.
  - destruct e as [| | | | | |c [n|]| |]; try contradiction.
    + destruct H as (_ & _ & H). rewrite (IH _ _ H). split.
      * intros Hex. apply Exists_cons_tl, Hex.
      * intros Hex. inversion Hex as [? ? Hhd|? ? Htl]; subst;
          [simpl in Hhd; contradiction | exact Htl].
    + destruct H as (_ & _ & _ & ->). split; [|reflexivity].
      intros _. apply Exists_cons_hd. exact I.
Qed.

Lemma write_calls_total evs : forall remaining,
  write_calls remaining evs 0 -> bytes_written evs = remaining.
Proof.
  induction evs as [|e evs IH]; intros remaining H; simpl in H.
  - simpl. lia.
  - destruct e as [| | | | | |c [n|]| |]; try contradiction.
    + destruct H as (_ & _ & H). simpl. rewrite (IH _ H). lia.
    + destruct H as (_ & _ & _ & ?). discriminate.
Qed.

(** C6: [write_at_offset] always returns; it returns [-1] exactly when
    one of its [write] calls reports an error.  A call that transfers
    fewer bytes than asked is followed by a call for the remaining bytes
    ([write_calls]); when [0] is returned, [size] bytes were transferred
    and the device holds the buffer at [offset, offset + size). *)
Theorem write_at_offset_correct w buffer size offset s :
  0 <= size <= Z.of_nat (length buffer) -> size < 2 ^ 64 -> 0 <= offset ->
  exists rc s' evs,
    write_at_offset w buffer size offset s = Next rc s' /\
    trace s' = trace s ++ EvLseek offset :: evs /\
    write_calls size evs rc /\
    (rc = 0 \/ rc = -1) /\
    (rc = -1 <-> Exists write_error evs) /\
    (rc = 0 ->
     bytes_written evs = size /\
     dev_read (device s') offset size = take (Z.to_nat size) buffer).
Proof.
  intros Hsize Hmax Hoff.
  destruct (write_at_offset_spec w buffer size offset s Hsize Hmax)
    as (rc & s' & evs & E & Htr & Hcalls & _ & _ & Hok).
  exists rc, s', evs. split; [exact E|]. split; [exact Htr|].
  split; [exact Hcalls|].
  split; [eapply write_calls_rc, Hcalls|].
  split; [eapply write_calls_error, Hcalls|].
  intros Hrc. subst rc. split; [apply write_calls_total, Hcalls|].
  rewrite (dev_read_ext _ _ _ _ (Hok eq_refl Hoff)).
  pose proof (dev_read_write (device s) offset
                (take (Z.to_nat size) buffer) Hoff) as Hrw.
  rewrite length_take in Hrw.
  replace (Z.of_nat (Z.to_nat size `min` length buffer)) with size in Hrw
    by lia.
  exact Hrw.
Qed.

Lemma write_at_offset_correct_witness :
  exists rc s' evs,
    write_at_offset small_world ten_bytes 10 40 (initial_sys small_world)
    = Next rc s' /\
    trace s' = trace (initial_sys small_world) ++ EvLseek 40 :: evs /\
    write_calls 10 evs rc /\
    (rc = 0 \/ rc = -1) /\
    (rc = -1 <-> Exists write_error evs) /\
    (rc = 0 ->
     bytes_written evs = 10 /\
     dev_read (device s') 40 10 = take (Z.to_nat 10) ten_bytes).
Proof.
  apply (write_at_offset_correct small_world ten_bytes 10 40
           (initial_sys small_world)).
  - simpl. lia.
  - lia.
  - lia.
Defined.

(** ** Reading one block *)

Lemma blit_length buf off data :
  0 <= off ->
  (Z.to_nat off + length data <= length buf)%nat ->
  length (blit buf off data) = length buf.
Proof.
  intros Hoff H. unfold blit.
  rewrite !length_app, length_take, length_drop. lia.
Qed.

Lemma blit_take buf off data :
  0 <= off ->
  (Z.to_nat off + length data <= length buf)%nat ->
  take (Z.to_nat off + length data) (blit buf off data)
  = take (Z.to_nat off) buf ++ data.
Proof.
  intros Hoff H. unfold blit. rewrite app_assoc.
  rewrite take_app_length'; [reflexivity|].
  rewrite length_app, length_take. lia.
Qed.

Lemma take_length_self {A} (l : list A) m :
  take (length (take m l)) l = take m l.
Proof.
  rewrite length_take. destruct (decide (m <= length l)%nat).
  - rewrite Nat.min_l by lia. reflexivity.
  - rewrite Nat.min_r by lia. rewrite !take_ge by lia. reflexivity.
Qed.

Lemma read_block_spec w sb :
  stat_ok sb -> file_ok w sb ->
  forall fuel buf so_far p s p0,
    0 <= so_far <= st_blksize sb ->
    p = p0 + so_far -> 0 <= p0 -> p <= st_size sb ->
    fd_pos s = p ->
    Z.of_nat (length buf) = st_blksize sb ->
    st_blksize sb - so_far <= Z.of_nat fuel ->
    match read_block w fuel sb buf so_far p s with
    | Next (buf', p') s' =>
        p' = Z.min (p0 + st_blksize sb) (st_size sb) /\
        fd_pos s' = p' /\
        Z.of_nat (length buf') = st_blksize sb /\
        take (Z.to_nat (p' - p0)) buf'
        = take (Z.to_nat so_far) buf
            ++ take (Z.to_nat (p' - p)) (drop (Z.to_nat p) (w_file w)) /\
        device s' = device s /\
        exists evs, trace s' = trace s ++ evs /\ Forall read_ok evs
    | Halt r s' =>
        r = Returned (-1) /\ device s' = device s /\
        exists evs c,
          trace s' = trace s ++ evs ++ [EvRead c None] /\
          Forall read_ok evs
    end.
Proof.
  intros [Hsize Hbs] Hfile. unfold file_ok in Hfile.
  induction fuel as [|fuel IH];
    intros buf so_far p s p0 Hso Hp Hp0 Hle Hfd Hbuf Hfuel;
    cbn [read_block];
    rewrite (wrap_size_small (st_blksize sb)), (wrap_size_small (st_size sb))
      by lia.
  - destruct (Z.ltb_spec so_far (st_blksize sb)); [lia|]. simpl.
    assert (so_far = st_blksize sb) by lia. subst so_far.
    replace (p - p0) with (st_blksize sb) by lia.
    rewrite Z.sub_diag. simpl. rewrite app_nil_r.
    repeat split; auto; try lia.
    exists []. rewrite app_nil_r. split; [reflexivity | constructor].
  - destruct (Z.ltb_spec so_far (st_blksize sb)) as [Hlt|Hge];
      destruct (Z.ltb_spec p (st_size sb)) as [Hlt'|Hge']; simpl.
    + rewrite bind_unfold. unfold sys_read, size_sub.
      rewrite wrap_size_small by lia.
      destruct (w_read w (reads s)) as [c|].
      * rewrite Hfd.
        set (D := drop (Z.to_nat p) (w_file w)).
        set (data := take (Nat.min (S c) (Z.to_nat (st_blksize sb - so_far))) D).
        assert (HD : Z.of_nat (length D) = st_size sb - p)
          by (unfold D; rewrite length_drop; lia).
        assert (Hlen : (1 <= length data)%nat /\
                       Z.of_nat (length data) <= st_blksize sb - so_far /\
                       Z.of_nat (length data) <= st_size sb - p).
        { unfold data. rewrite length_take. lia. }
        unfold size_add. rewrite !wrap_size_small by lia.
        match goal with
        | |- context [read_block w fuel sb ?b ?so ?pp ?ss] =>
            specialize (IH b so pp ss p0)
        end.
        simpl in IH.
        rewrite blit_length in IH by lia.
        specialize (IH ltac:(lia) ltac:(lia) Hp0 ltac:(lia) ltac:(lia)
                       Hbuf ltac:(lia)).
        destruct (read_block w fuel sb _ _ _ _) as [[buf' p'] s'|r s'].
        -- destruct IH as (Hp' & Hfd' & Hlen' & Htake & Hdev & evs & Htr & Hev).
           split; [exact Hp'|]. split; [exact Hfd'|]. split; [exact Hlen'|].
           split.
           { rewrite Htake.
             replace (Z.to_nat (so_far + Z.of_nat (length data)))
               with (Z.to_nat so_far + length data)%nat by lia.
             rewrite blit_take by lia. rewrite <- app_assoc. f_equal.
             assert (Hd : data = take (length data) D).
             { unfold data. rewrite take_length_self. reflexivity. }
             replace (drop (Z.to_nat (p + Z.of_nat (length data))) (w_file w))
               with (drop (length data) D)
               by (unfold D; rewrite drop_drop; f_equal; lia).
             rewrite Hd at 1. rewrite take_take_drop. f_equal. lia. }
           split; [exact Hdev|].
           eexists (_ :: evs). split.
           ++ rewrite Htr, <- app_assoc. reflexivity.
           ++ constructor; [exact I | exact Hev].
        -- destruct IH as (Hr & Hdev & evs & c' & Htr & Hev).
           split; [exact Hr|]. split; [exact Hdev|].
           eexists (_ :: evs), c'. split.
           ++ rewrite Htr, <- !app_assoc. reflexivity.
           ++ constructor; [exact I | exact Hev].
      * split; [reflexivity|]. split; [reflexivity|].
        exists [], (st_blksize sb - so_far). split; [reflexivity|constructor].
    + assert (p = st_size sb) by lia.
      replace (Z.min (p0 + st_blksize sb) (st_size sb)) with p by lia.
      replace (p - p0) with so_far by lia. rewrite Z.sub_diag. simpl.
      rewrite app_nil_r. repeat split; auto.
      exists []. rewrite app_nil_r. split; [reflexivity | constructor].
    + assert (so_far = st_blksize sb) by lia. subst so_far.
      replace (Z.min (p0 + st_blksize sb) (st_size sb)) with p by lia.
      replace (p - p0) with (st_blksize sb) by lia. rewrite Z.sub_diag. simpl.
      rewrite app_nil_r. repeat split; auto.
      exists []. rewrite app_nil_r. split; [reflexivity | constructor].
    + assert (so_far = st_blksize sb) by lia. subst so_far.
      replace (Z.min (p0 + st_blksize sb) (st_size sb)) with p by lia.
      replace (p - p0) with (st_blksize sb) by lia. rewrite Z.sub_diag. simpl.
      rewrite app_nil_r. repeat split; auto.
      exists []. rewrite app_nil_r. split; [reflexivity | constructor].
Qed.

(** ** Auxiliary facts for the loop invariant *)

Lemma block_count_spec sb a :
  stat_ok sb -> (a < block_count sb <-> a * st_blksize sb < st_size sb).
Proof.
  intros [Hsize Hbs]. unfold block_count.
  pose proof (Z.div_mod (st_size sb + st_blksize sb - 1) (st_blksize sb)
                ltac:(lia)) as Hdm.
  pose proof (Z.mod_pos_bound (st_size sb + st_blksize sb - 1) (st_blksize sb)
                ltac:(lia)) as Hmod.
  set (q := (st_size sb + st_blksize sb - 1) / st_blksize sb) in *.
  set (r := (st_size sb + st_blksize sb - 1) mod st_blksize sb) in *.
  split; intros H; nia.
Qed.

Lemma block_count_le sb : stat_ok sb -> 0 <= block_count sb <= st_size sb.
Proof.
  intros Hok. pose proof Hok as [Hsize Hbs]. split.
  - unfold block_count. apply Z.div_pos; lia.
  - destruct (Z.le_gt_cases (block_count sb) (st_size sb)) as [|Hgt]; [lia|].
    pose proof (proj1 (block_count_spec sb (st_size sb) Hok) Hgt). nia.
Qed.

Lemma window_succ x :
  0 <= x -> Z.rem (int_add (x mod WINDOW_SIZE) 1) WINDOW_SIZE
            = (x + 1) mod WINDOW_SIZE.
Proof.
  intros Hx. unfold WINDOW_SIZE.
  pose proof (Z.mod_pos_bound x 5 ltac:(lia)).
  rewrite int_add_small by (unfold INT_MAX; lia).
  rewrite Z.rem_mod_nonneg by lia.
  rewrite Z.add_mod_idemp_l by lia. reflexivity.
Qed.

Lemma window_distinct j k :
  0 < k - j < WINDOW_SIZE -> j mod WINDOW_SIZE <> k mod WINDOW_SIZE.
Proof.
  unfold WINDOW_SIZE. intros H Heq.
  pose proof (Z.div_mod j 5 ltac:(lia)).
  pose proof (Z.div_mod k 5 ltac:(lia)).
  lia.
Qed.

Lemma seqZ_snoc n : 0 <= n -> seqZ 0 (n + 1) = seqZ 0 n ++ [n].
Proof.
  intros Hn. rewrite seqZ_app by lia.
  rewrite (seqZ_cons (0 + n) 1) by lia.
  rewrite (seqZ_nil (Z.succ (0 + n))) by lia.
  reflexivity.
Qed.

Lemma phys_list_snoc w n :
  0 <= n -> phys_list w (n + 1) = phys_list w n ++ [phys w n].
Proof.
  intros Hn. unfold phys_list. rewrite seqZ_snoc by lia.
  rewrite fmap_app. reflexivity.
Qed.

Lemma phys_list_length w n : 0 <= n -> Z.of_nat (length (phys_list w n)) = n.
Proof.
  intros Hn. unfold phys_list. rewrite length_fmap, length_seqZ. lia.
Qed.

Lemma add_blocks_snoc junk bs : forall r b,
  add_blocks junk r (bs ++ [b])
  = add_blocks junk r bs ≫= fun r' => add_block_to_ranges junk r' b.
Proof.
  induction bs as [|x bs IH]; intros r b; simpl.
  - destruct (add_block_to_ranges junk r b); reflexivity.
  - destruct (add_block_to_ranges junk r x) as [r1|]; simpl; [apply IH|].
    reflexivity.
Qed.

Lemma resolved_app t1 t2 : resolved (t1 ++ t2) = resolved t1 ++ resolved t2.
Proof. apply omap_app. Qed.
Lemma seeks_app t1 t2 : seeks (t1 ++ t2) = seeks t1 ++ seeks t2.
Proof. apply omap_app. Qed.
Lemma opened_app t1 t2 : opened (t1 ++ t2) = opened t1 ++ opened t2.
Proof. apply omap_app. Qed.
Lemma closed_app t1 t2 : closed (t1 ++ t2) = closed t1 ++ closed t2.
Proof. apply omap_app. Qed.

Lemma map_text_app t1 t2 :
  map_text (t1 ++ t2) = (map_text t1 ++ map_text t2)%string.
Proof.
  induction t1 as [|e t1 IH]; simpl; [reflexivity|].
  destruct e; simpl; rewrite IH; try reflexivity.
  induction text as [|ch text IHt]; simpl; [reflexivity|].
  f_equal. exact IHt.
Qed.

Lemma clean_app evs1 evs2 : clean evs1 -> clean evs2 -> clean (evs1 ++ evs2).
Proof. apply Forall_app_2. Qed.

Lemma failing_app evs1 evs2 :
  clean evs1 -> failing evs2 -> failing (evs1 ++ evs2).
Proof.
  intros H1 (evs0 & e & -> & Hc & Hl & Hf).
  exists (evs1 ++ evs0), e. rewrite app_assoc.
  repeat split; auto. apply clean_app; auto.
Qed.

Lemma reads_clean evs :
  Forall read_ok evs ->
  clean evs /\ resolved evs = [] /\ seeks evs = [].
Proof.
  induction 1 as [|e evs He _ IH].
  - repeat split; constructor.
  - destruct IH as (Hc & Hr & Hs).
    destruct e as [| | | |c [n|]| | | |]; simpl in He; try contradiction.
    repeat split; auto. constructor; [|exact Hc].
    split; [exact I | intros []].
Qed.

Lemma write_calls_clean evs : forall remaining,
  write_calls remaining evs 0 ->
  clean evs /\ resolved evs = [] /\ seeks evs = [].
Proof.
  induction evs as [|e evs IH]; intros remaining H; simpl in H.
  - repeat split; constructor.
  - destruct e as [| | | | | |c [n|]| |]; try contradiction.
    + destruct H as (_ & _ & H). destruct (IH _ H) as (Hc & Hr & Hs).
      repeat split; auto. constructor; [|exact Hc].
      split; [exact I | intros []].
    + destruct H as (_ & _ & _ & ?). discriminate.
Qed.

Lemma write_calls_failing evs : forall remaining,
  write_calls remaining evs (-1) -> failing evs.
Proof.
  induction evs as [|e evs IH]; intros remaining H; simpl in H.
  - destruct H as [_ ?]. discriminate.
  - destruct e as [| | | | | |c [n|]| |]; try contradiction.
    + destruct H as (_ & _ & H).
      apply (failing_app [EvWrite c (Some n)]); [|eapply IH, H].
      constructor; [|constructor]. split; [exact I | intros []].
    + destruct H as (_ & _ & -> & _).
      exists [], (EvWrite c None). repeat split; constructor.
Qed.

Lemma shadow_app d ws1 ws2 x :
  shadow d (ws1 ++ ws2) x = shadow (shadow d ws1) ws2 x.
Proof.
  revert d. induction ws1 as [|[off data] ws1 IH]; intros d; simpl;
    [reflexivity | apply IH].
Qed.

Lemma shadow_ext ws : forall d d' x,
  (forall y, d y = d' y) -> shadow d ws x = shadow d' ws x.
Proof.
  induction ws as [|[off data] ws IH]; intros d d' x H; simpl; [apply H|].
  apply IH. intros y. apply dev_write_ext, H.
Qed.

(** ** The loop invariant is preserved *)

Lemma phys_block_ok w sb k :
  blocks_ok w sb -> 0 <= k < block_count sb ->
  is_Some (w_fibmap w (wrap_int k)) ->
  wrap_int k = k /\ block_ok (phys w k) /\
  w_fibmap w (wrap_int k) = Some (phys w k).
Proof.
  intros [Hmax Hall] Hk [b Hb].
  assert (Hw : wrap_int k = k).
  { apply wrap_int_small. unfold MAX_BLOCKS, INT_MAX in *. lia. }
  unfold phys. rewrite Hb. simpl. rewrite Hw in Hb.
  split; [exact Hw|]. split; [|reflexivity].
  apply (Hall k); [exact Hk | exact Hb].
Qed.

Lemma phys_list_ok w sb n :
  blocks_ok w sb -> 0 <= n <= block_count sb ->
  (forall k, 0 <= k < n -> is_Some (w_fibmap w (wrap_int k))) ->
  Forall block_ok (phys_list w n).
Proof.
  intros Hbl Hn Hall. unfold phys_list. apply Forall_fmap, Forall_seqZ.
  intros k Hk. simpl.
  destruct (phys_block_ok w sb k Hbl) as (_ & Hok & _);
    [lia | apply Hall; lia | exact Hok].
Qed.

Section Loops.
Context (w : world) (encrypted : Z) (sb : stat) (s0 : sys).
Hypothesis Hstat : stat_ok sb.
Hypothesis Hfile : truthy encrypted = true -> file_ok w sb.

Lemma flush_head_inv v s a h :
  state_inv w encrypted sb s0 v s a h -> h < a ->
  match flush_head w encrypted sb v s with
  | Next v' s' =>
      state_inv w encrypted sb s0 v' s' a (h + 1) /\ pos v' = pos v
  | Halt r s' =>
      (r = Returned (-1) /\
       exists evs, trace s' = trace s0 ++ evs /\ failing evs) \/
      (r = Fault /\ ~ blocks_ok w sb /\
     exists evs, trace s' = trace s0 ++ evs /\ clean evs)
  end.
Proof.
  intros HI Hlt. pose proof Hstat as [Hsize Hbs].
  destruct HI as [Hh Hwin Ha Hhead Htail Hhb Hpos Hfd Hbufs Hphys Hrl
                    (evs & Htr & Hclean & Hres & Hplain & Hseeks) Hdata].
  unfold flush_head. rewrite bind_unfold. unfold sys_fibmap.
  rewrite bind_unfold. unfold emit, mret, M_ret, ret.
  rewrite Hhb.
  destruct (w_fibmap w (wrap_int h)) as [block|] eqn:Efib.
  2: { left. split; [reflexivity|]. exists (evs ++ [EvFibmap (wrap_int h) None]).
       simpl. rewrite Htr, <- app_assoc. split; [reflexivity|].
       exists evs, (EvFibmap (wrap_int h) None). repeat split; auto. }
  assert (Hphys' : forall k, 0 <= k < h + 1 ->
                             is_Some (w_fibmap w (wrap_int k))).
  { intros k Hk. destruct (decide (k = h)) as [->|];
      [rewrite Efib; eauto | apply Hphys; lia]. }
  assert (Hblock : phys w h = block) by (unfold phys; rewrite Efib; reflexivity).
  destruct (add_block_to_ranges (w_junk_int w) (rl v) block) as [rl'|] eqn:Eadd.
  2: { right. split; [reflexivity|]. split.
       - intros Hbl.
         destruct (add_blocks_refines (w_junk_int w) (phys_list w (h + 1))
                     initial_ranges [] rep_initial) as (r' & E' & _).
         + apply (phys_list_ok w sb); auto. lia.
         + simpl. rewrite phys_list_length by lia.
           destruct Hbl as [Hmax _]. lia.
         + rewrite phys_list_snoc, add_blocks_snoc, Hrl in E' by lia.
           simpl in E'. rewrite Hblock, Eadd in E'. discriminate.
       - exists (evs ++ [EvFibmap (wrap_int h) (Some block)]).
         simpl. rewrite Htr, <- app_assoc. split; [reflexivity|].
         apply clean_app; [exact Hclean|]. constructor; [|constructor].
         split; [exact I | intros []]. }
  assert (Hrl' : add_blocks (w_junk_int w) initial_ranges (phys_list w (h + 1))
                 = Some rl').
  { rewrite phys_list_snoc, add_blocks_snoc, Hrl by lia. simpl.
    rewrite Hblock. exact Eadd. }
  assert (Hres' : resolved (evs ++ [EvFibmap (wrap_int h) (Some block)])
                  = (fun k => (wrap_int k, w_fibmap w (wrap_int k)))
                      <$> seqZ 0 (h + 1)).
  { rewrite resolved_app, Hres, seqZ_snoc, fmap_app by lia. simpl.
    rewrite Efib. reflexivity. }
  assert (Hclean' : clean (evs ++ [EvFibmap (wrap_int h) (Some block)])).
  { apply clean_app; [exact Hclean|]. constructor; [|constructor].
    split; [exact I | intros []]. }
  assert (Hhead' : Z.rem (int_add (head v) 1) WINDOW_SIZE
                   = (h + 1) mod WINDOW_SIZE)
    by (rewrite Hhead; apply window_succ; lia).
  destruct (truthy encrypted) eqn:Eenc.
  - destruct (Hbufs eq_refl) as [Hblen Hball].
    pose proof (Z.mod_pos_bound h WINDOW_SIZE ltac:(unfold WINDOW_SIZE; lia))
      as Hmod.
    unfold WINDOW_SIZE in Hmod.
    destruct (lookup_lt_is_Some_2 (buffers v) (Z.to_nat (h mod WINDOW_SIZE)))
      as [buf Hbuf]; [unfold WINDOW_SIZE; lia|].
    assert (Hload : load (buffers v) (head v) = Some buf).
    { unfold load. rewrite Hhead.
      destruct (Z.ltb_spec (h mod WINDOW_SIZE) 0);
        [unfold WINDOW_SIZE in *; lia | exact Hbuf]. }
    assert (Hbuflen : Z.of_nat (length buf) = st_blksize sb)
      by (eapply (proj1 (Forall_lookup _ _) Hball); eauto).
    rewrite bind_unfold, Hload, bind_unfold.
    rewrite wrap_size_small by lia.
    destruct (write_at_offset_spec w buf (st_blksize sb)
                (wrap_off64 (st_blksize sb * block))
                (log (EvFibmap (wrap_int h) (Some block)) s))
      as (rc & s2 & wevs & E & Htr2 & Hcalls & Hfd2 & _ & Hok);
      [lia | lia |].
    rewrite E. simpl in Htr2, Hfd2, Hok.
    destruct (write_calls_rc _ _ _ Hcalls) as [-> | ->].
    + destruct (write_calls_clean _ _ Hcalls) as (Hwc & Hwr & Hws).
      simpl. split; [|reflexivity].
      constructor; simpl; rewrite ?Eenc; auto; try lia.
      * apply wrap_int_succ.
      * exists (evs ++ EvFibmap (wrap_int h) (Some block)
                  :: EvLseek (wrap_off64 (st_blksize sb * block)) :: wevs).
        split; [rewrite Htr2, Htr, <- !app_assoc; reflexivity|].
        split.
        { apply clean_app; [exact Hclean|].
          constructor; [split; [exact I | intros []]|].
          constructor; [split; [exact I | intros []]|]. exact Hwc. }
        split.
        { rewrite resolved_app. simpl. rewrite Hwr.
          rewrite resolved_app in Hres'. exact Hres'. }
        split; [intros ?; discriminate|].
        intros _ Hbl. rewrite seeks_app. simpl. rewrite Hws.
        rewrite (Hseeks eq_refl Hbl), seqZ_snoc, fmap_app by lia.
        simpl. rewrite Hblock.
        destruct (phys_block_ok w sb h Hbl) as (_ & Hbok & _);
          [lia | rewrite Efib; eauto |].
        rewrite Hblock in Hbok. unfold block_ok, INT_MAX in Hbok.
        rewrite wrap_off64_small by nia. reflexivity.
      * intros _ Hbl. destruct (Hdata eq_refl Hbl)
          as (Hslots & datas & Hdlen & Hdall & Hdev).
        split; [intros k Hk; apply Hslots; lia|].
        destruct (phys_block_ok w sb h Hbl) as (_ & Hbok & _);
          [lia | rewrite Efib; eauto |].
        rewrite Hblock in Hbok. unfold block_ok, INT_MAX in Hbok.
        rewrite wrap_off64_small in Hok by nia.
        exists (datas ++ [buf]). split; [rewrite length_app; simpl; lia|].
        split.
        { intros k data Hk.
          apply lookup_app_Some in Hk as [Hk|[Hge Hk]].
          - apply Hdall, Hk.
          - apply list_lookup_singleton_Some in Hk as [Hk0 <-].
            split; [exact Hbuflen|].
            destruct (Hslots h ltac:(lia)) as (buf' & rest & Hb' & Hrest).
            rewrite Hbuf in Hb'. injection Hb' as <-.
            exists rest. replace (Z.of_nat k) with h by lia. exact Hrest. }
        intros x. rewrite (Hok eq_refl ltac:(nia)).
        rewrite seqZ_snoc, fmap_app by lia.
        rewrite zip_with_app
          by (rewrite length_fmap, length_seqZ; lia).
        rewrite shadow_app. simpl.
        rewrite firstn_all2 by lia. rewrite Hblock.
        apply dev_write_ext. exact Hdev.
    + left. simpl. split; [reflexivity|].
      exists (evs ++ EvFibmap (wrap_int h) (Some block)
                :: EvLseek (wrap_off64 (st_blksize sb * block)) :: wevs).
      split; [rewrite Htr2, Htr, <- !app_assoc; reflexivity|].
      apply failing_app; [exact Hclean|].
      apply (failing_app [_; _]); [|eapply write_calls_failing, Hcalls].
      constructor; [split; [exact I | intros []]|].
      constructor; [split; [exact I | intros []]|]. constructor.
  - rewrite bind_unfold. simpl. split; [|reflexivity].
    constructor; simpl; rewrite ?Eenc; auto; try lia;
      try (intros ?; discriminate).
    + apply wrap_int_succ.
    + exists (evs ++ [EvFibmap (wrap_int h) (Some block)]).
      split; [rewrite Htr, <- app_assoc; reflexivity|].
      split; [exact Hclean'|]. split; [exact Hres'|].
      split; [|intros ?; discriminate].
      intros _. destruct (Hplain eq_refl) as [Hs Hd].
      rewrite seeks_app, Hs. split; [reflexivity | exact Hd].
Qed.

Lemma read_next_block_inv v s a h :
  state_inv w encrypted sb s0 v s a h ->
  pos v < st_size sb -> a - h <= WINDOW_SIZE - 2 ->
  match read_next_block w encrypted sb v s with
  | Next v' s' => state_inv w encrypted sb s0 v' s' (a + 1) h
  | Halt r s' =>
      r = Returned (-1) /\
      exists evs, trace s' = trace s0 ++ evs /\ failing evs
  end.
Proof.
  intros HI Hp Hroom. pose proof Hstat as [Hsize Hbs].
  destruct HI as [Hh Hwin Ha Hhead Htail Hhb Hpos Hfd Hbufs Hphys Hrl
                    (evs & Htr & Hclean & Hres & Hplain & Hseeks) Hdata].
  assert (Htail' : Z.rem (int_add (tail v) 1) WINDOW_SIZE
                   = (a + 1) mod WINDOW_SIZE)
    by (rewrite Htail; apply window_succ; lia).
  assert (Hab : a * st_blksize sb < st_size sb).
  { destruct (truthy encrypted); lia. }
  assert (Ha' : a + 1 <= block_count sb).
  { pose proof (proj2 (block_count_spec sb a Hstat) Hab). lia. }
  unfold read_next_block. destruct (truthy encrypted) eqn:Eenc.
  - assert (Hpa : pos v = a * st_blksize sb) by lia.
    destruct (Hbufs eq_refl) as [Hblen Hball].
    pose proof (Z.mod_pos_bound a WINDOW_SIZE ltac:(unfold WINDOW_SIZE; lia))
      as Hmod.
    unfold WINDOW_SIZE in Hmod.
    destruct (lookup_lt_is_Some_2 (buffers v) (Z.to_nat (a mod WINDOW_SIZE)))
      as [buf Hbuf]; [unfold WINDOW_SIZE; lia|].
    assert (Hload : load (buffers v) (tail v) = Some buf).
    { unfold load. rewrite Htail.
      destruct (Z.ltb_spec (a mod WINDOW_SIZE) 0);
        [unfold WINDOW_SIZE in *; lia | exact Hbuf]. }
    assert (Hbuflen : Z.of_nat (length buf) = st_blksize sb)
      by (eapply (proj1 (Forall_lookup _ _) Hball); eauto).
    rewrite Hload, bind_unfold.
    assert (Hp0 : 0 <= pos v) by nia.
    pose proof (read_block_spec w sb Hstat (Hfile eq_refl)
                  (Z.to_nat (st_blksize sb)) buf 0 (pos v) s (pos v)
                  ltac:(lia) ltac:(lia) Hp0 ltac:(lia)
                  (Hfd eq_refl) Hbuflen ltac:(lia)) as Hrd.
    destruct (read_block w _ sb buf 0 (pos v) s) as [[buf' p'] s'|r s'].
    + destruct Hrd as (Hp' & Hfd' & Hlen' & Htake & Hdev & revs & Htr' & Hrev).
      destruct (reads_clean revs Hrev) as (Hrc & Hrr & Hrs).
      simpl.
      constructor; simpl; rewrite ?Eenc; auto; try lia.
      * intros _. split; [rewrite length_insert; exact Hblen|].
        apply Forall_insert; [exact Hball | exact Hlen'].
      * exists (evs ++ revs).
        split; [rewrite Htr', Htr, <- app_assoc; reflexivity|].
        split; [apply clean_app; auto|].
        split; [rewrite resolved_app, Hrr, app_nil_r; exact Hres|].
        split; [intros ?; discriminate|].
        intros _ Hbl. rewrite seeks_app, Hrs, app_nil_r. auto.
      * intros _ Hbl. destruct (Hdata eq_refl Hbl)
          as (Hslots & datas & Hdlen & Hdall & Hdev').
        split.
        { intros k Hk. destruct (decide (k = a)) as [->|Hne].
          - rewrite Htail. exists buf'.
            exists (drop (Z.to_nat (p' - pos v)) buf').
            split.
            + apply list_lookup_insert_eq.
              rewrite Hblen. unfold WINDOW_SIZE. lia.
            + rewrite <- (take_drop (Z.to_nat (p' - pos v)) buf') at 1.
              f_equal. rewrite Htake. simpl. unfold chunk.
              rewrite Hpa.
              set (D := drop (Z.to_nat (a * st_blksize sb)) (w_file w)).
              assert (HD : Z.of_nat (length D)
                           = st_size sb - a * st_blksize sb).
              { unfold D. rewrite length_drop.
                pose proof (Hfile eq_refl) as Hf. unfold file_ok in Hf.
                lia. }
              destruct (Z.le_gt_cases (st_blksize sb)
                          (st_size sb - a * st_blksize sb)).
              * f_equal. lia.
              * rewrite !take_ge by lia. reflexivity.
          - destruct (Hslots k ltac:(lia)) as (b0 & rest & Hb0 & Hrest).
            exists b0, rest. split; [|exact Hrest].
            rewrite list_lookup_insert_ne; [exact Hb0|].
            rewrite Htail.
            pose proof (window_distinct k a ltac:(unfold WINDOW_SIZE in *; lia)).
            pose proof (Z.mod_pos_bound k WINDOW_SIZE
                          ltac:(unfold WINDOW_SIZE; lia)).
            unfold WINDOW_SIZE in *. lia. }
        exists datas. split; [exact Hdlen|]. split; [exact Hdall|].
        rewrite Hdev. exact Hdev'.
    + destruct Hrd as (-> & _ & revs & c & Htr' & Hrev).
      destruct (reads_clean revs Hrev) as (Hrc & _ & _).
      split; [reflexivity|].
      exists (evs ++ revs ++ [EvRead c None]).
      split; [rewrite Htr', Htr, <- !app_assoc; reflexivity|].
      apply failing_app; [exact Hclean|].
      exists revs, (EvRead c None). repeat split; auto.
  - unfold mret, M_ret, ret.
    assert (Hwrap : size_add (pos v) (st_blksize sb)
                    = (a + 1) * st_blksize sb).
    { unfold size_add. rewrite wrap_size_small by nia. lia. }
    constructor; simpl; rewrite ?Eenc; auto; try lia;
      try (intros ?; discriminate).
    exists evs. repeat split; auto; try (intros ?; discriminate);
      apply Hplain; reflexivity.
Qed.

Lemma window_full a h :
  0 <= h <= a -> a - h <= WINDOW_SIZE - 1 ->
  ((a + 1) mod WINDOW_SIZE = h mod WINDOW_SIZE <-> a - h = WINDOW_SIZE - 1).
Proof.
  unfold WINDOW_SIZE. intros Hh Hwin.
  pose proof (Z.div_mod (a + 1) 5 ltac:(lia)).
  pose proof (Z.div_mod h 5 ltac:(lia)).
  pose proof (Z.mod_pos_bound (a + 1) 5 ltac:(lia)).
  pose proof (Z.mod_pos_bound h 5 ltac:(lia)).
  split; intros H3; lia.
Qed.

Lemma window_empty a h :
  0 <= h <= a -> a - h <= WINDOW_SIZE - 1 ->
  (h mod WINDOW_SIZE = a mod WINDOW_SIZE <-> h = a).
Proof.
  unfold WINDOW_SIZE. intros Hh Hwin.
  pose proof (Z.div_mod a 5 ltac:(lia)).
  pose proof (Z.div_mod h 5 ltac:(lia)).
  pose proof (Z.mod_pos_bound a 5 ltac:(lia)).
  pose proof (Z.mod_pos_bound h 5 ltac:(lia)).
  split; intros H3; [lia | subst; reflexivity].
Qed.

Lemma step_inv c v s a h :
  state_inv w encrypted sb s0 v s a h -> ctl_inv sb c v a h ->
  match step w encrypted sb c v s with
  | Next (c', v') s' =>
      exists a' h',
        state_inv w encrypted sb s0 v' s' a' h' /\
        ctl_inv sb c' v' a' h' /\
        (c <> AtEnd -> measure sb c' a' h' < measure sb c a h)
  | Halt r s' =>
      (r = Returned (-1) /\
       exists evs, trace s' = trace s0 ++ evs /\ failing evs) \/
      (r = Fault /\ ~ blocks_ok w sb /\
     exists evs, trace s' = trace s0 ++ evs /\ clean evs)
  end.
Proof.
  intros HI Hctl. pose proof Hstat as [Hsize Hbs].
  pose proof (si_h _ _ _ _ _ _ _ _ HI) as Hh.
  pose proof (si_win _ _ _ _ _ _ _ _ HI) as Hwin.
  pose proof (si_a _ _ _ _ _ _ _ _ HI) as Ha.
  pose proof (si_head _ _ _ _ _ _ _ _ HI) as Hhead.
  pose proof (si_tail _ _ _ _ _ _ _ _ HI) as Htail.
  destruct c; simpl step.
  - rewrite wrap_size_small by lia.
    destruct (Z.ltb_spec (pos v) (st_size sb)) as [Hlt|Hge].
    + rewrite Htail, window_succ, Hhead by lia.
      destruct (Z.eqb_spec ((a + 1) mod WINDOW_SIZE) (h mod WINDOW_SIZE))
        as [Heq|Hne].
      * apply (proj1 (window_full a h Hh Hwin)) in Heq.
        rewrite bind_unfold.
        pose proof (flush_head_inv v s a h HI
                      ltac:(unfold WINDOW_SIZE in *; lia)) as Hf.
        destruct (flush_head w encrypted sb v s) as [v' s'|r s'];
          [|exact Hf].
        destruct Hf as [HI' Hpos']. simpl.
        exists a, (h + 1). split; [exact HI'|].
        split; [simpl; unfold WINDOW_SIZE in *; lia|].
        intros _. simpl. lia.
      * simpl. exists a, h. split; [exact HI|].
        split.
        { simpl. split; [lia|].
          destruct (decide (a - h = WINDOW_SIZE - 1)) as [Hfull|];
            [|unfold WINDOW_SIZE in *; lia].
          apply (proj2 (window_full a h Hh Hwin)) in Hfull.
          contradiction. }
        intros _. simpl. lia.
    + simpl. exists a, h. split; [exact HI|]. split; [simpl; lia|].
      intros _. simpl. unfold WINDOW_SIZE in *. lia.
  - destruct Hctl as [Hlt Hroom]. rewrite bind_unfold.
    pose proof (read_next_block_inv v s a h HI Hlt Hroom) as Hnext.
    destruct (read_next_block w encrypted sb v s) as [v' s'|r s'];
      [|left; exact Hnext].
    simpl. exists (a + 1), h. split; [exact Hnext|].
    split; [exact I|]. intros _. simpl. lia.
  - simpl in Hctl. rewrite Hhead, Htail.
    destruct (Z.eqb_spec (h mod WINDOW_SIZE) (a mod WINDOW_SIZE))
      as [Heq|Hne].
    + apply (proj1 (window_empty a h Hh Hwin)) in Heq. simpl.
      exists a, h. split; [exact HI|]. split; [simpl; lia|].
      intros _. simpl. lia.
    + assert (h < a).
      { destruct (decide (h = a)) as [->|]; [contradiction|lia]. }
      rewrite bind_unfold.
      pose proof (flush_head_inv v s a h HI ltac:(lia)) as Hf.
      destruct (flush_head w encrypted sb v s) as [v' s'|r s'];
        [|exact Hf].
      destruct Hf as [HI' Hpos']. simpl.
      exists a, (h + 1). split; [exact HI'|].
      split; [simpl; lia|]. intros _. simpl. lia.
  - simpl. exists a, h. split; [exact HI|]. split; [exact Hctl|].
    intros Hc. contradiction.
Qed.

Lemma steps_inv n : forall c v s a h,
  state_inv w encrypted sb s0 v s a h -> ctl_inv sb c v a h ->
  match steps w encrypted sb n c v s with
  | Next (c', v') s' =>
      exists a' h',
        state_inv w encrypted sb s0 v' s' a' h' /\ ctl_inv sb c' v' a' h'
  | Halt r s' => True
  end.
Proof.
  induction n as [|n IH]; intros c v s a h HI Hctl; simpl.
  - exists a, h. split; assumption.
  - rewrite bind_unfold.
    pose proof (step_inv c v s a h HI Hctl) as Hs.
    destruct (step w encrypted sb c v s) as [[c' v'] s'|r s']; [|exact I].
    destruct Hs as (a' & h' & HI' & Hctl' & _).
    apply (IH c' v' s' a' h'); assumption.
Qed.

Lemma run_loops_inv fuel : forall c v s a h,
  state_inv w encrypted sb s0 v s a h -> ctl_inv sb c v a h ->
  measure sb c a h <= Z.of_nat fuel ->
  match run_loops w encrypted sb fuel c v s with
  | Next v' s' =>
      state_inv w encrypted sb s0 v' s' (block_count sb) (block_count sb)
  | Halt r s' =>
      (r = Returned (-1) /\
       exists evs, trace s' = trace s0 ++ evs /\ failing evs) \/
      (r = Fault /\ ~ blocks_ok w sb /\
     exists evs, trace s' = trace s0 ++ evs /\ clean evs)
  end.
Proof.
  pose proof Hstat as [Hsize Hbs].
  assert (Hend : forall v s a h,
             state_inv w encrypted sb s0 v s a h ->
             ctl_inv sb AtEnd v a h ->
             state_inv w encrypted sb s0 v s
               (block_count sb) (block_count sb)).
  { intros v s a h HI [Hge ->].
    pose proof (si_a _ _ _ _ _ _ _ _ HI) as Ha.
    pose proof (si_pos _ _ _ _ _ _ _ _ HI) as Hpos.
    assert (~ a < block_count sb).
    { rewrite block_count_spec by exact Hstat.
      destruct (truthy encrypted); lia. }
    replace (block_count sb) with a by lia. exact HI. }
  induction fuel as [|fuel IH]; intros c v s a h HI Hctl Hm.
  - pose proof (si_h _ _ _ _ _ _ _ _ HI) as Hh.
    pose proof (si_a _ _ _ _ _ _ _ _ HI) as Ha.
    destruct c; simpl in Hm; try lia.
    simpl. eapply Hend; eauto.
  - destruct c; try (simpl; eapply Hend; eauto; fail);
      cbn [run_loops]; rewrite bind_unfold;
      match goal with
      | |- context [step w encrypted sb ?c v s] =>
          pose proof (step_inv c v s a h HI Hctl) as Hs;
          destruct (step w encrypted sb c v s) as [[c' v'] s'|r s'];
          [|exact Hs];
          destruct Hs as (a' & h' & HI' & Hctl' & Hdec);
          specialize (Hdec ltac:(discriminate));
          apply (IH c' v' s' a' h' HI' Hctl'); lia
      end.
Qed.

Lemma initial_inv :
  fd_pos s0 = 0 ->
  state_inv w encrypted sb s0 (initial_vars w encrypted sb) s0 0 0.
Proof.
  intros Hfd. pose proof Hstat as [Hsize Hbs].
  pose proof (block_count_le sb Hstat).
  constructor; simpl; try lia; try reflexivity.
  - unfold WINDOW_SIZE. lia.
  - destruct (truthy encrypted); lia.
  - intros ->. split; [reflexivity|].
    rewrite wrap_size_small by lia.
    repeat constructor; rewrite length_replicate; lia.
  - exists []. rewrite app_nil_r. repeat split; auto; constructor.
  - intros _ _. split; [intros k Hk; lia|].
    exists []. repeat split; auto; discriminate.
Qed.
End Loops.

(** ** The whole call *)

Lemma print_ranges_spec ps : forall s,
  print_ranges true ps s
  = Next () {| trace := trace s ++ ((fun p => EvFprintf (range_line p)) <$> ps);
               device := device s; fd_pos := fd_pos s; wfd_pos := wfd_pos s;
               reads := reads s; writes := writes s |}.
Proof.
  induction ps as [|p ps IH]; intros s; simpl.
  - rewrite app_nil_r. destruct s; reflexivity.
  - rewrite bind_unfold. simpl. rewrite IH. simpl.
    rewrite <- app_assoc. reflexivity.
Qed.

Lemma clean_no_failure evs : clean evs -> Forall (fun e => ~ failure e) evs.
Proof.
  intros H. eapply Forall_impl; [exact H|]. intros e [_ Hf]. exact Hf.
Qed.

Lemma prologue_no_failure blk_dev sb encrypted :
  Forall (fun e => ~ failure e) (prologue_trace blk_dev sb encrypted).
Proof.
  unfold prologue_trace.
  destruct (truthy encrypted); repeat constructor; intros [].
Qed.

Lemma epilogue_no_failure encrypted used ps :
  Forall (fun e => ~ failure e) (epilogue_trace encrypted used ps).
Proof.
  unfold epilogue_trace. constructor; [intros []|].
  apply Forall_app_2.
  - apply Forall_fmap, Forall_forall. intros p _ [].
  - destruct (truthy encrypted); repeat constructor; intros [].
Qed.

Lemma final_ranges_spec w encrypted sb s0 v s :
  stat_ok sb ->
  state_inv w encrypted sb s0 v s (block_count sb) (block_count sb) ->
  blocks_ok w sb ->
  finalized (rl v) = Some (final_ranges w sb) /\
  range_used (rl v) = Z.of_nat (length (final_ranges w sb)).
Proof.
  intros Hstat HI Hbl.
  pose proof (si_rl _ _ _ _ _ _ _ _ HI) as Hrl.
  pose proof (si_phys _ _ _ _ _ _ _ _ HI) as Hphys.
  pose proof (block_count_le sb Hstat) as HN.
  unfold final_ranges.
  destruct (Z.eqb_spec (block_count sb) 0) as [H0|Hne].
  - rewrite H0 in Hrl. simpl in Hrl. injection Hrl as <-.
    split; reflexivity.
  - destruct (add_blocks_coalesce (w_junk_int w)
                (phys_list w (block_count sb))) as (r & E & Hf & Hu).
    + intros Hnil. apply (f_equal length) in Hnil.
      pose proof (phys_list_length w (block_count sb) ltac:(lia)).
      simpl in Hnil. lia.
    + apply (phys_list_ok w sb); auto. lia.
    + rewrite phys_list_length by lia. apply Hbl.
    + rewrite Hrl in E. injection E as ->. split; assumption.
Qed.

Lemma pass_cases w blk_dev encrypted sb :
  w_stat w = Some sb -> stat_ok sb ->
  (truthy encrypted = true -> file_ok w sb) ->
  pass_outcome w blk_dev encrypted sb
    (fst (produce_block_map w blk_dev encrypted))
    (snd (produce_block_map w blk_dev encrypted)).
Proof.
  intros Hst Hstat Hfile. pose proof Hstat as [Hsize Hbs].
  pose proof (block_count_le sb Hstat) as HN.
  unfold produce_block_map, produce_block_map_body.
  cbv beta iota delta [mbind M_bind bind mret M_ret ret emit sys_open
                         sys_stat sys_close fprintf fclose halt].
  rewrite Hst. cbv beta iota.
  destruct (Z.eqb_spec (st_blksize sb) 0) as [?|_]; [lia|].
  destruct (w_fopen w) eqn:Efopen.
  2: { simpl. apply PassNoStream; [exact Efopen | reflexivity]. }
  destruct (w_open_src w) eqn:Esrc; cbv beta iota delta [negb].
  2: { simpl. apply PassNoSource; auto. }
  assert (Hopen_or :
            (truthy encrypted = true /\ w_open_dev w = false) \/
            opens_ok w encrypted).
  { unfold opens_ok.
    destruct (truthy encrypted) eqn:Eenc;
      [|right; repeat split; auto; intros ?; discriminate].
    destruct (w_open_dev w) eqn:Edev; [right; repeat split; auto | left; auto]. }
  destruct Hopen_or as [[Eenc Edev]|Hopens].
  { rewrite Eenc, Edev. simpl. apply PassNoDevice; auto. }
  match goal with
  | |- context [match ?m ?s with Next _ _ => _ | Halt _ _ => _ end] =>
      assert (Hentry : m s = Next true (loop_entry w blk_dev sb encrypted))
  end.
  { unfold loop_entry, prologue_trace.
    destruct (truthy encrypted) eqn:Eenc; [|reflexivity].
    destruct Hopens as (_ & _ & Hdev). rewrite (Hdev Eenc). reflexivity. }
  rewrite Hentry. cbv beta iota.
  pose proof (run_loops_inv w encrypted sb (loop_entry w blk_dev sb encrypted)
                Hstat Hfile (loop_fuel sb) AtLoop
                (initial_vars w encrypted sb)
                (loop_entry w blk_dev sb encrypted) 0 0
                (initial_inv w encrypted sb (loop_entry w blk_dev sb encrypted)
                   Hstat Hfile eq_refl) I) as Hrun.
  specialize (Hrun ltac:(unfold loop_fuel; simpl; lia)).
  destruct (run_loops w encrypted sb (loop_fuel sb) AtLoop
              (initial_vars w encrypted sb)
              (loop_entry w blk_dev sb encrypted)) as [v s1|r s1].
  - destruct (finalized (rl v)) as [ps|] eqn:Efin.
    + rewrite print_ranges_spec.
      destruct (truthy encrypted) eqn:Eenc; simpl;
        apply (PassDone _ _ _ _ _ v s1 ps); auto; simpl;
        unfold epilogue_trace; rewrite Eenc; simpl;
        rewrite <- ?app_assoc; reflexivity.
    + simpl. apply PassFault; [exact Hopens| |].
      * intros Hbl.
        destruct (final_ranges_spec _ _ _ _ _ _ Hstat Hrun Hbl) as [Hf _].
        rewrite Hf in Efin. discriminate.
      * destruct (si_trace _ _ _ _ _ _ _ _ Hrun) as (evs & Htr & Hclean & _).
        simpl. rewrite Htr. simpl trace.
        apply Forall_app_2; [apply Forall_app_2|];
          [apply prologue_no_failure | apply clean_no_failure, Hclean|].
        constructor; [intros [] | constructor].
  - simpl. destruct Hrun as [[-> (evs & Htr & Hfail)]
                            | (-> & Hnb & evs & Htr & Hclean)].
    + apply (PassAborted _ _ _ _ _ evs); auto.
    + apply PassFault; auto. rewrite Htr. simpl trace.
      apply Forall_app_2;
        [apply prologue_no_failure | apply clean_no_failure, Hclean].
Qed.

Lemma omap_fmap_none {A B C} (f : B -> option C) (g : A -> B) l :
  (forall x, f (g x) = None) -> omap f (g <$> l) = [].
Proof.
  intros H. induction l as [|x l IH]; simpl; [reflexivity|].
  rewrite H. exact IH.
Qed.

Lemma clean_quiet evs :
  clean evs -> map_text evs = EmptyString /\ opened evs = [] /\ closed evs = [].
Proof.
  induction 1 as [|e evs [He _] _ IH]; [repeat split|].
  destruct IH as (Ht & Ho & Hc).
  destruct e; simpl in He; try contradiction; repeat split; assumption.
Qed.

Lemma failing_quiet evs :
  failing evs ->
  map_text evs = EmptyString /\ opened evs = [] /\ closed evs = [].
Proof.
  intros (evs0 & e & -> & Hc & He & _).
  destruct (clean_quiet evs0 Hc) as (Ht & Ho & Hcl).
  rewrite map_text_app, opened_app, closed_app, Ht, Ho, Hcl.
  destruct e; simpl in He; try contradiction; repeat split; reflexivity.
Qed.

Lemma prologue_text blk_dev sb encrypted :
  map_text (prologue_trace blk_dev sb encrypted) = header blk_dev sb.
Proof.
  unfold prologue_trace. destruct (truthy encrypted); simpl;
    induction (header blk_dev sb) as [|ch t IH]; simpl; congruence.
Qed.

Lemma prologue_resolved blk_dev sb encrypted :
  resolved (prologue_trace blk_dev sb encrypted) = [] /\
  seeks (prologue_trace blk_dev sb encrypted) = [].
Proof. unfold prologue_trace. destruct (truthy encrypted); split; reflexivity. Qed.

Lemma string_app_nil_r (t : string) : (t ++ EmptyString)%string = t.
Proof. induction t as [|ch t IH]; simpl; congruence. Qed.

Lemma string_app_assoc (t1 t2 t3 : string) :
  (t1 ++ (t2 ++ t3))%string = ((t1 ++ t2) ++ t3)%string.
Proof. induction t1 as [|ch t1 IH]; simpl; congruence. Qed.

Lemma map_text_lines ps :
  map_text ((fun p => EvFprintf (range_line p)) <$> ps)
  = foldr (fun p acc => range_line p ++ acc)%string EmptyString ps.
Proof.
  induction ps as [|p ps IH]; simpl; [reflexivity|].
  rewrite <- IH. reflexivity.
Qed.

Lemma epilogue_text encrypted used ps :
  map_text (epilogue_trace encrypted used ps)
  = (count_line used
       ++ foldr (fun p acc => range_line p ++ acc) EmptyString ps)%string.
Proof.
  change (epilogue_trace encrypted used ps)
    with ([EvFprintf (count_line used)]
            ++ ((fun p => EvFprintf (range_line p)) <$> ps)
            ++ [EvClose MapFile; EvClose SourceFd]
            ++ (if truthy encrypted then [EvClose DeviceFd] else [])).
  rewrite !map_text_app, map_text_lines.
  replace (map_text (if truthy encrypted then [EvClose DeviceFd] else []))
    with EmptyString by (destruct (truthy encrypted); reflexivity).
  simpl. rewrite !string_app_nil_r. reflexivity.
Qed.

Lemma epilogue_resolved encrypted used ps :
  resolved (epilogue_trace encrypted used ps) = [] /\
  seeks (epilogue_trace encrypted used ps) = [].
Proof.
  unfold epilogue_trace. split.
  - change (resolved (?e :: ?t)) with (resolved t).
    rewrite resolved_app.
    unfold resolved at 1. rewrite omap_fmap_none by reflexivity.
    destruct (truthy encrypted); reflexivity.
  - change (seeks (?e :: ?t)) with (seeks t).
    rewrite seeks_app.
    unfold seeks at 1. rewrite omap_fmap_none by reflexivity.
    destruct (truthy encrypted); reflexivity.
Qed.

(** What a call that returns [0] has done. *)
Lemma pass_success w blk_dev encrypted sb s :
  w_stat w = Some sb -> stat_ok sb ->
  (truthy encrypted = true -> file_ok w sb) ->
  produce_block_map w blk_dev encrypted = (Returned 0, s) ->
  opens_ok w encrypted /\
  exists v s1 ps,
    state_inv w encrypted sb (loop_entry w blk_dev sb encrypted) v s1
      (block_count sb) (block_count sb) /\
    finalized (rl v) = Some ps /\
    trace s = trace s1 ++ epilogue_trace encrypted (range_used (rl v)) ps /\
    (forall x, device s x = device s1 x).
Proof.
  intros Hst Hstat Hfile Hrun.
  pose proof (pass_cases w blk_dev encrypted sb Hst Hstat Hfile) as Hc.
  rewrite Hrun in Hc. simpl in Hc.
  inversion Hc as [| | | | |? v s1 ps Hopens HI Hfin Htr Hdev]; subst.
  split; [exact Hopens|]. exists v, s1, ps. auto.
Qed.

(** The text of the map after a call that returns [0]. *)
Lemma success_text w blk_dev encrypted sb s :
  w_stat w = Some sb -> stat_ok sb ->
  (truthy encrypted = true -> file_ok w sb) ->
  produce_block_map w blk_dev encrypted = (Returned 0, s) ->
  exists r ps,
    add_blocks (w_junk_int w) initial_ranges (phys_list w (block_count sb))
    = Some r /\
    finalized r = Some ps /\
    map_text (trace s)
    = (header blk_dev sb ++ count_line (range_used r)
         ++ foldr (fun p acc => range_line p ++ acc) EmptyString ps)%string.
Proof.
  intros Hst Hstat Hfile Hrun.
  destruct (pass_success _ _ _ _ _ Hst Hstat Hfile Hrun)
    as (_ & v & s1 & ps & HI & Hfin & Htr & _).
  exists (rl v), ps.
  split; [apply (si_rl _ _ _ _ _ _ _ _ HI)|]. split; [exact Hfin|].
  destruct (si_trace _ _ _ _ _ _ _ _ HI) as (evs & Htr1 & Hclean & _).
  rewrite Htr, Htr1. simpl trace.
  rewrite !map_text_app, prologue_text, epilogue_text.
  destruct (clean_quiet evs Hclean) as (-> & _ & _).
  rewrite string_app_nil_r. reflexivity.
Qed.

Lemma success_resolved w blk_dev encrypted sb s :
  w_stat w = Some sb -> stat_ok sb ->
  (truthy encrypted = true -> file_ok w sb) ->
  blocks_ok w sb ->
  produce_block_map w blk_dev encrypted = (Returned 0, s) ->
  (forall k, 0 <= k < block_count sb -> w_fibmap w k = Some (phys w k)) /\
  resolved (trace s)
  = (fun k => (k, Some (phys w k))) <$> seqZ 0 (block_count sb).
Proof.
  intros Hst Hstat Hfile Hbl Hrun.
  destruct (pass_success _ _ _ _ _ Hst Hstat Hfile Hrun)
    as (_ & v & s1 & ps & HI & Hfin & Htr & _).
  pose proof (si_phys _ _ _ _ _ _ _ _ HI) as Hphys.
  assert (Hall : forall k, 0 <= k < block_count sb ->
                           wrap_int k = k /\
                           w_fibmap w (wrap_int k) = Some (phys w k)).
  { intros k Hk.
    destruct (phys_block_ok w sb k Hbl Hk (Hphys k Hk)) as (Hw & _ & Hf).
    auto. }
  split.
  - intros k Hk. destruct (Hall k Hk) as [Hw Hf]. rewrite Hw in Hf. exact Hf.
  - destruct (si_trace _ _ _ _ _ _ _ _ HI) as (evs & Htr1 & _ & Hres & _).
    rewrite Htr, Htr1. simpl trace. rewrite !resolved_app, Hres.
    rewrite (proj1 (prologue_resolved _ _ _)).
    rewrite (proj1 (epilogue_resolved _ _ _)), app_nil_r. simpl.
    apply list_fmap_ext. intros i k Hk.
    apply lookup_seqZ in Hk as [-> Hi].
    destruct (Hall (0 + Z.of_nat i) ltac:(lia)) as [-> ->]. reflexivity.
Qed.

Lemma success_block_map w blk_dev encrypted sb s :
  w_stat w = Some sb -> stat_ok sb ->
  (truthy encrypted = true -> file_ok w sb) ->
  blocks_ok w sb ->
  produce_block_map w blk_dev encrypted = (Returned 0, s) ->
  map_text (trace s) = block_map blk_dev sb (final_ranges w sb).
Proof.
  intros Hst Hstat Hfile Hbl Hrun.
  destruct (pass_success _ _ _ _ _ Hst Hstat Hfile Hrun)
    as (_ & v & s1 & ps & HI & Hfin & _).
  destruct (final_ranges_spec _ _ _ _ _ _ Hstat HI Hbl) as [Hf Hu].
  destruct (success_text _ _ _ _ _ Hst Hstat Hfile Hrun)
    as (r & ps' & Hr & Hfin' & Htext).
  rewrite (si_rl _ _ _ _ _ _ _ _ HI) in Hr. injection Hr as <-.
  rewrite Hf in Hfin'. injection Hfin' as <-.
  rewrite Htext, Hu. reflexivity.
Qed.

(** C1: a call that returns [0] on a file of [N >= 1] blocks has queried
    the physical block of the logical blocks [0 .. N-1], each once and in
    this order, and the ranges it printed expand to exactly these
    physical blocks in the same order. *)
Theorem pass_resolves_each_block_in_order w blk_dev encrypted sb s :
  w_stat w = Some sb -> stat_ok sb ->
  (truthy encrypted = true -> file_ok w sb) ->
  blocks_ok w sb ->
  1 <= block_count sb ->
  produce_block_map w blk_dev encrypted = (Returned 0, s) ->
  (forall k, 0 <= k < block_count sb -> w_fibmap w k = Some (phys w k)) /\
  resolved (trace s)
  = (fun k => (k, Some (phys w k))) <$> seqZ 0 (block_count sb) /\
  exists ps,
    map_text (trace s) = block_map blk_dev sb ps /\
    expand ps = phys w <$> seqZ 0 (block_count sb).
Proof.
  intros Hst Hstat Hfile Hbl HN Hrun.
  destruct (success_resolved _ _ _ _ _ Hst Hstat Hfile Hbl Hrun) as [Hf Hres].
  split; [exact Hf|]. split; [exact Hres|].
  exists (final_ranges w sb).
  split; [eapply success_block_map; eauto|].
  unfold final_ranges. destruct (Z.eqb_spec (block_count sb) 0); [lia|].
  apply coalesce_expand.
Qed.

Lemma example_blocks_ok st file sb :
  block_count sb <= 13 ->
  blocks_ok (example_world st example_resolver file) sb.
Proof.
  intros HN. split; [unfold MAX_BLOCKS; lia|].
  intros k b Hk. simpl. unfold example_resolver, block_ok, INT_MAX.
  repeat ztest; intros Hb; try discriminate; injection Hb as <-; lia.
Qed.

Lemma pair_fst_eq {A B} (p : A * B) (a : A) : fst p = a -> p = (a, snd p).
Proof. intros <-. destruct p; reflexivity. Qed.

Lemma pass_resolves_each_block_in_order_witness :
  (forall k, 0 <= k < block_count small_stat ->
             w_fibmap small_world k = Some (phys small_world k)) /\
  resolved (trace (snd (produce_block_map small_world example_dev 1)))
  = (fun k => (k, Some (phys small_world k)))
      <$> seqZ 0 (block_count small_stat) /\
  exists ps,
    map_text (trace (snd (produce_block_map small_world example_dev 1)))
    = block_map example_dev small_stat ps /\
    expand ps = phys small_world <$> seqZ 0 (block_count small_stat).
Proof.
  apply (pass_resolves_each_block_in_order small_world example_dev 1
           small_stat (snd (produce_block_map small_world example_dev 1))).
  - reflexivity.
  - unfold stat_ok. simpl. lia.
  - intros _. reflexivity.
  - apply example_blocks_ok. vm_compute. discriminate.
  - vm_compute. discriminate.
  - apply pair_fst_eq. vm_compute. reflexivity.
Defined.

(** ** Reading the shadow copy back *)

Lemma shadow_outside ws : forall d x,
  Forall (fun p => x < fst p \/ fst p + Z.of_nat (length (snd p)) <= x) ws ->
  shadow d ws x = d x.
Proof.
  induction ws as [|[off data] ws IH]; intros d x H; simpl; [reflexivity|].
  pose proof (Forall_inv H) as Hhd. simpl in Hhd.
  rewrite IH by (eapply Forall_inv_tail, H).
  apply dev_write_outside, Hhd.
Qed.

Lemma shadow_lookup ws : forall d k off data x,
  ws !! k = Some (off, data) ->
  off <= x < off + Z.of_nat (length data) ->
  Forall (fun p => x < fst p \/ fst p + Z.of_nat (length (snd p)) <= x)
         (drop (S k) ws) ->
  data !! Z.to_nat (x - off) = Some (shadow d ws x).
Proof.
  induction ws as [|[off0 data0] ws IH]; intros d k off data x Hk Hx Hlater.
  - discriminate.
  - destruct k as [|k]; simpl in Hk.
    + injection Hk as -> ->. simpl in Hlater. simpl.
      rewrite shadow_outside by exact Hlater.
      apply dev_write_lookup, Hx.
    + simpl. eapply IH; eauto.
Qed.

Lemma concat_chunks (file : list Byte.byte) (n : nat) :
  (0 < n)%nat ->
  forall datas base,
    (forall k data, datas !! k = Some data ->
       length data = n /\
       exists rest, data = take n (drop ((base + k) * n) file) ++ rest) ->
    (length file <= (base + length datas) * n)%nat ->
    take (length file - base * n) (concat datas) = drop (base * n) file.
Proof.
  intros Hn. induction datas as [|d0 datas IH]; intros base Hall Hlen.
  - simpl in *. rewrite drop_ge by lia. apply take_nil.
  - destruct (Hall 0%nat d0 eq_refl) as [Hd0 [rest Hrest]].
    rewrite Nat.add_0_r in Hrest.
    set (F := drop (base * n) file) in *.
    assert (HF : length F = (length file - base * n)%nat)
      by (unfold F; apply length_drop).
    simpl concat. rewrite <- HF.
    destruct (decide (n <= length F)%nat) as [Hge|Hlt].
    + assert (rest = []).
      { apply (f_equal length) in Hrest.
        rewrite length_app, length_take in Hrest.
        destruct rest; [reflexivity | simpl in Hrest; lia]. }
      subst rest. rewrite app_nil_r in Hrest.
      replace (length F) with (length d0 + (length F - n))%nat by lia.
      rewrite take_app_add. rewrite HF.
      replace (length file - base * n - n)%nat
        with (length file - (S base) * n)%nat by lia.
      rewrite (IH (S base)).
      * replace (drop (S base * n) file) with (drop n F)
          by (unfold F; rewrite drop_drop; f_equal; lia).
        rewrite Hrest. apply take_drop.
      * intros k data Hk. specialize (Hall (S k) data Hk).
        replace (S base + k)%nat with (base + S k)%nat by lia. exact Hall.
      * simpl in Hlen. lia.
    + rewrite take_ge in Hrest by lia. rewrite Hrest, <- app_assoc.
      apply take_app_length.
Qed.

Lemma chunk_nat file bs (k : nat) :
  0 <= bs ->
  chunk file bs (Z.of_nat k)
  = take (Z.to_nat bs) (drop (k * Z.to_nat bs) file).
Proof.
  intros Hbs. unfold chunk. do 2 f_equal. nia.
Qed.

Lemma dev_read_lookup d off n (data : list Byte.byte) :
  Z.of_nat (length data) = n ->
  (forall x, off <= x < off + n ->
             data !! Z.to_nat (x - off) = Some (d x)) ->
  dev_read d off n = data.
Proof.
  intros Hlen H. apply list_eq. intros i. unfold dev_read.
  rewrite list_lookup_fmap.
  destruct (decide (Z.of_nat i < n)) as [Hi|Hi].
  - rewrite lookup_seqZ_lt by lia. simpl.
    rewrite <- (H (off + (0 + Z.of_nat i))) by lia. f_equal. lia.
  - rewrite lookup_seqZ_ge by lia. simpl. symmetry.
    apply lookup_ge_None. lia.
Qed.

Lemma read_back_blocks (d : Z -> Byte.byte) (f : Z -> Z) bs n datas :
  0 < bs -> 0 <= n ->
  Z.of_nat (length datas) = n ->
  Forall (fun data => Z.of_nat (length data) = bs) datas ->
  (forall j k, 0 <= j < k -> k < n -> f j <> f k) ->
  (fun b => dev_read (shadow d (zip ((fun k => bs * f k) <$> seqZ 0 n) datas))
              (b * bs) bs) <$> (f <$> seqZ 0 n)
  = datas.
Proof.
  intros Hbs Hn Hlen Hall Hinj.
  set (ws := zip ((fun k => bs * f k) <$> seqZ 0 n) datas).
  assert (Hws : forall i p, ws !! i = Some p ->
                  exists data, datas !! i = Some data /\
                               p = (bs * f (Z.of_nat i), data) /\
                               Z.of_nat (length data) = bs /\ Z.of_nat i < n).
  { intros i p Hp. unfold ws in Hp.
    apply lookup_zip_with_Some in Hp as (o & data & -> & Ho & Hd).
    rewrite list_lookup_fmap in Ho.
    destruct (seqZ 0 n !! i) as [k|] eqn:Ek; [|discriminate].
    apply lookup_seqZ in Ek as [-> Hi]. simpl in Ho. injection Ho as <-.
    exists data. repeat split; auto.
    eapply (proj1 (Forall_lookup _ _) Hall); eauto. }
  apply list_eq. intros i. rewrite !list_lookup_fmap.
  destruct (datas !! i) as [data|] eqn:Ed.
  - assert (Hi : Z.of_nat i < n).
    { apply lookup_lt_Some in Ed. lia. }
    rewrite lookup_seqZ_lt by lia. simpl. f_equal.
    assert (Hwi : ws !! i = Some (bs * f (Z.of_nat i), data)).
    { unfold ws. apply lookup_zip_with_Some.
      exists (bs * f (Z.of_nat i)), data. repeat split; auto.
      rewrite list_lookup_fmap, lookup_seqZ_lt by lia. reflexivity. }
    assert (Hdl : Z.of_nat (length data) = bs)
      by (eapply (proj1 (Forall_lookup _ _) Hall); eauto).
    apply dev_read_lookup; [exact Hdl|].
    intros x Hx.
    replace (f (0 + Z.of_nat i) * bs) with (bs * f (Z.of_nat i)) in *
      by (rewrite Z.add_0_l; apply Z.mul_comm).
    eapply shadow_lookup; [exact Hwi | lia |].
    apply Forall_lookup. intros j p Hp.
    rewrite lookup_drop in Hp.
    destruct (Hws _ _ Hp) as (data' & _ & -> & Hl' & Hj). simpl.
    pose proof (Hinj (Z.of_nat i) (Z.of_nat (S i + j)) ltac:(lia) ltac:(lia))
      as Hne.
    change (S (i + j)) with (S i + j)%nat. rewrite Hl'.
    set (A := f (Z.of_nat i)) in *. set (B := f (Z.of_nat (S i + j))) in *.
    clearbody A B.
    destruct (Z.lt_ge_cases A B); [left | right]; nia.
  - apply lookup_ge_None in Ed.
    rewrite lookup_seqZ_ge by lia. reflexivity.
Qed.

(** C2 (amended): with shadow writing on and a resolver that maps distinct
    logical blocks to distinct physical blocks, a call that returns [0]
    has sought to byte offset [block size * physical block] for every
    block in turn, and reading the device back through the printed
    ranges, cut at the file size, gives the bytes of the file. *)
Theorem shadow_write_round_trip w blk_dev encrypted sb s :
  w_stat w = Some sb -> stat_ok sb ->
  truthy encrypted = true -> file_ok w sb ->
  blocks_ok w sb ->
  (forall j k, 0 <= j < k -> k < block_count sb -> phys w j <> phys w k) ->
  produce_block_map w blk_dev encrypted = (Returned 0, s) ->
  exists ps,
    map_text (trace s) = block_map blk_dev sb ps /\
    read_back (device s) (st_blksize sb) ps (st_size sb) = w_file w /\
    seeks (trace s)
    = (fun k => st_blksize sb * phys w k) <$> seqZ 0 (block_count sb).
Proof.
  intros Hst Hstat Henc Hfile Hbl Hinj Hrun.
  pose proof Hstat as [Hsize Hbs].
  pose proof (block_count_le sb Hstat) as HN.
  destruct (pass_success _ _ _ _ _ Hst Hstat (fun _ => Hfile) Hrun)
    as (_ & v & s1 & ps & HI & Hfin & Htr & Hdev).
  exists (final_ranges w sb).
  split; [eapply success_block_map; eauto|].
  destruct (si_trace _ _ _ _ _ _ _ _ HI) as (evs & Htr1 & _ & _ & _ & Hseeks).
  destruct (si_data _ _ _ _ _ _ _ _ HI Henc Hbl)
    as (_ & datas & Hdlen & Hdall & Hdev1).
  split.
  - unfold read_back, final_ranges. unfold file_ok in Hfile.
    destruct (Z.eqb_spec (block_count sb) 0) as [H0|Hne].
    + assert (st_size sb = 0).
      { pose proof (block_count_spec sb 0 Hstat) as Hs. lia. }
      destruct (w_file w); [|simpl in Hfile; lia].
      apply take_nil.
    + rewrite coalesce_expand. unfold phys_list.
      rewrite (list_fmap_ext _
                 (fun b => dev_read
                             (shadow (w_device w)
                                (zip ((fun k => st_blksize sb * phys w k)
                                        <$> seqZ 0 (block_count sb)) datas))
                             (b * st_blksize sb) (st_blksize sb))).
      2: { intros i b _. apply dev_read_ext. intros x.
           rewrite Hdev. apply Hdev1. }
      rewrite read_back_blocks; auto; try lia.
      2: { apply Forall_lookup. intros k data Hk. apply (Hdall k data Hk). }
      pose proof (concat_chunks (w_file w) (Z.to_nat (st_blksize sb))
                    ltac:(lia) datas 0%nat) as Hcc.
      simpl in Hcc. rewrite Nat.sub_0_r in Hcc.
      replace (Z.to_nat (st_size sb)) with (length (w_file w)) by lia.
      apply Hcc.
      * intros k data Hk. destruct (Hdall k data Hk) as [Hl [rest Hrest]].
        split; [lia|]. exists rest.
        rewrite Hrest, chunk_nat by lia. reflexivity.
      * assert (~ block_count sb * st_blksize sb < st_size sb).
        { rewrite <- block_count_spec by exact Hstat. lia. }
        nia.
  - rewrite Htr, Htr1. simpl trace.
    rewrite !seeks_app, (Hseeks Henc Hbl).
    rewrite (proj2 (prologue_resolved _ _ _)).
    rewrite (proj2 (epilogue_resolved _ _ _)). apply app_nil_r.
Qed.

Lemma shadow_write_round_trip_witness :
  exists ps,
    map_text (trace (snd (produce_block_map small_world example_dev 1)))
    = block_map example_dev small_stat ps /\
    read_back (device (snd (produce_block_map small_world example_dev 1)))
      (st_blksize small_stat) ps (st_size small_stat)
    = w_file small_world /\
    seeks (trace (snd (produce_block_map small_world example_dev 1)))
    = (fun k => st_blksize small_stat * phys small_world k)
        <$> seqZ 0 (block_count small_stat).
Proof.
  apply (shadow_write_round_trip small_world example_dev 1 small_stat
           (snd (produce_block_map small_world example_dev 1))).
  - reflexivity.
  - unfold stat_ok. simpl. lia.
  - reflexivity.
  - reflexivity.
  - apply example_blocks_ok. vm_compute. discriminate.
  - intros j k Hj Hk.
    change (block_count small_stat) with 3 in Hk.
    assert (Hcases : (j = 0 /\ k = 1) \/ (j = 0 /\ k = 2) \/ (j = 1 /\ k = 2))
      by lia.
    destruct Hcases as [[-> ->]|[[-> ->]|[-> ->]]]; vm_compute; discriminate.
  - apply pair_fst_eq. vm_compute. reflexivity.
Defined.

(** C2 as stated fails: when FIBMAP places two logical blocks on the same
    physical block, the call returns [0] but the device holds only the
    bytes of the block flushed last. *)
Lemma shared_physical_block_breaks_round_trip :
  fst (produce_block_map shared_world example_dev 1) = Returned 0 /\
  map_text (trace (snd (produce_block_map shared_world example_dev 1)))
  = block_map example_dev shared_stat [(7, 8); (7, 8)] /\
  read_back (device (snd (produce_block_map shared_world example_dev 1)))
    (st_blksize shared_stat) [(7, 8); (7, 8)] (st_size shared_stat)
  = [Byte.x03; Byte.x04; Byte.x03; Byte.x04] /\
  read_back (device (snd (produce_block_map shared_world example_dev 1)))
    (st_blksize shared_stat) [(7, 8); (7, 8)] (st_size shared_stat)
  <> w_file shared_world.
Proof.
  split; [vm_compute; reflexivity|].
  split; [vm_compute; reflexivity|].
  split; [vm_compute; reflexivity|].
  vm_compute. discriminate.
Qed.

(** ** The example of the header comment *)

Lemma example_phys_list w :
  (forall k, 0 <= k < 13 -> w_fibmap w k = example_resolver k) ->
  phys_list w 13
  = [1000; 1001; 1002; 1003; 1004; 1005; 1006; 1007; 2100; 2101; 30; 31; 32].
Proof.
  intros H. unfold phys_list.
  rewrite (list_fmap_ext _ (fun k => default 0 (example_resolver k))).
  - vm_compute. reflexivity.
  - intros i k Hk. apply lookup_seqZ in Hk as [-> Hi].
    unfold phys. rewrite wrap_int_small by (unfold INT_MAX; lia).
    rewrite H by lia. reflexivity.
Qed.

(** ** A file without blocks *)

Lemma run_loops_empty w encrypted sb fuel s :
  st_size sb = 0 ->
  run_loops w encrypted sb (S (S fuel)) AtLoop (initial_vars w encrypted sb) s
  = Next (initial_vars w encrypted sb) s.
Proof.
  intros H0. cbn [run_loops]. rewrite bind_unfold.
  cbn [step initial_vars pos]. rewrite H0.
  change (0 <? wrap_size 0) with false. cbv iota.
  unfold mret, M_ret, ret. cbn [fst snd]. rewrite bind_unfold.
  cbn [step head tail]. rewrite Z.eqb_refl.
  unfold mret, M_ret, ret. destruct fuel; reflexivity.
Qed.

(** C5, what the code does: on a file of size zero the call returns [0]
    without resolving any block, and prints the count line "1" followed
    by the sentinel range line "-1 -1". *)
Theorem zero_length_file_prints_sentinel w blk_dev encrypted sb :
  w_stat w = Some sb -> stat_ok sb -> st_size sb = 0 ->
  opens_ok w encrypted ->
  exists s,
    produce_block_map w blk_dev encrypted = (Returned 0, s) /\
    resolved (trace s) = [] /\
    map_text (trace s)
    = (header blk_dev sb ++ "1" ++ newline ++ "-1 -1" ++ newline)%string.
Proof.
  intros Hst [_ Hbs] H0 (Hfopen & Hsrc & Hdev).
  unfold produce_block_map, produce_block_map_body.
  cbv beta iota delta [mbind M_bind bind mret M_ret ret emit sys_open
                         sys_stat sys_close fprintf fclose halt].
  rewrite Hst, Hfopen, Hsrc. cbv beta iota.
  destruct (Z.eqb_spec (st_blksize sb) 0) as [?|_]; [lia|].
  cbv beta iota delta [negb].
  assert (Hfuel : loop_fuel sb = 8%nat) by (unfold loop_fuel; rewrite H0; reflexivity).
  rewrite Hfuel.
  destruct (truthy encrypted) eqn:Eenc.
  - rewrite (Hdev eq_refl). cbv beta iota.
    rewrite run_loops_empty by exact H0.
    cbn [rl initial_vars].
    change (finalized initial_ranges) with (Some [(-1, -1)]). cbv beta iota.
    rewrite print_ranges_spec. cbv beta iota.
    eexists. split; [reflexivity|]. split; [reflexivity|].
    simpl. rewrite ?string_app_nil_r. reflexivity.
  - cbv beta iota.
    rewrite run_loops_empty by exact H0.
    cbn [rl initial_vars].
    change (finalized initial_ranges) with (Some [(-1, -1)]). cbv beta iota.
    rewrite print_ranges_spec. cbv beta iota.
    eexists. split; [reflexivity|]. split; [reflexivity|].
    simpl. rewrite ?string_app_nil_r. reflexivity.
Qed.

Lemma zero_length_file_prints_sentinel_witness :
  exists s,
    produce_block_map empty_world example_dev 0 = (Returned 0, s) /\
    resolved (trace s) = [] /\
    map_text (trace s)
    = (header example_dev empty_stat ++ "1" ++ newline
         ++ "-1 -1" ++ newline)%string.
Proof.
  apply (zero_length_file_prints_sentinel empty_world example_dev 0
           empty_stat).
  - reflexivity.
  - unfold stat_ok. simpl. lia.
  - reflexivity.
  - unfold opens_ok. simpl. repeat split; intros; reflexivity.
Defined.

(** ** Failing calls *)

Lemma no_failure_not_exists t :
  Forall (fun e => ~ failure e) t -> ~ Exists failure t.
Proof.
  intros Hall Hex. apply Exists_exists in Hex as (e & Hin & Hf).
  apply (proj1 (Forall_forall _ _) Hall e Hin Hf).
Qed.

(** C7 (amended): when a resolution, a read or a write fails, the call
    returns [-1] and the failed call is the last one it issued; the map
    stream has received the header (device path line and size line)
    and nothing else: no range count, no range line. *)
Theorem failure_aborts_pass w blk_dev encrypted sb r s :
  w_stat w = Some sb -> stat_ok sb ->
  (truthy encrypted = true -> file_ok w sb) ->
  produce_block_map w blk_dev encrypted = (r, s) ->
  Exists failure (trace s) ->
  r = Returned (-1) /\
  (exists t e, trace s = t ++ [e] /\ failure e /\
               Forall (fun e' => ~ failure e') t) /\
  map_text (trace s) = header blk_dev sb.
Proof.
  intros Hst Hstat Hfile Hrun Hex.
  pose proof (pass_cases w blk_dev encrypted sb Hst Hstat Hfile) as Hc.
  rewrite Hrun in Hc. simpl in Hc.
  inversion Hc as [? Hf Htr|? Hf Hs Htr|? Hf Hs He Hd Htr
                   |? evs Hopens Htr Hfail|? Hopens Hnb Hnf
                   |? v s1 ps Hopens HI Hfin Htr Hdev]; subst.
  - exfalso. revert Hex. rewrite Htr. apply no_failure_not_exists.
    repeat constructor; intros [].
  - exfalso. revert Hex. rewrite Htr. apply no_failure_not_exists.
    repeat constructor; intros [].
  - exfalso. revert Hex. rewrite Htr. apply no_failure_not_exists.
    repeat constructor; intros [].
  - split; [reflexivity|].
    pose proof (failing_quiet evs Hfail) as (Ht & _ & _).
    destruct Hfail as (evs0 & e & -> & Hclean & _ & Hf).
    split.
    + exists (prologue_trace blk_dev sb encrypted ++ evs0), e.
      rewrite Htr, app_assoc. repeat split; auto.
      apply Forall_app_2;
        [apply prologue_no_failure | apply clean_no_failure, Hclean].
    + rewrite Htr, map_text_app, Ht, prologue_text.
      apply string_app_nil_r.
  - exfalso. exact (no_failure_not_exists _ Hnf Hex).
  - exfalso. revert Hex. rewrite Htr. apply no_failure_not_exists.
    destruct (si_trace _ _ _ _ _ _ _ _ HI) as (evs & Htr1 & Hclean & _).
    rewrite Htr1. simpl trace.
    apply Forall_app_2; [apply Forall_app_2|];
      [apply prologue_no_failure | apply clean_no_failure, Hclean
      | apply epilogue_no_failure].
Qed.

Lemma failure_aborts_pass_witness :
  fst (produce_block_map unmapped_world example_dev 1) = Returned (-1) /\
  (exists t e,
     trace (snd (produce_block_map unmapped_world example_dev 1)) = t ++ [e] /\
     failure e /\ Forall (fun e' => ~ failure e') t) /\
  map_text (trace (snd (produce_block_map unmapped_world example_dev 1)))
  = header example_dev small_stat.
Proof.
  apply (failure_aborts_pass unmapped_world example_dev 1 small_stat).
  - reflexivity.
  - unfold stat_ok. simpl. lia.
  - intros _. reflexivity.
  - apply surjective_pairing.
  - vm_compute.
    repeat first [apply Exists_cons_hd; exact I | apply Exists_cons_tl].
Defined.

(** C7 as stated fails: after a failed resolution the map stream holds
    the header. *)
Lemma failed_pass_has_written_header :
  fst (produce_block_map unmapped_world example_dev 0) = Returned (-1) /\
  Exists failure
    (trace (snd (produce_block_map unmapped_world example_dev 0))) /\
  map_text (trace (snd (produce_block_map unmapped_world example_dev 0)))
  = header example_dev small_stat /\
  map_text (trace (snd (produce_block_map unmapped_world example_dev 0)))
  <> EmptyString.
Proof.
  split; [vm_compute; reflexivity|].
  split.
  { vm_compute.
    repeat first [apply Exists_cons_hd; exact I | apply Exists_cons_tl]. }
  split; [vm_compute; reflexivity|].
  vm_compute. discriminate.
Qed.

(** ** Descriptors *)

Lemma prologue_handles blk_dev sb encrypted :
  opened (prologue_trace blk_dev sb encrypted)
  = [MapFile; SourceFd] ++ (if truthy encrypted then [DeviceFd] else []) /\
  closed (prologue_trace blk_dev sb encrypted) = [].
Proof. unfold prologue_trace. destruct (truthy encrypted); split; reflexivity. Qed.

Lemma epilogue_handles encrypted used ps :
  opened (epilogue_trace encrypted used ps) = [] /\
  closed (epilogue_trace encrypted used ps)
  = [MapFile; SourceFd] ++ (if truthy encrypted then [DeviceFd] else []).
Proof.
  unfold epilogue_trace. split.
  - change (opened (?e :: ?t)) with (opened t). rewrite opened_app.
    unfold opened at 1. rewrite omap_fmap_none by reflexivity.
    destruct (truthy encrypted); reflexivity.
  - change (closed (?e :: ?t)) with (closed t). rewrite closed_app.
    unfold closed at 1. rewrite omap_fmap_none by reflexivity.
    destruct (truthy encrypted); reflexivity.
Qed.

(** C9 (amended): a call that returns [0] has closed every descriptor it
    opened (the map stream, the source file, and the raw device when
    shadow writing); a call that returns a failure code has closed none
    of the descriptors it opened. *)
Theorem descriptors_closed_on_success_only w blk_dev encrypted code s :
  (forall sb, w_stat w = Some sb ->
              stat_ok sb /\ (truthy encrypted = true -> file_ok w sb)) ->
  produce_block_map w blk_dev encrypted = (Returned code, s) ->
  (code = 0 -> closed (trace s) = opened (trace s)) /\
  (code <> 0 ->
   closed (trace s) = [] /\ (w_fopen w = true -> MapFile ∈ opened (trace s))).
Proof.
  intros Hw Hrun. destruct (w_stat w) as [sb|] eqn:Hst.
  - destruct (Hw sb eq_refl) as [Hstat Hfile].
    pose proof (pass_cases w blk_dev encrypted sb Hst Hstat Hfile) as Hc.
    rewrite Hrun in Hc. simpl in Hc.
    inversion Hc as [|? Hf Hs Htr|? Hf Hs He Hd Htr
                     |? evs Hopens Htr Hfail|
                     |? v s1 ps Hopens HI Hfin Htr Hdev]; subst.
    + split; [discriminate|]. intros _. rewrite Htr.
      split; [reflexivity|]. intros _. apply list_elem_of_here.
    + split; [discriminate|]. intros _. rewrite Htr.
      split; [reflexivity|]. intros _. apply list_elem_of_here.
    + split; [discriminate|]. intros _.
      destruct (failing_quiet evs Hfail) as (_ & Ho & Hcl).
      rewrite Htr, closed_app, opened_app, Hcl, Ho.
      destruct (prologue_handles blk_dev sb encrypted) as [-> ->].
      split; [reflexivity|]. intros _. apply list_elem_of_here.
    + split; [|intros H; contradiction]. intros _.
      destruct (si_trace _ _ _ _ _ _ _ _ HI) as (evs & Htr1 & Hclean & _).
      destruct (clean_quiet evs Hclean) as (_ & Ho & Hcl).
      rewrite Htr, Htr1. simpl trace.
      rewrite !closed_app, !opened_app, Hcl, Ho.
      destruct (prologue_handles blk_dev sb encrypted) as [-> ->].
      destruct (epilogue_handles encrypted (range_used (rl v)) ps)
        as [-> ->].
      simpl. rewrite !app_nil_r. reflexivity.
  - unfold produce_block_map, produce_block_map_body in Hrun.
    cbv beta iota delta [mbind M_bind bind mret M_ret ret emit sys_open
                           sys_stat sys_close fprintf fclose halt] in Hrun.
    rewrite Hst in Hrun. cbv beta iota in Hrun.
    injection Hrun as <- <-. split; [discriminate|]. intros _.
    split; [reflexivity|]. intros ->. apply list_elem_of_here.
Qed.

Lemma descriptors_closed_on_success_only_witness :
  (0 = 0 ->
   closed (trace (snd (produce_block_map small_world example_dev 1)))
   = opened (trace (snd (produce_block_map small_world example_dev 1)))) /\
  (0 <> 0 ->
   closed (trace (snd (produce_block_map small_world example_dev 1))) = [] /\
   (w_fopen small_world = true ->
    MapFile ∈ opened (trace (snd (produce_block_map small_world
                                    example_dev 1))))).
Proof.
  apply (descriptors_closed_on_success_only small_world example_dev 1 0).
  - intros sb Hsb. injection Hsb as <-. split.
    + unfold stat_ok. simpl. lia.
    + intros _. reflexivity.
  - apply pair_fst_eq. vm_compute. reflexivity.
Defined.

(** C9 as stated fails: when [stat] fails the call returns with the map
    stream still open. *)
Lemma stat_failure_leaves_map_stream_open :
  fst (produce_block_map missing_world example_dev 0) = Returned (-1) /\
  opened (trace (snd (produce_block_map missing_world example_dev 0)))
  = [MapFile] /\
  closed (trace (snd (produce_block_map missing_world example_dev 0))) = [].
Proof. repeat split; vm_compute; reflexivity. Qed.

(** ** The shadow-write flag *)

(** C10: two calls on the same file that both return [0], one with
    shadow writing and one without, print the same block map and issue
    the same FIBMAP queries; the call without shadow writing leaves the
    raw device untouched. *)
Theorem shadow_flag_keeps_block_map w blk_dev e1 e2 sb s1 s2 :
  w_stat w = Some sb -> stat_ok sb -> file_ok w sb ->
  truthy e1 = true -> truthy e2 = false ->
  produce_block_map w blk_dev e1 = (Returned 0, s1) ->
  produce_block_map w blk_dev e2 = (Returned 0, s2) ->
  map_text (trace s1) = map_text (trace s2) /\
  resolved (trace s1) = resolved (trace s2) /\
  seeks (trace s2) = [] /\
  (forall x, device s2 x = w_device w x).
Proof.
  intros Hst Hstat Hfile He1 He2 Hrun1 Hrun2.
  assert (Hf1 : truthy e1 = true -> file_ok w sb) by auto.
  assert (Hf2 : truthy e2 = true -> file_ok w sb) by auto.
  split.
  { destruct (success_text _ _ _ _ _ Hst Hstat Hf1 Hrun1)
      as (r1 & ps1 & Hr1 & Hp1 & ->).
    destruct (success_text _ _ _ _ _ Hst Hstat Hf2 Hrun2)
      as (r2 & ps2 & Hr2 & Hp2 & ->).
    rewrite Hr1 in Hr2. injection Hr2 as <-.
    rewrite Hp1 in Hp2. injection Hp2 as <-. reflexivity. }
  destruct (pass_success _ _ _ _ _ Hst Hstat Hf1 Hrun1)
    as (_ & v1 & t1 & ps1 & HI1 & _ & Htr1 & _).
  destruct (pass_success _ _ _ _ _ Hst Hstat Hf2 Hrun2)
    as (_ & v2 & t2 & ps2 & HI2 & _ & Htr2 & Hdev2).
  destruct (si_trace _ _ _ _ _ _ _ _ HI1) as (evs1 & Ht1 & _ & Hres1 & _).
  destruct (si_trace _ _ _ _ _ _ _ _ HI2)
    as (evs2 & Ht2 & _ & Hres2 & Hplain & _).
  destruct (Hplain He2) as [Hseeks Hdev].
  rewrite Htr1, Htr2, Ht1, Ht2. simpl trace.
  rewrite !resolved_app, !seeks_app, Hres1, Hres2, Hseeks.
  rewrite !(proj1 (prologue_resolved _ _ _)).
  rewrite !(proj1 (epilogue_resolved _ _ _)).
  rewrite !(proj2 (prologue_resolved _ _ _)).
  rewrite !(proj2 (epilogue_resolved _ _ _)).
  split; [reflexivity|]. split; [reflexivity|].
  intros x. rewrite Hdev2. apply Hdev.
Qed.

Lemma shadow_flag_keeps_block_map_witness :
  map_text (trace (snd (produce_block_map small_world example_dev 1)))
  = map_text (trace (snd (produce_block_map small_world example_dev 0))) /\
  resolved (trace (snd (produce_block_map small_world example_dev 1)))
  = resolved (trace (snd (produce_block_map small_world example_dev 0))) /\
  seeks (trace (snd (produce_block_map small_world example_dev 0))) = [] /\
  (forall x, device (snd (produce_block_map small_world example_dev 0)) x
             = w_device small_world x).
Proof.
  apply (shadow_flag_keeps_block_map small_world example_dev 1 0 small_stat).
  - reflexivity.
  - unfold stat_ok. simpl. lia.
  - reflexivity.
  - reflexivity.
  - reflexivity.
  - apply pair_fst_eq. vm_compute. reflexivity.
  - apply pair_fst_eq. vm_compute. reflexivity.
Defined.

(** ** Window occupancy *)

Lemma blocks_read_spec w encrypted sb s0 v s a h :
  stat_ok sb -> state_inv w encrypted sb s0 v s a h -> blocks_read sb v = a.
Proof.
  intros Hstat HI. pose proof Hstat as [Hsize Hbs].
  pose proof (si_h _ _ _ _ _ _ _ _ HI) as Hh.
  pose proof (si_a _ _ _ _ _ _ _ _ HI) as Ha.
  pose proof (si_pos _ _ _ _ _ _ _ _ HI) as Hpos.
  assert (Hprev : (a - 1) * st_blksize sb < st_size sb).
  { apply block_count_spec; [exact Hstat | lia]. }
  assert (Hrange : (a - 1) * st_blksize sb < pos v <= a * st_blksize sb).
  { destruct (truthy encrypted); nia. }
  unfold blocks_read. symmetry.
  apply (Z.div_unique _ _ a (pos v + st_blksize sb - 1 - a * st_blksize sb));
    [left; nia | lia].
Qed.

Lemma flushed_spec w blk_dev encrypted sb v s a h :
  state_inv w encrypted sb (loop_entry w blk_dev sb encrypted) v s a h ->
  flushed s = h.
Proof.
  intros HI. pose proof (si_h _ _ _ _ _ _ _ _ HI) as Hh.
  destruct (si_trace _ _ _ _ _ _ _ _ HI) as (evs & Htr & _ & Hres & _).
  unfold flushed. rewrite Htr. simpl trace.
  rewrite resolved_app, Hres, (proj1 (prologue_resolved _ _ _)).
  simpl. rewrite length_fmap, length_seqZ. lia.
Qed.

Lemma in_flight_spec w encrypted sb s0 v s a h :
  state_inv w encrypted sb s0 v s a h -> in_flight v = a - h.
Proof.
  intros HI. pose proof (si_h _ _ _ _ _ _ _ _ HI) as Hh.
  pose proof (si_win _ _ _ _ _ _ _ _ HI) as Hwin.
  unfold in_flight.
  rewrite (si_head _ _ _ _ _ _ _ _ HI), (si_tail _ _ _ _ _ _ _ _ HI).
  rewrite <- Zminus_mod. apply Z.mod_small.
  unfold WINDOW_SIZE in *. lia.
Qed.

(** C8: in every state that the two loops reach, the slots in use
    between [head] and [tail] are exactly the blocks read and not yet
    flushed; there are fewer of them than [WINDOW_SIZE], at least one slot
    is free whenever the next block is about to be read, and the bytes
    read and not yet flushed fit in [WINDOW_SIZE - 1] blocks. *)
Theorem window_never_full w blk_dev encrypted sb n :
  stat_ok sb -> (truthy encrypted = true -> file_ok w sb) ->
  match steps w encrypted sb n AtLoop (initial_vars w encrypted sb)
          (loop_entry w blk_dev sb encrypted) with
  | Next (c, v) s =>
      in_flight v = blocks_read sb v - flushed s /\
      0 <= in_flight v < WINDOW_SIZE /\
      (c = AtRead -> in_flight v < WINDOW_SIZE - 1) /\
      pos v - flushed s * st_blksize sb
      <= (WINDOW_SIZE - 1) * st_blksize sb
  | Halt _ _ => True
  end.
Proof.
  intros Hstat Hfile. pose proof Hstat as [Hsize Hbs].
  pose proof (steps_inv w encrypted sb (loop_entry w blk_dev sb encrypted)
                Hstat Hfile n AtLoop (initial_vars w encrypted sb)
                (loop_entry w blk_dev sb encrypted) 0 0
                (initial_inv w encrypted sb
                   (loop_entry w blk_dev sb encrypted) Hstat Hfile eq_refl)
                I) as Hs.
  destruct (steps w encrypted sb n AtLoop _ _) as [[c v] s|r s]; [|exact I].
  destruct Hs as (a & h & HI & Hctl).
  pose proof (si_h _ _ _ _ _ _ _ _ HI) as Hh.
  pose proof (si_win _ _ _ _ _ _ _ _ HI) as Hwin.
  pose proof (si_pos _ _ _ _ _ _ _ _ HI) as Hpos.
  rewrite (in_flight_spec _ _ _ _ _ _ _ _ HI).
  rewrite (blocks_read_spec _ _ _ _ _ _ _ _ Hstat HI).
  rewrite (flushed_spec _ _ _ _ _ _ _ _ HI).
  split; [reflexivity|]. split; [unfold WINDOW_SIZE in *; lia|].
  split.
  - intros ->. destruct Hctl as [_ Hroom]. unfold WINDOW_SIZE in *. lia.
  - unfold WINDOW_SIZE in *. destruct (truthy encrypted); nia.
Qed.

Lemma window_never_full_witness :
  match steps header_world 0 header_stat 20 AtLoop
          (initial_vars header_world 0 header_stat)
          (loop_entry header_world example_dev header_stat 0) with
  | Next (c, v) s =>
      in_flight v = blocks_read header_stat v - flushed s /\
      0 <= in_flight v < WINDOW_SIZE /\
      (c = AtRead -> in_flight v < WINDOW_SIZE - 1) /\
      pos v - flushed s * st_blksize header_stat
      <= (WINDOW_SIZE - 1) * st_blksize header_stat
  | Halt _ _ => True
  end.
Proof.
  apply (window_never_full header_world example_dev 0 header_stat 20).
  - unfold stat_ok. simpl. lia.
  - intros H. vm_compute in H. discriminate.
Defined.

(** ** Further facts about the whole call *)

(** The block count that the source prints agrees with the number of
    blocks the loops go through, except on an empty file, for which it
    prints 1. *)
Lemma blocks_spec sb :
  stat_ok sb -> 1 <= st_size sb -> block_count sb <= INT_MAX ->
  blocks sb = block_count sb.
Proof.
  intros [Hsize Hbs] H1 Hmax. unfold blocks, block_count in *.
  rewrite Z.quot_div_nonneg by lia.
  replace (st_size sb + st_blksize sb - 1)
    with (st_size sb - 1 + 1 * st_blksize sb) in * by lia.
  rewrite Z.div_add in * by lia.
  apply wrap_int_small.
  pose proof (Z.div_pos (st_size sb - 1) (st_blksize sb)). lia.
Qed.

Lemma blocks_empty sb :
  st_size sb = 0 -> 1 < st_blksize sb < 2 ^ 32 ->
  blocks sb = 1 /\ block_count sb = 0.
Proof.
  intros H0 Hbs. unfold blocks, block_count. rewrite H0. split.
  - replace (0 - 1) with (- (1)) by lia.
    rewrite Z.quot_opp_l by lia. rewrite Z.quot_small by lia. reflexivity.
  - apply Z.div_small. lia.
Qed.

(** In an admissible environment in which the map stream can be opened,
    the call returns, with [0] or [-1]: the loop bounds of the model are
    never reached and no access is out of bounds. *)
Lemma pass_returns w blk_dev encrypted sb :
  w_stat w = Some sb -> stat_ok sb ->
  (truthy encrypted = true -> file_ok w sb) ->
  blocks_ok w sb -> w_fopen w = true ->
  exists code s,
    produce_block_map w blk_dev encrypted = (Returned code, s) /\
    (code = 0 \/ code = -1).
Proof.
  intros Hst Hstat Hfile Hbl Hfopen.
  pose proof (pass_cases w blk_dev encrypted sb Hst Hstat Hfile) as Hc.
  destruct (produce_block_map w blk_dev encrypted) as [r s]. simpl in Hc.
  inversion Hc; subst; try congruence; try contradiction;
    eexists _, s; split; try reflexivity; auto.
Qed.

(** ** Extra properties: the range coalescer *)

Lemma rev_reverse {A} (l : list A) : rev l = reverse l.
Proof.
  induction l as [|x l IH]; [reflexivity|].
  cbn [rev]. by rewrite reverse_cons, IH.
Qed.

Lemma coalesce_add_separated rs b :
  separated_rev rs -> separated_rev (coalesce_add rs b).
Proof.
  intros H. destruct rs as [|[s e] rest]; cbn [coalesce_add].
  - intros i p q _ Hq. destruct i; discriminate.
  - destruct (Z.eqb_spec b e) as [->|Hne].
    + intros [|i] p q Hq Hp.
      * inversion Hq; subst. cbn. apply (H 0%nat p (s, e)); auto.
      * apply (H (S i) p q); auto.
    + intros [|i] p q Hq Hp.
      * inversion Hq; inversion Hp; subst. cbn. exact Hne.
      * apply (H i p q); auto.
Qed.

Lemma foldl_coalesce_separated bs : forall rs,
  separated_rev rs -> separated_rev (foldl coalesce_add rs bs).
Proof.
  induction bs as [|b bs IH]; intros rs H; [exact H|].
  cbn [foldl]. apply IH, coalesce_add_separated, H.
Qed.

Lemma separated_rev_spec rs : separated_rev rs -> separated (rev rs).
Proof.
  intros H i p q Hp Hq.
  assert (Hlt : (S i < length rs)%nat).
  { apply lookup_lt_Some in Hq. by rewrite length_rev in Hq. }
  rewrite rev_reverse in Hp, Hq.
  rewrite reverse_lookup in Hp by lia. rewrite reverse_lookup in Hq by lia.
  apply (H (length rs - S (S i))%nat p q); [exact Hq|].
  rewrite <- Hp. f_equal. lia.
Qed.

Lemma coalesce_separated bs : separated (coalesce bs).
Proof.
  apply separated_rev_spec, foldl_coalesce_separated.
  intros i p q Hq. discriminate.
Qed.

Lemma coalesce_proper bs :
  Forall block_ok bs -> Forall (fun p => 0 <= fst p < snd p) (coalesce bs).
Proof.
  intros Hbs. unfold coalesce. rewrite rev_reverse. apply Forall_reverse.
  assert (H1 : Forall (fun p => fst p < snd p) (foldl coalesce_add [] bs))
    by (apply foldl_coalesce_proper; constructor).
  assert (H2 : Forall (fun p => 0 <= fst p) (foldl coalesce_add [] bs)).
  { apply foldl_coalesce_nonneg; [|constructor].
    eapply Forall_impl; [exact Hbs|]. intros b [? _]. assumption. }
  rewrite Forall_forall in H1, H2. apply Forall_forall.
  intros p Hp. split; auto.
Qed.

(** X1: the ranges that [add_block_to_ranges] builds from a sequence of
    admissible blocks are the coarsest ones: every range is non-empty and
    starts at a non-negative block, no range starts where the range
    before it ends, and the ranges list the blocks fed, in order. *)
Theorem add_blocks_ranges_maximal junk bs r ps :
  bs <> [] -> Forall block_ok bs -> Z.of_nat (length bs) <= MAX_BLOCKS ->
  add_blocks junk initial_ranges bs = Some r -> finalized r = Some ps ->
  Forall (fun p => 0 <= fst p < snd p) ps /\ separated ps /\
  expand ps = bs.
Proof.
  intros Hne Hbs Hlen Hr Hps.
  destruct (add_blocks_coalesce junk bs Hne Hbs Hlen) as (r' & Hr' & Hf & _).
  assert (r' = r) by congruence. subst r'.
  assert (ps = coalesce bs) by congruence. subst ps.
  split; [by apply coalesce_proper|].
  split; [apply coalesce_separated|apply coalesce_expand].
Qed.

Lemma add_blocks_ranges_maximal_witness :
  Forall (fun p => 0 <= fst p < snd p) [(1000, 1002); (30, 31)] /\
  separated [(1000, 1002); (30, 31)] /\
  expand [(1000, 1002); (30, 31)] = [1000; 1001; 30].
Proof.
  apply (add_blocks_ranges_maximal 0 [1000; 1001; 30]
           {| ranges := [1000; 1002; 30; 31];
              range_alloc := 2; range_used := 2 |}).
  - discriminate.
  - repeat constructor; unfold INT_MAX; lia.
  - unfold MAX_BLOCKS. simpl. lia.
  - reflexivity.
  - reflexivity.
Defined.

Lemma add_block_alloc junk r b r' :
  add_block_to_ranges junk r b = Some r' ->
  (range_alloc r' = range_alloc r /\
   (range_used r' = range_used r \/
    range_used r' = int_add (range_used r) 1)) \/
  (range_alloc r <= range_used r /\
   range_alloc r' = int_mul (range_alloc r) 2 /\
   range_used r' = int_add (range_used r) 1).
Proof.
  unfold add_block_to_ranges. intros H.
  repeat (simplify_option_eq || case_match); cbn; try ztest; auto; try lia.
Qed.

Lemma rep_bounds r rs :
  rep r rs ->
  range_used r = Z.max 1 (Z.of_nat (length rs)) /\
  range_used r <= range_alloc r /\
  Z.of_nat (length (ranges r)) = 2 * range_alloc r.
Proof.
  destruct rs as [|p rs].
  - intros ->. cbn. lia.
  - intros (Hu & Ha & _ & spare & Hr & Hs). rewrite Hr, Hu.
    rewrite length_app, cells_length, length_rev.
    cbn [length] in *. lia.
Qed.

Lemma coalesce_add_length rs b :
  (Nat.max 1 (length rs) <= length (coalesce_add rs b) <= S (length rs))%nat.
Proof.
  destruct rs as [|[s e] rest]; cbn [coalesce_add]; [cbn; lia|].
  destruct (b =? e); cbn; lia.
Qed.

Lemma add_blocks_alloc junk bs : forall r rs r',
  rep r rs -> Forall block_ok bs ->
  Z.of_nat (length rs) + Z.of_nat (length bs) <= MAX_BLOCKS ->
  add_blocks junk r bs = Some r' ->
  range_alloc r < 2 * range_used r ->
  range_alloc r' < 2 * range_used r'.
Proof.
  induction bs as [|b bs IH]; intros r rs r' Hrep Hbs Hlen Hadd Hinv.
  - cbn in Hadd. congruence.
  - pose proof (Forall_inv Hbs) as Hb.
    pose proof (Forall_inv_tail Hbs) as Hbs'.
    cbn [length] in Hlen.
    destruct (add_block_refines junk r rs b Hrep Hb) as (r1 & Hr1 & Hrep1);
      [lia|].
    cbn [add_blocks] in Hadd. rewrite Hr1 in Hadd. cbn in Hadd.
    pose proof (coalesce_add_length rs b) as Hcl.
    apply (IH r1 (coalesce_add rs b) r' Hrep1 Hbs'); [lia|exact Hadd|].
    destruct (rep_bounds _ _ Hrep) as (Hu & Hua & _).
    destruct (rep_bounds _ _ Hrep1) as (Hu1 & _ & _).
    assert (Hmax : MAX_BLOCKS = 2 ^ 29) by reflexivity.
    destruct (add_block_alloc _ _ _ _ Hr1) as [[Ha _]|(Hle & Ha & Hused)].
    + rewrite Ha. lia.
    + rewrite Ha, Hused. unfold int_mul, int_add.
      rewrite !wrap_int_small by (unfold INT_MAX; lia). lia.
Qed.

(** X2: after any non-empty sequence of admissible blocks the range
    array has [2 * range_alloc] cells, the ranges in use fit in it, there
    are at most as many ranges as blocks, and the doubling of line 94
    never leaves more than half of the array unused. *)
Theorem add_blocks_capacity junk bs r :
  bs <> [] -> Forall block_ok bs -> Z.of_nat (length bs) <= MAX_BLOCKS ->
  add_blocks junk initial_ranges bs = Some r ->
  1 <= range_used r <= Z.of_nat (length bs) /\
  range_used r <= range_alloc r < 2 * range_used r /\
  Z.of_nat (length (ranges r)) = 2 * range_alloc r.
Proof.
  intros Hne Hbs Hlen Hadd.
  destruct (add_blocks_refines junk bs initial_ranges [] rep_initial Hbs)
    as (r' & Hr' & Hrep); [cbn; lia|].
  assert (r' = r) by congruence. subst r'.
  destruct (rep_bounds _ _ Hrep) as (Hu & Hua & Hcells).
  pose proof (foldl_coalesce_length_le bs []) as Hle. cbn [length] in Hle.
  pose proof (add_blocks_alloc junk bs initial_ranges [] r rep_initial Hbs
                ltac:(cbn; lia) Hadd ltac:(cbn; lia)) as Hcap.
  assert (0 < Z.of_nat (length bs)) by (destruct bs; [done|cbn; lia]).
  repeat split; try lia.
Qed.

Lemma add_blocks_capacity_witness :
  1 <= 3 <= Z.of_nat (length [1000; 30; 2100]) /\
  3 <= 4 < 2 * 3 /\
  Z.of_nat (length [1000; 1001; 30; 31; 2100; 2101; 7; 7]) = 2 * 4.
Proof.
  apply (add_blocks_capacity 7 [1000; 30; 2100]
           {| ranges := [1000; 1001; 30; 31; 2100; 2101; 7; 7];
              range_alloc := 4; range_used := 3 |}).
  - discriminate.
  - repeat constructor; unfold INT_MAX; lia.
  - unfold MAX_BLOCKS. simpl. lia.
  - reflexivity.
Defined.

(** ** Extra properties: write_at_offset *)

Lemma write_loop_partial w buffer size : forall fuel written s rc s',
  0 <= written <= size -> size <= Z.of_nat (length buffer) ->
  size < 2 ^ 64 ->
  write_loop w fuel buffer size written s = Next rc s' ->
  exists evs,
    trace s' = trace s ++ evs /\
    0 <= bytes_written evs <= size - written /\
    (rc = 0 -> bytes_written evs = size - written) /\
    (rc <> 0 -> bytes_written evs < size - written) /\
    wfd_pos s' = wfd_pos s + bytes_written evs /\
    forall a, device s' a
              = dev_write (device s) (wfd_pos s)
                  (take (Z.to_nat (bytes_written evs))
                     (drop (Z.to_nat written) buffer)) a.
Proof.
  induction fuel as [|fuel IH]; intros written s rc s' Hw Hbuf Hsz Hrun.
  - cbn [write_loop] in Hrun.
    destruct (Z.ltb_spec written size); [discriminate|].
    inversion Hrun; subst. exists []. rewrite app_nil_r. cbn.
    repeat split; try lia. intros a. by rewrite dev_write_nil.
  - cbn [write_loop] in Hrun.
    destruct (Z.ltb_spec written size) as [Hlt|Hge].
    + rewrite bind_unfold in Hrun. unfold sys_write, size_sub in Hrun.
      rewrite wrap_size_small in Hrun by lia.
      destruct (w_write w (writes s)) as [c|].
      * set (data := take (Nat.min (S c) (Z.to_nat (size - written)))
                       (drop (Z.to_nat written) buffer)) in *.
        assert (Hlen : length data
                       = Nat.min (S c) (Z.to_nat (size - written))).
        { unfold data. rewrite length_take, length_drop. lia. }
        set (n := Z.of_nat (length data)) in *.
        assert (Hn : 0 < n <= size - written) by (unfold n; lia).
        unfold size_add in Hrun. rewrite wrap_size_small in Hrun by lia.
        apply IH in Hrun as (evs & Htr & Hb & Hok & Hko & Hpos & Hdev);
          [|lia|exact Hbuf|exact Hsz].
        cbn [trace wfd_pos device] in *.
        exists (EvWrite (size - written) (Some n) :: evs).
        cbn [bytes_written foldr]. fold (bytes_written evs).
        split; [rewrite Htr, <- app_assoc; reflexivity|].
        split; [lia|]. split; [intros Hrc; specialize (Hok Hrc); lia|].
        split; [intros Hrc; specialize (Hko Hrc); lia|].
        split; [lia|].
        intros a. rewrite Hdev. unfold n. rewrite dev_write_app. f_equal.
        fold n.
        set (D := drop (Z.to_nat written) buffer) in *.
        assert (Hd : data = take (length data) D)
          by (unfold data at 1; rewrite Hlen; reflexivity).
        replace (drop (Z.to_nat (written + n)) buffer)
          with (drop (length data) D)
          by (unfold D; rewrite drop_drop; f_equal; lia).
        rewrite Hd at 1. rewrite take_take_drop. f_equal. lia.
      * inversion Hrun; subst. cbn [trace wfd_pos device].
        exists [EvWrite (size - written) None]. cbn.
        repeat split; try lia. intros a. by rewrite dev_write_nil.
    + inversion Hrun; subst. exists []. rewrite app_nil_r. cbn.
      repeat split; try lia. intros a. by rewrite dev_write_nil.
Qed.

Lemma next_eq {A} (o : outcome A) (a : A) :
  final_value o = Some a -> o = Next a (final_state o).
Proof. destruct o; cbn; congruence. Qed.

(** X3: whatever [write_at_offset] returns, the device differs from its
    content before the call only by the bytes that the [write] calls
    transferred: a prefix of the buffer stored at [offset].  The prefix
    is the whole buffer when 0 is returned and a proper prefix when the
    call fails; what a failed call has written stays on the device. *)
Theorem write_at_offset_partial w buffer size offset s rc s' :
  0 <= size <= Z.of_nat (length buffer) -> size < 2 ^ 64 -> 0 <= offset ->
  write_at_offset w buffer size offset s = Next rc s' ->
  exists evs,
    trace s' = trace s ++ EvLseek offset :: evs /\
    0 <= bytes_written evs <= size /\
    (rc = 0 -> bytes_written evs = size) /\
    (rc <> 0 -> bytes_written evs < size) /\
    wfd_pos s' = offset + bytes_written evs /\
    forall a, device s' a
              = dev_write (device s) offset
                  (take (Z.to_nat (bytes_written evs)) buffer) a.
Proof.
  intros Hsize Hmax Hoff Hrun. unfold write_at_offset in Hrun.
  rewrite bind_unfold in Hrun. unfold sys_lseek in Hrun.
  apply write_loop_partial in Hrun
    as (evs & Htr & Hb & Hok & Hko & Hpos & Hdev); [|lia|lia|exact Hmax].
  cbn [trace wfd_pos device] in *. rewrite Z.sub_0_r in *.
  destruct (Z.ltb_spec offset 0); [lia|].
  exists evs. split; [rewrite Htr, <- app_assoc; reflexivity|].
  repeat split; auto; lia.
Qed.

Lemma write_at_offset_partial_witness :
  exists evs,
    trace (final_state failed_write)
    = trace (initial_sys failing_write_world) ++ EvLseek 8 :: evs /\
    0 <= bytes_written evs <= 4 /\
    (-1 = 0 -> bytes_written evs = 4) /\
    (-1 <> 0 -> bytes_written evs < 4) /\
    wfd_pos (final_state failed_write) = 8 + bytes_written evs /\
    forall a, device (final_state failed_write) a
              = dev_write (device (initial_sys failing_write_world)) 8
                  (take (Z.to_nat (bytes_written evs)) ten_bytes) a.
Proof.
  apply (write_at_offset_partial failing_write_world ten_bytes 4 8
           (initial_sys failing_write_world) (-1) (final_state failed_write)).
  - simpl. lia.
  - lia.
  - lia.
  - apply (next_eq failed_write). vm_compute. reflexivity.
Defined.

Lemma write_calls_length evs : forall remaining rc,
  write_calls remaining evs rc -> 0 <= remaining ->
  Z.of_nat (length evs) <= remaining /\
  Forall (fun e => exists c r, e = EvWrite c r /\ 0 < c <= remaining) evs.
Proof.
  induction evs as [|e evs IH]; intros remaining rc H Hrem; cbn in H.
  - split; [cbn; lia|constructor].
  - destruct e as [| | | | | |c [n|]| |]; try contradiction.
    + destruct H as (-> & Hn & H). apply IH in H as [Hlen Hall]; [|lia].
      split; [cbn [length]; lia|]. constructor; [eauto 6 with lia|].
      eapply Forall_impl; [exact Hall|].
      intros e (c & r & -> & ?). exists c, r. split; [reflexivity|lia].
    + destruct H as (-> & Hn & -> & _). split; [cbn; lia|].
      constructor; [|constructor]. eexists _, _. split; [reflexivity|lia].
Qed.

(** X4: one call of [write_at_offset] issues the seek and then at most
    [size] calls of [write], each for at least one byte and at most
    [size] bytes. *)
Theorem write_at_offset_call_bound w buffer size offset s :
  0 <= size <= Z.of_nat (length buffer) -> size < 2 ^ 64 ->
  exists rc s' evs,
    write_at_offset w buffer size offset s = Next rc s' /\
    trace s' = trace s ++ EvLseek offset :: evs /\
    Z.of_nat (length evs) <= size /\
    Forall (fun e => exists c r, e = EvWrite c r /\ 0 < c <= size) evs.
Proof.
  intros Hsize Hmax.
  destruct (write_at_offset_spec w buffer size offset s Hsize Hmax)
    as (rc & s' & evs & E & Htr & Hcalls & _).
  exists rc, s', evs. split; [exact E|]. split; [exact Htr|].
  apply (write_calls_length evs size rc Hcalls). lia.
Qed.

Lemma write_at_offset_call_bound_witness :
  exists rc s' evs,
    write_at_offset small_world ten_bytes 4 8 (initial_sys small_world)
    = Next rc s' /\
    trace s' = trace (initial_sys small_world) ++ EvLseek 8 :: evs /\
    Z.of_nat (length evs) <= 4 /\
    Forall (fun e => exists c r, e = EvWrite c r /\ 0 < c <= 4) evs.
Proof.
  apply (write_at_offset_call_bound small_world ten_bytes 4 8
           (initial_sys small_world)).
  - simpl. lia.
  - lia.
Defined.

(** X5: the result of [lseek64] is not checked: with a negative offset,
    which the seek refuses, [write_at_offset] issues its [write] calls
    all the same, each for the bytes that remain, and the bytes are
    written where the descriptor stood before the call; when 0 is
    returned the whole buffer has been written there. *)
Theorem write_at_offset_unchecked_seek w buffer size offset s :
  0 <= size <= Z.of_nat (length buffer) -> size < 2 ^ 64 -> offset < 0 ->
  exists rc s' evs,
    write_at_offset w buffer size offset s = Next rc s' /\
    trace s' = trace s ++ EvLseek offset :: evs /\
    write_calls size evs rc /\
    (rc = 0 -> bytes_written evs = size) /\
    wfd_pos s' = wfd_pos s + bytes_written evs /\
    forall a, device s' a
              = dev_write (device s) (wfd_pos s)
                  (take (Z.to_nat (bytes_written evs)) buffer) a.
Proof.
  intros Hsize Hmax Hoff.
  destruct (write_at_offset_spec w buffer size offset s Hsize Hmax)
    as (rc & s' & evs & Hrun & Htr & Hcalls & _).
  exists rc, s', evs. split; [exact Hrun|]. split; [exact Htr|].
  split; [exact Hcalls|].
  split; [intros ->; by apply write_calls_total|].
  unfold write_at_offset in Hrun.
  rewrite bind_unfold in Hrun. unfold sys_lseek in Hrun.
  apply write_loop_partial in Hrun
    as (evs' & Htr' & _ & _ & _ & Hpos & Hdev); [|lia|lia|exact Hmax].
  cbn [trace wfd_pos device] in *.
  destruct (Z.ltb_spec offset 0); [|lia].
  assert (evs' = evs) as ->.
  { rewrite Htr, <- app_assoc in Htr'. apply app_inv_head in Htr'.
    by inversion Htr'. }
  split; [exact Hpos|exact Hdev].
Qed.

Lemma write_at_offset_unchecked_seek_witness :
  exists rc s' evs,
    write_at_offset small_world ten_bytes 4 (-1) (initial_sys small_world)
    = Next rc s' /\
    trace s' = trace (initial_sys small_world) ++ EvLseek (-1) :: evs /\
    write_calls 4 evs rc /\
    (rc = 0 -> bytes_written evs = 4) /\
    wfd_pos s' = wfd_pos (initial_sys small_world) + bytes_written evs /\
    forall a, device s' a
              = dev_write (device (initial_sys small_world))
                  (wfd_pos (initial_sys small_world))
                  (take (Z.to_nat (bytes_written evs)) ten_bytes) a.
Proof.
  apply (write_at_offset_unchecked_seek small_world ten_bytes 4 (-1)
           (initial_sys small_world)).
  - simpl. lia.
  - lia.
  - lia.
Defined.

(** ** Extra properties: produce_block_map *)

(** The state in which a call that returns 0 leaves the loops. *)
Lemma pass_after_loops w blk_dev encrypted sb s :
  w_stat w = Some sb -> stat_ok sb ->
  (truthy encrypted = true -> file_ok w sb) ->
  produce_block_map w blk_dev encrypted = (Returned 0, s) ->
  opens_ok w encrypted /\
  exists v s1,
    state_inv w encrypted sb (loop_entry w blk_dev sb encrypted) v s1
      (block_count sb) (block_count sb) /\
    fd_pos s = fd_pos s1 /\ wfd_pos s = wfd_pos s1 /\
    reads s = reads s1 /\ writes s = writes s1 /\ device s = device s1.
Proof.
  intros Hst Hstat Hfile. pose proof Hstat as [Hsize Hbs].
  unfold produce_block_map, produce_block_map_body.
  cbv beta iota delta [mbind M_bind bind mret M_ret ret emit sys_open
                         sys_stat sys_close fprintf fclose halt].
  rewrite Hst. cbv beta iota.
  destruct (st_blksize sb =? 0); [discriminate|].
  destruct (w_fopen w) eqn:Efopen; [|discriminate].
  destruct (w_open_src w) eqn:Esrc; cbv beta iota delta [negb];
    [|discriminate].
  assert (Hopen_or :
            (truthy encrypted = true /\ w_open_dev w = false) \/
            opens_ok w encrypted).
  { unfold opens_ok.
    destruct (truthy encrypted) eqn:Eenc;
      [|right; repeat split; auto; intros ?; discriminate].
    destruct (w_open_dev w) eqn:Edev; [right; repeat split; auto | left; auto]. }
  destruct Hopen_or as [[Eenc Edev]|Hopens].
  { rewrite Eenc, Edev. discriminate. }
  match goal with
  | |- context [match ?m ?s with Next _ _ => _ | Halt _ _ => _ end] =>
      assert (Hentry : m s = Next true (loop_entry w blk_dev sb encrypted))
  end.
  { unfold loop_entry, prologue_trace.
    destruct (truthy encrypted) eqn:Eenc; [|reflexivity].
    destruct Hopens as (_ & _ & Hdev). rewrite (Hdev Eenc). reflexivity. }
  rewrite Hentry. cbv beta iota.
  pose proof (run_loops_inv w encrypted sb (loop_entry w blk_dev sb encrypted)
                Hstat Hfile (loop_fuel sb) AtLoop
                (initial_vars w encrypted sb)
                (loop_entry w blk_dev sb encrypted) 0 0
                (initial_inv w encrypted sb (loop_entry w blk_dev sb encrypted)
                   Hstat Hfile eq_refl) I) as Hrun.
  pose proof (block_count_le sb Hstat) as HN.
  specialize (Hrun ltac:(unfold loop_fuel; simpl; lia)).
  destruct (run_loops w encrypted sb (loop_fuel sb) AtLoop
              (initial_vars w encrypted sb)
              (loop_entry w blk_dev sb encrypted)) as [v s1|r s1].
  - destruct (finalized (rl v)) as [ps|] eqn:Efin; [|discriminate].
    rewrite print_ranges_spec.
    intros H. split; [exact Hopens|]. exists v, s1. split; [exact Hrun|].
    destruct (truthy encrypted); cbn in H; inversion H; subst; cbn; auto.
  - intros H. inversion H; subst.
    destruct Hrun as [[? _]|[? _]]; discriminate.
Qed.

(** X6: when [stat] succeeds on a file whose blocks FIBMAP places on
    admissible block numbers, a call of [produce_block_map] ends within
    the bound of the loops and without an access outside the range
    array: it returns 0 or -1 when [fopen] gave a stream for the map
    file, and it faults on the NULL stream, which is never checked, when
    [fopen] failed. *)
Theorem pass_terminates w blk_dev encrypted sb :
  w_stat w = Some sb -> stat_ok sb ->
  (truthy encrypted = true -> file_ok w sb) -> blocks_ok w sb ->
  (w_fopen w = true ->
   exists code s,
     produce_block_map w blk_dev encrypted = (Returned code, s) /\
     (code = 0 \/ code = -1)) /\
  (w_fopen w = false ->
   fst (produce_block_map w blk_dev encrypted) = Fault).
Proof.
  intros Hst Hstat Hfile Hblocks. split.
  - intros Hfopen. by apply pass_returns with sb.
  - intros Hfopen.
    destruct (pass_cases w blk_dev encrypted sb Hst Hstat Hfile)
      as [| | | ? ? [Ho _] | ? [Ho _] | ? ? ? ? [Ho _]];
      try reflexivity; congruence.
Qed.

Lemma pass_terminates_witness :
  (w_fopen small_world = true ->
   exists code s,
     produce_block_map small_world example_dev 1 = (Returned code, s) /\
     (code = 0 \/ code = -1)) /\
  (w_fopen small_world = false ->
   fst (produce_block_map small_world example_dev 1) = Fault).
Proof.
  apply (pass_terminates small_world example_dev 1 small_stat).
  - reflexivity.
  - unfold stat_ok. simpl. lia.
  - reflexivity.
  - apply example_blocks_ok. vm_compute. discriminate.
Defined.

(** X7: a call with the encrypted flag that returns 0 has read the
    source file from its start to its end: the offset of the source
    descriptor is the size of the file. *)
Theorem pass_reads_whole_file w blk_dev encrypted sb s :
  w_stat w = Some sb -> stat_ok sb -> file_ok w sb ->
  truthy encrypted = true ->
  produce_block_map w blk_dev encrypted = (Returned 0, s) ->
  fd_pos s = st_size sb.
Proof.
  intros Hst Hstat Hfile Henc Hrun.
  destruct (pass_after_loops w blk_dev encrypted sb s Hst Hstat
              (fun _ => Hfile) Hrun)
    as (_ & v & s1 & Hinv & Hfd & _).
  rewrite Hfd, (si_fd _ _ _ _ _ _ _ _ Hinv Henc),
    (si_pos _ _ _ _ _ _ _ _ Hinv), Henc.
  pose proof (block_count_spec sb (block_count sb) Hstat) as [_ Hlt].
  destruct (Z.lt_ge_cases (block_count sb * st_blksize sb) (st_size sb));
    [specialize (Hlt ltac:(assumption)); lia|lia].
Qed.

Lemma pass_reads_whole_file_witness :
  fd_pos (snd (produce_block_map small_world example_dev 1))
  = st_size small_stat.
Proof.
  apply (pass_reads_whole_file small_world example_dev 1 small_stat
           (snd (produce_block_map small_world example_dev 1))).
  - reflexivity.
  - unfold stat_ok. simpl. lia.
  - reflexivity.
  - reflexivity.
  - apply pair_fst_eq. vm_compute. reflexivity.
Defined.

(** X8: a call with the encrypted flag that returns 0 changes no byte of
    the raw device outside the physical blocks of the file. *)
Theorem pass_device_frame w blk_dev encrypted sb s x :
  w_stat w = Some sb -> stat_ok sb -> file_ok w sb -> blocks_ok w sb ->
  truthy encrypted = true ->
  produce_block_map w blk_dev encrypted = (Returned 0, s) ->
  (forall k, 0 <= k < block_count sb ->
     x < st_blksize sb * phys w k \/
     st_blksize sb * phys w k + st_blksize sb <= x) ->
  device s x = w_device w x.
Proof.
  intros Hst Hstat Hfile Hblocks Henc Hrun Hx.
  destruct (pass_after_loops w blk_dev encrypted sb s Hst Hstat
              (fun _ => Hfile) Hrun)
    as (_ & v & s1 & Hinv & _ & _ & _ & _ & Hdev).
  rewrite Hdev.
  destruct (si_data _ _ _ _ _ _ _ _ Hinv Henc Hblocks)
    as (_ & datas & Hlen & Hdatas & Hshadow).
  rewrite Hshadow. cbn [device loop_entry].
  apply shadow_outside. apply Forall_lookup. intros i [off data] Hi.
  apply lookup_zip_with_Some in Hi as (off' & data' & Heq & Hoff & Hdata).
  inversion Heq; subst off' data'. cbn [fst snd].
  rewrite list_lookup_fmap in Hoff.
  destruct (seqZ 0 (block_count sb) !! i) as [k|] eqn:Hk; [|discriminate].
  apply lookup_seqZ in Hk as [-> Hi]. cbn in Hoff. inversion Hoff; subst off.
  destruct (Hdatas i data Hdata) as [-> _].
  apply Hx. lia.
Qed.

Lemma pass_device_frame_witness :
  device (snd (produce_block_map small_world example_dev 1)) 0
  = w_device small_world 0.
Proof.
  apply (pass_device_frame small_world example_dev 1 small_stat
           (snd (produce_block_map small_world example_dev 1)) 0).
  - reflexivity.
  - unfold stat_ok. simpl. lia.
  - reflexivity.
  - apply example_blocks_ok. vm_compute. discriminate.
  - reflexivity.
  - apply pair_fst_eq. vm_compute. reflexivity.
  - intros k Hk. change (block_count small_stat) with 3 in Hk.
    assert (Hcases : k = 0 \/ k = 1 \/ k = 2) by lia.
    destruct Hcases as [-> | [-> | ->]]; left; vm_compute; reflexivity.
Defined.

(** X9: the block count [blocks] of line 189 is the number of blocks that
    a successful call resolves when the file is not empty; for an empty
    file, when the block size is above 1, it is 1 although no block is
    resolved. *)
Theorem pass_block_count w blk_dev encrypted sb s :
  w_stat w = Some sb -> stat_ok sb ->
  (truthy encrypted = true -> file_ok w sb) -> blocks_ok w sb ->
  produce_block_map w blk_dev encrypted = (Returned 0, s) ->
  (1 <= st_size sb ->
   Z.of_nat (length (resolved (trace s))) = blocks sb) /\
  (st_size sb = 0 -> 1 < st_blksize sb ->
   resolved (trace s) = [] /\ blocks sb = 1).
Proof.
  intros Hst Hstat Hfile Hblocks Hrun.
  destruct (success_resolved w blk_dev encrypted sb s Hst Hstat Hfile
              Hblocks Hrun) as [_ Hres].
  pose proof (block_count_le sb Hstat) as HN.
  split.
  - intros Hsize. rewrite Hres, length_fmap, length_seqZ.
    rewrite blocks_spec; [lia|assumption|assumption|].
    destruct Hblocks as [Hmax _]. unfold MAX_BLOCKS, INT_MAX in *. lia.
  - intros Hsize Hbs.
    destruct (blocks_empty sb Hsize) as [Hb Hc];
      [destruct Hstat as [_ ?]; lia|].
    rewrite Hres, Hc. split; [reflexivity|assumption].
Qed.

Lemma pass_block_count_witness :
  (1 <= st_size small_stat ->
   Z.of_nat (length (resolved
     (trace (snd (produce_block_map small_world example_dev 1)))))
   = blocks small_stat) /\
  (st_size small_stat = 0 -> 1 < st_blksize small_stat ->
   resolved (trace (snd (produce_block_map small_world example_dev 1))) = []
   /\ blocks small_stat = 1).
Proof.
  apply (pass_block_count small_world example_dev 1 small_stat
           (snd (produce_block_map small_world example_dev 1))).
  - reflexivity.
  - unfold stat_ok. simpl. lia.
  - reflexivity.
  - apply example_blocks_ok. vm_compute. discriminate.
  - apply pair_fst_eq. vm_compute. reflexivity.
Defined.

(** ** A call without the encrypted flag

    Every piece of [produce_block_map] keeps the state [untouched]. *)

Lemma keeps_ret {A} P (a : A) : keeps P (ret a).
Proof. intros s Hs. exact Hs. Qed.

Lemma keeps_halt {A} P r : keeps P (@halt A r).
Proof. intros s Hs. exact Hs. Qed.

Lemma keeps_bind {A B} P (m : M A) (k : A -> M B) :
  keeps P m -> (forall a, keeps P (k a)) -> keeps P (m ≫= k).
Proof.
  intros Hm Hk s Hs. rewrite bind_unfold. specialize (Hm s Hs).
  destruct (m s) as [a s'|r s']; [apply Hk, Hm|exact Hm].
Qed.

Lemma keeps_emit w e : ~ file_io e -> keeps (untouched w) (emit e).
Proof.
  intros He s (Htr & Hrest). split; [|exact Hrest].
  cbn. apply Forall_app_2; [exact Htr|]. by constructor.
Qed.

Create HintDb keeps.
#[local] Hint Resolve keeps_ret keeps_halt : keeps.

Ltac keeps_emit := apply keeps_emit; intros [].

Lemma keeps_sys_open w h ok : keeps (untouched w) (sys_open h ok).
Proof. apply keeps_bind; [keeps_emit|auto with keeps]. Qed.

Lemma keeps_sys_close w h : keeps (untouched w) (sys_close h).
Proof. keeps_emit. Qed.

Lemma keeps_sys_stat w : keeps (untouched w) (sys_stat w).
Proof. apply keeps_bind; [keeps_emit|auto with keeps]. Qed.

Lemma keeps_sys_fibmap w logical : keeps (untouched w) (sys_fibmap w logical).
Proof. apply keeps_bind; [keeps_emit|auto with keeps]. Qed.

Lemma keeps_fprintf w mapf text : keeps (untouched w) (fprintf mapf text).
Proof. destruct mapf; [keeps_emit|apply keeps_halt]. Qed.

Lemma keeps_fclose w mapf : keeps (untouched w) (fclose mapf).
Proof. destruct mapf; [apply keeps_sys_close|apply keeps_halt]. Qed.

#[local] Hint Resolve keeps_sys_open keeps_sys_close keeps_sys_stat
  keeps_sys_fibmap keeps_fprintf keeps_fclose : keeps.

Lemma keeps_print_ranges w mapf ps :
  keeps (untouched w) (print_ranges mapf ps).
Proof.
  induction ps as [|p ps IH]; cbn [print_ranges]; [auto with keeps|].
  apply keeps_bind; auto with keeps.
Qed.

Lemma keeps_flush_head w encrypted sb v :
  truthy encrypted = false -> keeps (untouched w) (flush_head w encrypted sb v).
Proof.
  intros Henc. unfold flush_head. rewrite Henc.
  apply keeps_bind; [auto with keeps|]. intros [block|]; [|auto with keeps].
  destruct (add_block_to_ranges (w_junk_int w) (rl v) block);
    [|auto with keeps].
  apply keeps_bind; auto with keeps.
Qed.

Lemma keeps_read_next_block w encrypted sb v :
  truthy encrypted = false ->
  keeps (untouched w) (read_next_block w encrypted sb v).
Proof.
  intros Henc. unfold read_next_block. rewrite Henc. auto with keeps.
Qed.

Lemma keeps_step w encrypted sb c v :
  truthy encrypted = false -> keeps (untouched w) (step w encrypted sb c v).
Proof.
  intros Henc. destruct c; cbn [step]; repeat case_match;
    auto using keeps_bind, keeps_flush_head, keeps_read_next_block
      with keeps.
Qed.

Lemma keeps_run_loops w encrypted sb fuel : forall c v,
  truthy encrypted = false ->
  keeps (untouched w) (run_loops w encrypted sb fuel c v).
Proof.
  induction fuel as [|fuel IH]; intros c v Henc.
  - destruct c; cbn [run_loops]; auto with keeps.
  - destruct c; cbn [run_loops]; auto with keeps;
      (apply keeps_bind; [by apply keeps_step|]; intros [c' v']; by apply IH).
Qed.

(** X10: without the encrypted flag a call of [produce_block_map] never
    reads the source file and never seeks or writes on the raw device,
    however it ends: its trace holds no [read], [lseek64] or [write], and
    the device and the file offsets are as before the call. *)
Theorem plain_pass_no_io w blk_dev encrypted :
  truthy encrypted = false ->
  untouched w (snd (produce_block_map w blk_dev encrypted)).
Proof.
  intros Henc.
  assert (Hbody : keeps (untouched w)
                    (produce_block_map_body w blk_dev encrypted)).
  { unfold produce_block_map_body. rewrite Henc.
    apply keeps_bind; [auto with keeps|]. intros mapf.
    apply keeps_bind; [auto with keeps|]. intros [sb|]; [|auto with keeps].
    destruct (st_blksize sb =? 0); [auto with keeps|].
    apply keeps_bind; [auto with keeps|]. intros _.
    apply keeps_bind; [auto with keeps|]. intros fd_ok.
    destruct (negb fd_ok); [auto with keeps|].
    apply keeps_bind; [keeps_emit|]. intros _.
    apply keeps_bind; [auto with keeps|]. intros wfd_ok.
    destruct (negb wfd_ok); [auto with keeps|].
    apply keeps_bind; [by apply keeps_run_loops|]. intros v.
    apply keeps_bind; [auto with keeps|]. intros _.
    destruct (finalized (rl v)) as [ps|]; [|auto with keeps].
    apply keeps_bind; [apply keeps_print_ranges|]. intros _.
    apply keeps_bind; [auto with keeps|]. intros _.
    apply keeps_bind; [auto with keeps|]. intros _.
    apply keeps_bind; auto with keeps. }
  unfold produce_block_map.
  specialize (Hbody (initial_sys w)).
  destruct (produce_block_map_body w blk_dev encrypted (initial_sys w));
    apply Hbody; repeat split; constructor.
Qed.

Lemma plain_pass_no_io_witness :
  untouched small_world (snd (produce_block_map small_world example_dev 0)).
Proof.
  apply (plain_pass_no_io small_world example_dev 0). reflexivity.
Defined.


(** ** Extra properties: find_block_device *)

Lemma mount_matches_cons a b path mp :
  mount_matches (String b path) (String a mp)
  = if Ascii.ascii_dec a b then mount_matches path mp else false.
Proof.
  unfold mount_matches. cbn [String.prefix String.length String.get].
  destruct (Ascii.ascii_dec a b); reflexivity.
Qed.

Lemma mount_matches_exact mp : mount_matches mp mp = true.
Proof.
  induction mp as [|a mp IH]; [reflexivity|].
  rewrite mount_matches_cons. destruct (Ascii.ascii_dec a a); congruence.
Qed.

Lemma mount_matches_below mp rest :
  mount_matches (mp ++ String slash rest) mp = true.
Proof.
  induction mp as [|a mp IH]; [reflexivity|].
  cbn [String.append]. rewrite mount_matches_cons.
  destruct (Ascii.ascii_dec a a); congruence.
Qed.

Lemma mount_matches_inv mp : forall path,
  mount_matches path mp = true ->
  path = mp \/ exists rest, path = (mp ++ String slash rest)%string.
Proof.
  induction mp as [|a mp IH]; intros path H.
  - destruct path as [|c path]; [by left|].
    right. exists path. unfold mount_matches in H. cbn in H.
    apply Ascii.eqb_eq in H. by subst.
  - destruct path as [|b path]; [discriminate|].
    rewrite mount_matches_cons in H.
    destruct (Ascii.ascii_dec a b) as [->|]; [|discriminate].
    destruct (IH _ H) as [->|[rest ->]]; [by left|].
    right. by exists rest.
Qed.

(** The test of lines 127-128 accepts the mount point itself and the
    paths below it. *)
Lemma mount_matches_spec path mp :
  mount_matches path mp = true <->
  path = mp \/ exists rest, path = (mp ++ String slash rest)%string.
Proof.
  split; [apply mount_matches_inv|].
  intros [->|[rest ->]]; [apply mount_matches_exact|apply mount_matches_below].
Qed.

Lemma mount_matches_below_iff path mp :
  mount_matches path mp = true <-> below mp path.
Proof. apply mount_matches_spec. Qed.

Lemma property_get_nonempty p key n value :
  property_get p key EmptyString = (n, value) ->
  truthy n = true ->
  p_property p key = Some value /\ value <> EmptyString.
Proof.
  unfold property_get, truthy. intros H Hn. inversion H; subst; clear H.
  destruct (p_property p key) as [v|]; [|discriminate].
  destruct v as [|a v]; [discriminate|]. cbn. split; [reflexivity|discriminate].
Qed.

Lemma property_get_empty p key n value :
  property_get p key EmptyString = (n, value) ->
  truthy n = false ->
  p_property p key = None \/ p_property p key = Some EmptyString.
Proof.
  unfold property_get, truthy. intros H Hn. inversion H; subst; clear H.
  destruct (p_property p key) as [v|]; [|by left].
  destruct v as [|a v]; [by right|]. cbn in Hn. discriminate.
Qed.

Lemma scan_fstab_crypto p path v recs ea ec mp :
  mount_point v = Some mp -> mount_matches path mp = true ->
  scan_fstab p path (v :: recs) ea ec
  = (Some (blk_device v),
     (if fs_mgr_is_encryptable v then 1 else 0, crypto_state p v)).
Proof.
  intros Hmp Hm. cbn [scan_fstab]. rewrite Hmp, Hm. unfold crypto_state.
  destruct (fs_mgr_is_encryptable v); [|reflexivity].
  unfold property_get, truthy.
  destruct (p_property p "ro.crypto.state") as [st|]; [|reflexivity].
  destruct st as [|a st]; [reflexivity|].
  cbn [String.length Nat.eqb].
  replace (negb (Z.of_nat (S (String.length st)) =? 0)) with true
    by (symmetry; apply negb_true_iff, Z.eqb_neq; lia).
  cbn [andb]. destruct (String.eqb (String a st) "encrypted"); reflexivity.
Qed.

Lemma scan_fstab_skip p path v recs ea ec :
  passed_over path v ->
  scan_fstab p path (v :: recs) ea ec = scan_fstab p path recs ea ec.
Proof.
  intros Hv. cbn [scan_fstab].
  destruct (mount_point v) as [mp|] eqn:Hmp; [|reflexivity].
  destruct (mount_matches path mp) eqn:Hm; [|reflexivity].
  exfalso. apply (Hv mp Hmp). by apply mount_matches_below_iff.
Qed.

Lemma scan_fstab_some p path recs ea ec dev fl :
  scan_fstab p path recs ea ec = (Some dev, fl) ->
  exists pre v mp post,
    recs = pre ++ v :: post /\ Forall (passed_over path) pre /\
    mount_point v = Some mp /\ below mp path /\
    dev = blk_device v /\
    fl = (if fs_mgr_is_encryptable v then 1 else 0, crypto_state p v).
Proof.
  induction recs as [|u recs IH]; [discriminate|]. intros H.
  destruct (mount_point u) as [mp|] eqn:Hmp.
  - destruct (mount_matches path mp) eqn:Hm.
    + rewrite (scan_fstab_crypto p path u recs ea ec mp Hmp Hm) in H.
      inversion H; subst. exists [], u, mp, recs.
      repeat split; auto. by apply mount_matches_below_iff.
    + assert (Hu : passed_over path u).
      { intros mp' Heq Hb. rewrite Hmp in Heq. inversion Heq; subst.
        apply mount_matches_below_iff in Hb. congruence. }
      rewrite scan_fstab_skip in H by exact Hu.
      destruct (IH H) as (pre & v & mp' & post & -> & Hpre & ?).
      exists (u :: pre), v, mp', post. split; [reflexivity|].
      split; [by constructor|]. assumption.
  - assert (Hu : passed_over path u).
    { intros mp' Heq. congruence. }
    rewrite scan_fstab_skip in H by exact Hu.
    destruct (IH H) as (pre & v & mp' & post & -> & Hpre & ?).
    exists (u :: pre), v, mp', post. split; [reflexivity|].
    split; [by constructor|]. assumption.
Qed.

Lemma scan_fstab_first p path pre v mp post ea ec :
  Forall (passed_over path) pre ->
  mount_point v = Some mp -> below mp path ->
  scan_fstab p path (pre ++ v :: post) ea ec
  = (Some (blk_device v),
     (if fs_mgr_is_encryptable v then 1 else 0, crypto_state p v)).
Proof.
  intros Hpre Hmp Hb. induction Hpre as [|u pre Hu _ IH].
  - apply (scan_fstab_crypto p path v post ea ec mp Hmp).
    by apply mount_matches_below_iff.
  - cbn [app]. by rewrite scan_fstab_skip.
Qed.

Lemma scan_fstab_none p path recs ea ec :
  Forall (passed_over path) recs ->
  scan_fstab p path recs ea ec = (None, (ea, ec)).
Proof.
  induction 1 as [|u recs Hu _ IH]; [reflexivity|].
  by rewrite scan_fstab_skip.
Qed.

Lemma scan_fstab_none_inv p path recs ea ec fl :
  scan_fstab p path recs ea ec = (None, fl) ->
  Forall (passed_over path) recs /\ fl = (ea, ec).
Proof.
  induction recs as [|u recs IH]; intros H.
  - inversion H. split; [constructor|reflexivity].
  - destruct (mount_point u) as [mp|] eqn:Hmp.
    + destruct (mount_matches path mp) eqn:Hm.
      * rewrite (scan_fstab_crypto p path u recs ea ec mp Hmp Hm) in H.
        discriminate.
      * assert (Hu : passed_over path u).
        { intros mp' Heq Hb. rewrite Hmp in Heq. inversion Heq; subst.
          apply mount_matches_below_iff in Hb. congruence. }
        rewrite scan_fstab_skip in H by exact Hu.
        destruct (IH H). split; [by constructor|assumption].
    + assert (Hu : passed_over path u) by (intros mp' Heq; congruence).
      rewrite scan_fstab_skip in H by exact Hu.
      destruct (IH H). split; [by constructor|assumption].
Qed.

Lemma find_block_device_fstab p path ea ec hw recs :
  p_property p "ro.hardware" = Some hw -> hw <> EmptyString ->
  p_fstab p ("/fstab." ++ hw) = Some recs ->
  find_block_device p path ea ec = scan_fstab p path recs ea ec.
Proof.
  intros Hhw Hne Hfs. unfold find_block_device, property_get.
  rewrite Hhw. destruct hw as [|a hw]; [congruence|].
  cbn [String.length Nat.eqb]. unfold truthy.
  replace (Z.of_nat (S (String.length hw)) =? 0) with false
    by (symmetry; apply Z.eqb_neq; lia).
  cbn [negb]. by rewrite Hfs.
Qed.

(** X11: [find_block_device] returns a device exactly when
    [ro.hardware] is set, the fstab of that name can be read, and some
    entry has a mount point that is the path or a directory above it.
    The device is then the one of the first such entry in the order of
    the fstab, also when a later entry has a longer mount point;
    [*encryptable] tells whether that entry is encryptable and
    [*encrypted] whether, in addition, [ro.crypto.state] is
    ["encrypted"]. *)
Theorem find_block_device_first_match p path ea ec dev ea' ec' :
  find_block_device p path ea ec = (Some dev, (ea', ec')) <->
  exists hw pre v mp post,
    p_property p "ro.hardware" = Some hw /\ hw <> EmptyString /\
    p_fstab p ("/fstab." ++ hw) = Some (pre ++ v :: post) /\
    Forall (passed_over path) pre /\
    mount_point v = Some mp /\ below mp path /\
    dev = blk_device v /\
    ea' = (if fs_mgr_is_encryptable v then 1 else 0) /\
    ec' = crypto_state p v.
Proof.
  split.
  - intros H. unfold find_block_device in H.
    destruct (property_get p "ro.hardware" EmptyString) as [n hw] eqn:Hget.
    destruct (truthy n) eqn:Hn; [|discriminate].
    cbn [negb] in H.
    destruct (property_get_nonempty _ _ _ _ Hget Hn) as [Hhw Hne].
    destruct (p_fstab p ("/fstab." ++ hw)) as [recs|] eqn:Hfs; [|discriminate].
    destruct (scan_fstab_some _ _ _ _ _ _ _ H)
      as (pre & v & mp & post & -> & Hpre & Hmp & Hb & -> & Hfl).
    inversion Hfl; subst.
    exists hw, pre, v, mp, post. repeat split; auto.
  - intros (hw & pre & v & mp & post & Hhw & Hne & Hfs & Hpre & Hmp & Hb
            & -> & -> & ->).
    rewrite (find_block_device_fstab _ _ _ _ _ _ Hhw Hne Hfs).
    by apply scan_fstab_first with mp.
Qed.

(** X12: [find_block_device] returns NULL exactly when [ro.hardware] is
    unset or empty, the fstab cannot be read, or no entry has a mount
    point on the path; it then leaves [*encryptable] and [*encrypted] as
    it found them. *)
Theorem find_block_device_null p path ea ec :
  (fst (find_block_device p path ea ec) = None <->
   p_property p "ro.hardware" = None \/
   p_property p "ro.hardware" = Some EmptyString \/
   exists hw, p_property p "ro.hardware" = Some hw /\
     match p_fstab p ("/fstab." ++ hw) with
     | None => True
     | Some recs => Forall (passed_over path) recs
     end) /\
  (fst (find_block_device p path ea ec) = None ->
   snd (find_block_device p path ea ec) = (ea, ec)).
Proof.
  unfold find_block_device.
  destruct (property_get p "ro.hardware" EmptyString) as [n hw] eqn:Hget.
  destruct (truthy n) eqn:Hn; cbn [negb].
  - destruct (property_get_nonempty _ _ _ _ Hget Hn) as [Hhw Hne].
    destruct (p_fstab p ("/fstab." ++ hw)) as [recs|] eqn:Hfs.
    + split.
      * split.
        -- intros H. right. right. exists hw. rewrite Hfs. split; [done|].
           destruct (scan_fstab p path recs ea ec) as [r fl] eqn:Hs.
           cbn in H. subst r. by apply scan_fstab_none_inv in Hs as [? _].
        -- intros [H|[H|(hw' & H & Hrecs)]]; try congruence.
           assert (hw' = hw) by congruence. subst hw'. rewrite Hfs in Hrecs.
           by rewrite scan_fstab_none.
      * intros H. destruct (scan_fstab p path recs ea ec) as [r fl] eqn:Hs.
        cbn in H. subst r. by apply scan_fstab_none_inv in Hs as [_ ->].
    + split; [|done]. split; [|done]. intros _. right. right.
      exists hw. by rewrite Hfs.
  - split; [|done]. split; [|done]. intros _.
    destruct (property_get_empty _ _ _ _ Hget Hn); auto.
Qed.

(** X13: a mount point that ends in a slash, the root directory for
    one, matches only itself and paths that repeat the slash: the
    character after the mount point has to be a slash as well. *)
Theorem mount_point_with_slash path q :
  mount_matches path (q ++ String slash EmptyString) = true ->
  path = (q ++ String slash EmptyString)%string \/
  exists rest,
    path = (q ++ String slash (String slash rest))%string.
Proof.
  intros H. apply mount_matches_spec in H as [->|[rest ->]]; [by left|].
  right. exists rest. clear. induction q as [|a q IH]; [reflexivity|].
  cbn [String.append]. by rewrite IH.
Qed.

Lemma mount_point_with_slash_witness :
  "//cache"%string = (EmptyString ++ String slash EmptyString)%string \/
  exists rest,
    "//cache"%string
    = (EmptyString ++ String slash (String slash rest))%string.
Proof.
  apply (mount_point_with_slash "//cache" EmptyString). reflexivity.
Defined.


(** ** Extra properties: parse_recovery_command_file *)

Lemma string_length_app (a b : string) :
  String.length (a ++ b) = (String.length a + String.length b)%nat.
Proof. induction a; cbn; congruence. Qed.

Lemma fgets_split n : forall f temp rest,
  fgets n f = (temp, rest) -> f = (temp ++ rest)%string.
Proof.
  induction n as [|n IH]; intros f temp rest H.
  - cbn in H. inversion H. reflexivity.
  - destruct f as [|c f]; cbn in H; [inversion H; reflexivity|].
    destruct (is_newline c).
    + inversion H. reflexivity.
    + destruct (fgets n f) as [t r] eqn:Hg. inversion H; subst.
      cbn. f_equal. by apply IH.
Qed.

Lemma fgets_line l : forall n rest,
  has_newline l = false -> (String.length l < n)%nat ->
  fgets n (l ++ newline ++ rest) = ((l ++ newline)%string, rest).
Proof.
  induction l as [|c l IH]; intros n rest Hl Hn.
  - destruct n; [cbn in Hn; lia|]. reflexivity.
  - destruct n; [cbn in Hn; lia|]. cbn in Hl.
    apply orb_false_iff in Hl as [Hc Hl].
    cbn [String.append fgets]. rewrite Hc.
    cbn [String.append] in IH. rewrite IH; [reflexivity|assumption|].
    cbn in Hn. lia.
Qed.

Lemma prefix_line p : forall l,
  has_newline p = false ->
  String.prefix p (l ++ newline) = String.prefix p l.
Proof.
  induction p as [|a p IH]; intros l Hp.
  - by destruct l.
  - cbn in Hp. apply orb_false_iff in Hp as [Ha Hp].
    destruct l as [|b l].
    + cbn. destruct (Ascii.ascii_dec a (Ascii.ascii_of_nat 10)) as [->|]; [|done].
      discriminate.
    + cbn. destruct (Ascii.ascii_dec a b); [|done]. by apply IH.
Qed.

Lemma prefix_length p : forall l,
  String.prefix p l = true -> (String.length p <= String.length l)%nat.
Proof.
  induction p as [|a p IH]; intros l H; [cbn; lia|].
  destruct l as [|b l]; [discriminate|]. cbn in H.
  destruct (Ascii.ascii_dec a b); [|discriminate]. cbn. apply IH in H. lia.
Qed.

Lemma string_drop_append n : forall l s,
  (n <= String.length l)%nat ->
  string_drop n (l ++ s) = (string_drop n l ++ s)%string.
Proof.
  induction n as [|n IH]; intros l s H; [by destruct l|].
  destruct l as [|c l]; [cbn in H; lia|]. cbn. apply IH. cbn in H. lia.
Qed.

Lemma has_newline_drop n : forall l,
  has_newline l = false -> has_newline (string_drop n l) = false.
Proof.
  induction n as [|n IH]; intros l H; [by destruct l|].
  destruct l as [|c l]; [done|]. cbn in H. apply orb_false_iff in H as [_ H].
  cbn. by apply IH.
Qed.

Lemma cut_at_newline_line l s :
  has_newline l = false -> cut_at_newline (l ++ newline ++ s) = l.
Proof.
  induction l as [|c l IH]; intros H; [reflexivity|].
  cbn in H. apply orb_false_iff in H as [Hc H]. cbn. rewrite Hc.
  f_equal. by apply IH.
Qed.

Lemma cut_at_newline_clean s : has_newline (cut_at_newline s) = false.
Proof.
  induction s as [|c s IH]; [reflexivity|]. cbn.
  destruct (is_newline c) eqn:Hc; [reflexivity|]. cbn. by rewrite Hc.
Qed.

Lemma has_nul_append (a b : string) :
  has_nul (a ++ b) = has_nul a || has_nul b.
Proof.
  induction a as [|c a IH]; [reflexivity|]. cbn. by rewrite IH, orb_assoc.
Qed.

Lemma has_nul_drop n : forall l,
  has_nul l = false -> has_nul (string_drop n l) = false.
Proof.
  induction n as [|n IH]; intros l H; [by destruct l|].
  destruct l as [|c l]; [done|]. cbn in H. apply orb_false_iff in H as [_ H].
  cbn. by apply IH.
Qed.

Lemma c_string_clean s : has_nul s = false -> c_string s = s.
Proof.
  induction s as [|c s IH]; [reflexivity|]. cbn. intros H.
  apply orb_false_iff in H as [Hc H]. rewrite Hc. f_equal. by apply IH.
Qed.

Lemma c_string_no_nul s : has_nul (c_string s) = false.
Proof.
  induction s as [|c s IH]; [reflexivity|]. cbn.
  destruct (is_nul c) eqn:Hc; [reflexivity|]. cbn. by rewrite Hc.
Qed.

Lemma cut_at_newline_no_nul s :
  has_nul s = false -> has_nul (cut_at_newline s) = false.
Proof.
  induction s as [|c s IH]; [reflexivity|]. cbn. intros H.
  apply orb_false_iff in H as [Hc H].
  destruct (is_newline c); [reflexivity|]. cbn. rewrite Hc. by apply IH.
Qed.

Lemma copy_command_lines ls : forall fuel fn out,
  Forall short_line ls -> (length ls <= fuel)%nat ->
  copy_command fuel true (unlines ls) fn out
  = inr (foldl raw_package fn ls,
         (out ++ unlines (rewrite_line <$> ls))%string).
Proof.
  induction ls as [|l ls IH]; intros fuel fn out Hls Hfuel.
  - destruct fuel; cbn; by rewrite string_app_nil_r.
  - pose proof (Forall_inv Hls) as (Hl & Hnul & Hlen).
    pose proof (Forall_inv_tail Hls) as Hls'.
    destruct fuel as [|fuel]; [cbn in Hfuel; lia|].
    cbn [unlines foldr copy_command].
    change (foldr (fun l acc => (l ++ newline ++ acc)%string) EmptyString ls)
      with (unlines ls).
    rewrite (fgets_line l 1023 (unlines ls) Hl Hlen).
    destruct (l ++ newline)%string as [|c t] eqn:Ht.
    { destruct l; discriminate. }
    rewrite <- Ht. clear c t Ht.
    assert (Hnul' : has_nul (l ++ newline) = false)
      by (by rewrite has_nul_append, Hnul).
    rewrite (c_string_clean _ Hnul').
    rewrite (c_string_clean _ (has_nul_drop _ _ Hnul')).
    rewrite (prefix_line UPDATE_PACKAGE l eq_refl).
    rewrite fmap_cons. cbn [foldl].
    change (unlines (rewrite_line l :: (rewrite_line <$> ls)))
      with (rewrite_line l ++ newline ++ unlines (rewrite_line <$> ls))%string.
    destruct (String.prefix UPDATE_PACKAGE l) eqn:Hp.
    + rewrite string_drop_append by (by apply prefix_length).
      rewrite IH; [|assumption|cbn in Hfuel; lia].
      assert (raw_package fn l
              = Some (string_drop (String.length UPDATE_PACKAGE) l
                        ++ newline)%string) as ->
        by (unfold raw_package; by rewrite Hp).
      assert (rewrite_line l = "--update_package=@" ++ CACHE_BLOCK_MAP)%string
        as -> by (unfold rewrite_line; by rewrite Hp).
      f_equal. f_equal.
      unfold BLOCK_MAP_ARG. rewrite <- !string_app_assoc. reflexivity.
    + rewrite IH; [|assumption|cbn in Hfuel; lia].
      assert (raw_package fn l = fn) as ->
        by (unfold raw_package; by rewrite Hp).
      assert (rewrite_line l = l) as ->
        by (unfold rewrite_line; by rewrite Hp).
      f_equal. f_equal. rewrite <- !string_app_assoc. reflexivity.
Qed.

Lemma raw_package_last ls : forall fn,
  Forall short_line ls ->
  cut_at_newline <$> foldl raw_package fn ls
  = match last (omap package_of ls) with
    | Some name => Some name
    | None => cut_at_newline <$> fn
    end.
Proof.
  induction ls as [|l ls IH]; intros fn Hls; [reflexivity|].
  pose proof (Forall_inv Hls) as (Hl & Hnul & Hlen).
  pose proof (Forall_inv_tail Hls) as Hls'.
  cbn [foldl]. rewrite IH by assumption.
  change (omap package_of (l :: ls))
    with (match package_of l with
          | Some y => y :: omap package_of ls
          | None => omap package_of ls
          end).
  destruct (String.prefix UPDATE_PACKAGE l) eqn:Hp.
  - assert (raw_package fn l
            = Some (string_drop (String.length UPDATE_PACKAGE) l
                      ++ newline)%string) as ->
      by (unfold raw_package; by rewrite Hp).
    assert (package_of l
            = Some (string_drop (String.length UPDATE_PACKAGE) l)) as ->
      by (unfold package_of; by rewrite Hp).
    destruct (omap package_of ls) as [|x xs].
    + change (Some (cut_at_newline
                (string_drop (String.length UPDATE_PACKAGE) l ++ newline))
              = Some (string_drop (String.length UPDATE_PACKAGE) l)).
      f_equal. rewrite <- (string_app_nil_r newline). apply cut_at_newline_line.
      by apply has_newline_drop.
    + change (last (string_drop (String.length UPDATE_PACKAGE) l :: x :: xs))
        with (last (x :: xs)).
      destruct (last (x :: xs)) eqn:Hlast; [reflexivity|].
      apply last_None in Hlast. discriminate.
  - assert (raw_package fn l = fn) as ->
      by (unfold raw_package; by rewrite Hp).
    assert (package_of l = None) as ->
      by (unfold package_of; by rewrite Hp).
    reflexivity.
Qed.

Lemma unlines_length ls : (length ls <= String.length (unlines ls))%nat.
Proof.
  induction ls as [|l ls IH]; [cbn; lia|].
  cbn [unlines foldr length]. rewrite !string_length_app. 
  change (foldr (fun l acc => (l ++ newline ++ acc)%string) EmptyString ls)
      with (unlines ls). cbn. lia.
Qed.

(** X14: on a command file of newline-terminated lines of at most 1022
    characters that holds no NUL, [parse_recovery_command_file] writes
    to the temporary file the same lines in the same order, except that
    every line that starts with [--update_package=] becomes
    [--update_package=@/cache/recovery/block.map]; it returns the rest of
    the last such line, and NULL when there is none.  The command file
    itself is not changed. *)
Theorem parse_rewrites_lines ls c :
  Forall short_line ls -> command c = Some (unlines ls) ->
  parse_recovery_command_file true c
  = inr (last (omap package_of ls),
         {| command := command c;
            command_tmp := Some (unlines (rewrite_line <$> ls)) |}).
Proof.
  intros Hls Hc. unfold parse_recovery_command_file. rewrite Hc.
  rewrite copy_command_lines by (auto using unlines_length).
  rewrite raw_package_last by assumption.
  destruct (last (omap package_of ls)); reflexivity.
Qed.

Lemma parse_rewrites_lines_witness :
  parse_recovery_command_file true example_cache
  = inr (last (omap package_of example_lines),
         {| command := command example_cache;
            command_tmp := Some (unlines (rewrite_line <$> example_lines)) |}).
Proof.
  apply (parse_rewrites_lines example_lines example_cache).
  - repeat constructor; simpl; lia.
  - reflexivity.
Defined.

Lemma fgets_empty n f rest :
  fgets (S n) f = (EmptyString, rest) -> f = EmptyString.
Proof.
  destruct f as [|c f]; [reflexivity|]. cbn.
  destruct (is_newline c); [discriminate|].
  destruct (fgets n f); discriminate.
Qed.

Lemma copy_command_total fuel : forall f fn out,
  (String.length f <= fuel)%nat ->
  (forall raw, fn = Some raw -> has_nul raw = false) ->
  exists fn' out',
    copy_command fuel true f fn out = inr (fn', out') /\
    (forall raw, fn' = Some raw -> has_nul raw = false) /\
    (fn' = None ->
     fn = None /\ (has_nul f = false -> out' = (out ++ f)%string)).
Proof.
  induction fuel as [|fuel IH]; intros f fn out Hfuel Hfn.
  - destruct f; [|cbn in Hfuel; lia]. exists fn, out. split; [reflexivity|].
    split; [exact Hfn|]. intros ->. by rewrite string_app_nil_r.
  - cbn [copy_command].
    destruct (fgets 1023 f) as [temp rest] eqn:Hg.
    pose proof (fgets_split _ _ _ _ Hg) as Hf.
    destruct temp as [|c temp].
    { apply fgets_empty in Hg. subst f. exists fn, out.
      split; [reflexivity|]. split; [exact Hfn|].
      intros ->. by rewrite string_app_nil_r. }
    assert (Hrest : (String.length rest <= fuel)%nat).
    { subst f. rewrite string_length_app in Hfuel. cbn in Hfuel. lia. }
    destruct (String.prefix UPDATE_PACKAGE (c_string (String c temp)))
      eqn:Hp.
    + destruct (IH rest
                  (Some (c_string
                           (string_drop (String.length UPDATE_PACKAGE)
                              (String c temp))))
                  (out ++ BLOCK_MAP_ARG)%string Hrest)
        as (fn' & out' & -> & Hraw & Hnone).
      { intros raw Hraw. inversion Hraw. apply c_string_no_nul. }
      exists fn', out'. split; [reflexivity|]. split; [exact Hraw|].
      intros Hnil. destruct (Hnone Hnil) as [? _]. discriminate.
    + destruct (IH rest fn (out ++ c_string (String c temp))%string
                  Hrest Hfn)
        as (fn' & out' & -> & Hraw & Hnone).
      exists fn', out'. split; [reflexivity|]. split; [exact Hraw|].
      intros Hnil. destruct (Hnone Hnil) as [-> Hout].
      split; [reflexivity|]. intros Hnul. subst f.
      rewrite has_nul_append in Hnul.
      apply orb_false_iff in Hnul as [Hnt Hnr].
      rewrite (Hout Hnr), (c_string_clean _ Hnt).
      by rewrite <- string_app_assoc.
Qed.

Lemma copy_command_halts fuel : forall fo f fn out r,
  copy_command fuel fo f fn out = inl r -> r = Fault \/ r = OutOfFuel.
Proof.
  induction fuel as [|fuel IH]; intros fo f fn out r H.
  - cbn [copy_command] in H. destruct (fgets 1023 f) as [[|c temp] rest];
      [discriminate|]. inversion H. by right.
  - cbn [copy_command] in H. destruct (fgets 1023 f) as [[|c temp] rest];
      [discriminate|].
    destruct (String.prefix UPDATE_PACKAGE (c_string (String c temp)));
      (destruct fo; [eauto|inversion H; by left]).
Qed.

Lemma copy_command_no_stream f fn out :
  copy_command (String.length f) false f fn out = inl Fault \/
  copy_command (String.length f) false f fn out = inr (fn, out).
Proof.
  destruct f as [|c f]; [by right|]. left.
  cbn [String.length copy_command].
  destruct (fgets 1023 (String c f)) as [[|c' temp] rest] eqn:Hg.
  { apply fgets_empty in Hg. discriminate. }
  destruct (String.prefix UPDATE_PACKAGE (c_string (String c' temp)));
    reflexivity.
Qed.

Lemma parse_keeps_command fo c fn c' :
  parse_recovery_command_file fo c = inr (fn, c') -> command c' = command c.
Proof.
  unfold parse_recovery_command_file. intros H.
  destruct (command c) as [f|]; [|discriminate].
  destruct (copy_command (String.length f) fo f None EmptyString)
    as [r|[fn0 out]]; [discriminate|].
  destruct fo; [|discriminate]. inversion H; subst. reflexivity.
Qed.

Lemma fopen_tmp_w_command ok c : command (fopen_tmp_w ok c) = command c.
Proof. by destruct ok. Qed.

Lemma parse_halts fo c r c' :
  parse_recovery_command_file fo c = inl (r, c') ->
  (r = Fault \/ r = OutOfFuel) /\ command c' = command c.
Proof.
  unfold parse_recovery_command_file. cbv zeta. intros H.
  destruct (command c) as [f|] eqn:Hcmd.
  2: { inversion H; subst. rewrite fopen_tmp_w_command. auto. }
  destruct (copy_command (String.length f) fo f None EmptyString)
    as [r0|[fn0 out]] eqn:Hc.
  - inversion H; subst. rewrite fopen_tmp_w_command.
    apply copy_command_halts in Hc. auto.
  - destruct fo; [discriminate|]. inversion H; subst. auto.
Qed.

(** X15: on any command file that exists, whatever the length of its
    lines and whatever bytes it holds, [parse_recovery_command_file]
    returns within the bound of its loop and leaves the command file as
    it is; the name it returns holds neither a newline nor a NUL, and
    when it returns NULL for a file that holds no NUL the temporary file
    is a copy of the command file. *)
Theorem parse_any_command_file c f :
  command c = Some f ->
  exists fn out,
    parse_recovery_command_file true c
    = inr (fn, {| command := Some f; command_tmp := Some out |}) /\
    (forall name, fn = Some name ->
       has_newline name = false /\ has_nul name = false) /\
    (fn = None -> has_nul f = false -> out = f).
Proof.
  intros Hc. unfold parse_recovery_command_file. rewrite Hc.
  destruct (copy_command_total (String.length f) f None EmptyString
              (le_n _)) as (fn & out & -> & Hraw & Hnone); [discriminate|].
  exists (cut_at_newline <$> fn), out. split; [reflexivity|]. split.
  - intros name Hname. destruct fn as [raw|]; [|discriminate].
    inversion Hname. split; [apply cut_at_newline_clean|].
    apply cut_at_newline_no_nul, (Hraw raw eq_refl).
  - intros Hfn. destruct fn; [discriminate|].
    by destruct (Hnone eq_refl) as [_ Hout].
Qed.

Lemma parse_any_command_file_witness :
  exists fn out,
    parse_recovery_command_file true example_cache
    = inr (fn, {| command := Some (unlines example_lines);
                  command_tmp := Some out |}) /\
    (forall name, fn = Some name ->
       has_newline name = false /\ has_nul name = false) /\
    (fn = None -> has_nul (unlines example_lines) = false ->
     out = unlines example_lines).
Proof.
  apply (parse_any_command_file example_cache (unlines example_lines)).
  reflexivity.
Defined.

Lemma rewrite_line_short l : short_line l -> short_line (rewrite_line l).
Proof.
  intros Hl. unfold rewrite_line.
  destruct (String.prefix UPDATE_PACKAGE l); [|assumption].
  split; [reflexivity|]. split; [reflexivity|]. vm_compute. lia.
Qed.

Lemma package_of_rewrite_line l :
  package_of (rewrite_line l)
  = (fun _ => ("@" ++ CACHE_BLOCK_MAP)%string) <$> package_of l.
Proof.
  unfold package_of, rewrite_line.
  destruct (String.prefix UPDATE_PACKAGE l) eqn:Hp; [reflexivity|].
  by rewrite Hp.
Qed.

Lemma rewrite_line_twice l : rewrite_line (rewrite_line l) = rewrite_line l.
Proof.
  destruct (String.prefix UPDATE_PACKAGE l) eqn:Hp.
  - assert (rewrite_line l = "--update_package=@" ++ CACHE_BLOCK_MAP)%string
      as -> by (unfold rewrite_line; by rewrite Hp).
    reflexivity.
  - assert (rewrite_line l = l) as ->
      by (unfold rewrite_line; by rewrite Hp).
    unfold rewrite_line; by rewrite Hp.
Qed.

Lemma omap_package_rewrite (ls : list string) :
  omap package_of (rewrite_line <$> ls)
  = (fun _ => ("@" ++ CACHE_BLOCK_MAP)%string) <$> omap package_of ls.
Proof.
  induction ls as [|l ls IH]; [reflexivity|].
  rewrite fmap_cons.
  change (omap package_of (rewrite_line l :: (rewrite_line <$> ls)))
    with (match package_of (rewrite_line l) with
          | Some y => y :: omap package_of (rewrite_line <$> ls)
          | None => omap package_of (rewrite_line <$> ls)
          end).
  change (omap package_of (l :: ls))
    with (match package_of l with
          | Some y => y :: omap package_of ls
          | None => omap package_of ls
          end).
  rewrite package_of_rewrite_line, IH.
  destruct (package_of l); reflexivity.
Qed.

(** X16: on a command file that an earlier call has rewritten from
    short lines without NUL, the function writes the same text again
    and returns the name of the block map,
    [@/cache/recovery/block.map], as the package. *)
Theorem parse_rewritten_file ls c :
  Forall short_line ls ->
  command c = Some (unlines (rewrite_line <$> ls)) ->
  parse_recovery_command_file true c
  = inr ((fun _ => ("@" ++ CACHE_BLOCK_MAP)%string)
           <$> last (omap package_of ls),
         {| command := command c; command_tmp := command c |}).
Proof.
  intros Hls Hc. unfold parse_recovery_command_file. rewrite Hc.
  assert (Hls' : Forall short_line (rewrite_line <$> ls)).
  { apply Forall_fmap. eapply Forall_impl; [exact Hls|].
    intros l. apply rewrite_line_short. }
  rewrite copy_command_lines by (auto using unlines_length).
  rewrite raw_package_last by assumption.
  rewrite omap_package_rewrite, fmap_last.
  rewrite <- list_fmap_compose.
  rewrite (list_fmap_ext (rewrite_line ∘ rewrite_line) rewrite_line ls)
    by (intros; apply rewrite_line_twice).
  destruct (last (omap package_of ls)); reflexivity.
Qed.

Lemma parse_rewritten_file_witness :
  parse_recovery_command_file true rewritten_cache
  = inr ((fun _ => ("@" ++ CACHE_BLOCK_MAP)%string)
           <$> last (omap package_of example_lines),
         {| command := command rewritten_cache;
            command_tmp := command rewritten_cache |}).
Proof.
  apply (parse_rewritten_file example_lines rewritten_cache).
  - repeat constructor; simpl; lia.
  - reflexivity.
Defined.


(** ** Extra properties: main *)

Lemma find_block_device_some p path ea ec dev ea' ec' :
  find_block_device p path ea ec = (Some dev, (ea', ec')) ->
  exists v mp,
    mount_point v = Some mp /\ below mp path /\ dev = blk_device v /\
    ea' = (if fs_mgr_is_encryptable v then 1 else 0) /\
    ec' = crypto_state p v.
Proof.
  intros H. unfold find_block_device in H.
  destruct (property_get p "ro.hardware" EmptyString) as [n hw].
  destruct (negb (truthy n)); [discriminate|].
  destruct (p_fstab p ("/fstab." ++ hw)) as [recs|]; [|discriminate].
  destruct (scan_fstab_some _ _ _ _ _ _ _ H)
    as (pre & v & mp & post & -> & Hpre & Hmp & Hb & -> & Hfl).
  inversion Hfl; subst. exists v, mp. repeat split; auto.
Qed.

Lemma rename_tmp_gone c : command_tmp (snd (rename_tmp c)) = None.
Proof. unfold rename_tmp. by destruct (command_tmp c) eqn:H. Qed.

Lemma write_map_file_block_map w text c :
  write_map_file w CACHE_BLOCK_MAP text c = c.
Proof. reflexivity. Qed.


Lemma convert_cases m input_path map_file c :
  convert_outcome m input_path map_file c (convert m input_path map_file c).
Proof.
  unfold convert.
  destruct (m_realpath m input_path) as [path|] eqn:Hrp;
    [|by apply ConvNoPath].
  destruct (find_block_device (m_platform m) path (m_encryptable m)
              (m_encrypted m)) as [[dev|] [ea ec]] eqn:Hfind.
  2: { apply ConvNoDevice with path; [assumption|]. by rewrite Hfind. }
  destruct (find_block_device_some _ _ _ _ _ _ _ Hfind)
    as (v & mp & _ & _ & _ & Hea & _).
  destruct (fs_mgr_is_encryptable v); subst ea.
  - change (negb (truthy 1)) with false. cbv iota zeta.
    destruct (produce_block_map (m_world m path map_file) dev ec)
      as [r s] eqn:Hpass.
    cbn [fst]. destruct r as [code| |].
    + destruct (code =? 0) eqn:Hcode.
      * apply Z.eqb_eq in Hcode. subst code.
        change (map_file_text (m_flushed m) (Returned 0, s))
          with (map_text (trace s)).
        pose proof (ConvPassed m input_path map_file c path dev ec s
                      Hrp Hfind Hpass) as H.
        revert H.
        destruct (rename_tmp
                    (write_map_file (m_world m path map_file) map_file
                       (map_text (trace s)) c)) as [ok c2].
        intros H. exact H.
      * apply Z.eqb_neq in Hcode.
        apply (ConvFailed m input_path map_file c path dev ec
                 (Returned code) s Hrp Hfind Hpass). congruence.
    + by apply (ConvFailed m input_path map_file c path dev ec Fault s).
    + by apply (ConvFailed m input_path map_file c path dev ec OutOfFuel s).
  - change (negb (truthy 0)) with true. cbv iota.
    by apply ConvLeftAlone with path dev ec.
Qed.

Lemma main_cases m argv c : main_outcome m argv c (main m argv c).
Proof.
  unfold main.
  destruct (Z.eqb_spec (Z.of_nat (length argv)) 1) as [H1|H1];
    destruct (Z.eqb_spec (Z.of_nat (length argv)) 3) as [H3|H3];
    cbn [negb andb]; try lia.
  - assert (Hlen : length argv = 1%nat) by lia.
    destruct (parse_recovery_command_file (m_fopen_tmp m) c)
      as [[r c0]|[[input|] c']] eqn:Hparse.
    + by apply MainNoStream.
    + eapply MainCommand; eauto using convert_cases.
    + by apply MainNoPackage.
  - apply MainArguments; [lia|apply convert_cases].
  - apply MainUsage; lia.
Qed.


Lemma convert_result m input_path map_file c out :
  convert_outcome m input_path map_file c out ->
  fst (fst out) <> Returned 2.
Proof.
  destruct 1; cbn; try discriminate. destruct r; discriminate.
Qed.

(** X17: [main] returns 2 exactly when it is called with a number of
    arguments other than none or two, and then it has touched nothing. *)
Theorem main_usage m argv c :
  (length argv <> 1%nat /\ length argv <> 3%nat ->
   main m argv c = (Returned 2, c, [])) /\
  (fst (fst (main m argv c)) = Returned 2 ->
   length argv <> 1%nat /\ length argv <> 3%nat).
Proof.
  split.
  - intros [H1 H3]. unfold main.
    destruct (Z.eqb_spec (Z.of_nat (length argv)) 1);
      destruct (Z.eqb_spec (Z.of_nat (length argv)) 3);
      cbn [negb andb]; try lia. reflexivity.
  - intros H. destruct (main_cases m argv c) as [| out ? Hc | r c0 ? Hp | |
                                                   input c' out ? ? Hc].
    + by split.
    + by apply convert_result in Hc.
    + cbn in H. subst r. apply parse_halts in Hp as [[?|?] _]; discriminate.
    + discriminate.
    + by apply convert_result in Hc.
Qed.


(** With the command file as map file, a run with two arguments whose
    pass fails leaves the header of the block map in the command file. *)
Example map_file_over_command_file :
  fst (fst clobbering_run) = Returned 1 /\
  command (snd (fst clobbering_run))
  = Some (header "/dev/block/userdata" small_stat) /\
  command (snd (fst clobbering_run)) <> command example_cache.
Proof.
  split; [vm_compute; reflexivity|].
  split; [vm_compute; reflexivity|]. vm_compute. discriminate.
Qed.



Lemma convert_success m input_path map_file c c' acts :
  convert_outcome m input_path map_file c (Returned 0, c', acts) ->
  command_tmp c' = None /\
  exists first ok,
    acts = first :: ActRename RECOVERY_COMMAND_FILE_TMP
                      RECOVERY_COMMAND_FILE ok :: reboot_to_recovery /\
    (first = ActUnlink RECOVERY_COMMAND_FILE_TMP \/
     exists path mf dev enc s,
       first = ActPass path mf dev enc (Returned 0, s)).
Proof.
  intros H. inversion H; subst.
  - split; [reflexivity|].
    exists (ActUnlink RECOVERY_COMMAND_FILE_TMP), false. auto.
  - split; [apply rename_tmp_gone|].
    exists (ActPass path map_file blk_dev encrypted (Returned 0, s)),
           (fst (rename_tmp
                   (write_map_file (m_world m path map_file) map_file
                      (map_text (trace s)) c))).
    split; [reflexivity|]. right. eauto 6.
  - destruct r; congruence.
Qed.

Lemma triple_fst_eq {A B C} (p : A * B * C) (a : A) :
  fst (fst p) = a -> p = (a, snd (fst p), snd p).
Proof. intros <-. destruct p as [[? ?] ?]; reflexivity. Qed.

(** X19: a run of [main] that returns 0 has unlinked the temporary
    command file or completed the pass, has then called [rename] on the
    temporary command file and has asked for the reboot to recovery.  It
    does so with two arguments as well: [do_reboot], which line 321
    clears for that case, is never read. *)
Theorem main_success_reboots m argv c c' acts :
  main m argv c = (Returned 0, c', acts) ->
  command_tmp c' = None /\
  exists first ok,
    acts = first :: ActRename RECOVERY_COMMAND_FILE_TMP
                      RECOVERY_COMMAND_FILE ok :: reboot_to_recovery /\
    (first = ActUnlink RECOVERY_COMMAND_FILE_TMP \/
     exists path mf dev enc s,
       first = ActPass path mf dev enc (Returned 0, s)).
Proof.
  intros Hmain. pose proof (main_cases m argv c) as H. rewrite Hmain in H.
  inversion H as [| out ? Hc | r0 c0 ? Hp | c0 ? Hp | input c0 out ? Hp Hc];
    subst.
  - by apply convert_success in Hc.
  - apply parse_halts in Hp as [[?|?] _]; discriminate.
  - by apply convert_success in Hc.
Qed.

Lemma main_success_reboots_witness :
  command_tmp (snd (fst debug_run)) = None /\
  exists first ok,
    snd debug_run
    = first :: ActRename RECOVERY_COMMAND_FILE_TMP
                 RECOVERY_COMMAND_FILE ok :: reboot_to_recovery /\
    (first = ActUnlink RECOVERY_COMMAND_FILE_TMP \/
     exists path mf dev enc s,
       first = ActPass path mf dev enc (Returned 0, s)).
Proof.
  apply (main_success_reboots example_machine
           ["uncrypt"; "/data/update.zip"; "/tmp/block.map"]%string
           example_cache (snd (fst debug_run)) (snd debug_run)).
  unfold debug_run. apply triple_fst_eq. vm_compute. reflexivity.
Defined.



Lemma main_one_argument m prog c input_path c' :
  parse_recovery_command_file (m_fopen_tmp m) c = inr (Some input_path, c') ->
  main m [prog] c = convert m input_path CACHE_BLOCK_MAP c'.
Proof.
  intros Hp. unfold main. cbn [length].
  change (negb (Z.of_nat 1 =? 1) && negb (Z.of_nat 1 =? 3)) with false.
  change (Z.of_nat 1 =? 3) with false. cbv iota. by rewrite Hp.
Qed.

Lemma convert_passed m input_path map_file c path dev enc :
  m_realpath m input_path = Some path ->
  find_block_device (m_platform m) path (m_encryptable m) (m_encrypted m)
  = (Some dev, (1, enc)) ->
  fst (produce_block_map (m_world m path map_file) dev enc) = Returned 0 ->
  convert m input_path map_file c
  = (Returned 0,
     snd (rename_tmp
            (write_map_file (m_world m path map_file) map_file
               (map_text
                  (trace (snd (produce_block_map (m_world m path map_file)
                                 dev enc)))) c)),
     ActPass path map_file dev enc
       (produce_block_map (m_world m path map_file) dev enc)
     :: ActRename RECOVERY_COMMAND_FILE_TMP RECOVERY_COMMAND_FILE
          (fst (rename_tmp
                  (write_map_file (m_world m path map_file) map_file
                     (map_text
                        (trace (snd (produce_block_map
                                       (m_world m path map_file) dev enc))))
                     c)))
     :: reboot_to_recovery).
Proof.
  intros Hrp Hfind Hpass. unfold convert. rewrite Hrp, Hfind.
  change (negb (truthy 1)) with false. cbv iota zeta.
  unfold map_file_text. rewrite Hpass.
  change (0 =? 0) with true. cbv iota.
  by destruct (rename_tmp _).
Qed.



(** X21: when the package named by the command file lies on a volume
    that is not encryptable, [main] does not call [produce_block_map]:
    it unlinks the temporary command file, so that the [rename] that
    follows fails and the command file stays as it was, and asks for
    the reboot to recovery. *)
Theorem main_leaves_other_volumes m prog c input c1 path dev enc :
  parse_recovery_command_file (m_fopen_tmp m) c = inr (Some input, c1) ->
  m_realpath m input = Some path ->
  find_block_device (m_platform m) path (m_encryptable m) (m_encrypted m)
  = (Some dev, (0, enc)) ->
  main m [prog] c
  = (Returned 0, {| command := command c; command_tmp := None |},
     ActUnlink RECOVERY_COMMAND_FILE_TMP
     :: ActRename RECOVERY_COMMAND_FILE_TMP RECOVERY_COMMAND_FILE false
     :: reboot_to_recovery).
Proof.
  intros Hp Hrp Hfind. rewrite (main_one_argument m prog c input c1 Hp).
  unfold convert. rewrite Hrp, Hfind.
  change (negb (truthy 0)) with true. cbv iota.
  unfold rename_tmp, unlink_tmp. cbn [command command_tmp].
  rewrite (parse_keeps_command _ _ _ _ Hp). reflexivity.
Qed.

Lemma main_leaves_other_volumes_witness :
  main example_machine ["uncrypt"%string] cache_package
  = (Returned 0,
     {| command := command cache_package; command_tmp := None |},
     ActUnlink RECOVERY_COMMAND_FILE_TMP
     :: ActRename RECOVERY_COMMAND_FILE_TMP RECOVERY_COMMAND_FILE false
     :: reboot_to_recovery).
Proof.
  apply (main_leaves_other_volumes example_machine "uncrypt" cache_package
           "/cache/update.zip"
           {| command := command cache_package;
              command_tmp :=
                Some (unlines ["--update_package=@/cache/recovery/block.map"%string]) |}
           "/cache/update.zip" "/dev/block/cache" 0).
  - vm_compute. reflexivity.
  - reflexivity.
  - vm_compute. reflexivity.
Defined.

(** X22: an ordinary run.  When the command file consists of short
    lines, the package that its last [--update_package=] line names lies
    on an encryptable volume and [produce_block_map] returns 0, [main]
    returns 0 after it has replaced the command file by its rewritten
    copy, in which the package lines name the block map, and has asked
    for the reboot to recovery; the map file it passes is
    [/cache/recovery/block.map]. *)
Theorem main_rewrites_command_file m prog c ls name path dev enc s :
  m_fopen_tmp m = true ->
  command c = Some (unlines ls) -> Forall short_line ls ->
  last (omap package_of ls) = Some name ->
  m_realpath m name = Some path ->
  find_block_device (m_platform m) path (m_encryptable m) (m_encrypted m)
  = (Some dev, (1, enc)) ->
  produce_block_map (m_world m path CACHE_BLOCK_MAP) dev enc
  = (Returned 0, s) ->
  main m [prog] c
  = (Returned 0,
     {| command := Some (unlines (rewrite_line <$> ls));
        command_tmp := None |},
     [ActPass path CACHE_BLOCK_MAP dev enc (Returned 0, s);
      ActRename RECOVERY_COMMAND_FILE_TMP RECOVERY_COMMAND_FILE true]
     ++ reboot_to_recovery).
Proof.
  intros Hfo Hc Hls Hlast Hrp Hfind Hpass.
  assert (Hparse : parse_recovery_command_file (m_fopen_tmp m) c
            = inr (Some name,
                   {| command := command c;
                      command_tmp := Some (unlines (rewrite_line <$> ls)) |})).
  { rewrite Hfo. unfold parse_recovery_command_file. rewrite Hc.
    rewrite copy_command_lines by (auto using unlines_length).
    rewrite raw_package_last by assumption. by rewrite Hlast. }
  rewrite (main_one_argument m prog c name _ Hparse).
  rewrite (convert_passed m name CACHE_BLOCK_MAP _ path dev enc Hrp Hfind)
    by (by rewrite Hpass).
  rewrite write_map_file_block_map, Hpass. reflexivity.
Qed.

Lemma main_rewrites_command_file_witness :
  main example_machine ["uncrypt"%string] example_cache
  = (Returned 0,
     {| command := Some (unlines (rewrite_line <$> example_lines));
        command_tmp := None |},
     [ActPass "/data/update.zip" CACHE_BLOCK_MAP "/dev/block/userdata" 1
        (Returned 0,
         snd (produce_block_map small_world "/dev/block/userdata" 1));
      ActRename RECOVERY_COMMAND_FILE_TMP RECOVERY_COMMAND_FILE true]
     ++ reboot_to_recovery).
Proof.
  apply (main_rewrites_command_file example_machine "uncrypt" example_cache
           example_lines "/data/update.zip" "/data/update.zip"
           "/dev/block/userdata" 1
           (snd (produce_block_map small_world "/dev/block/userdata" 1))).
  - reflexivity.
  - reflexivity.
  - repeat constructor; simpl; lia.
  - vm_compute. reflexivity.
  - reflexivity.
  - vm_compute. reflexivity.
  - apply pair_fst_eq. vm_compute. reflexivity.
Defined.

(** X23: called without arguments when the command file does not exist,
    or when the temporary command file cannot be opened for writing,
    [main] reads from or writes to a NULL stream, which is never
    checked: it faults, and neither returns 1 nor asks for the reboot.
    The command file is as before; the temporary file is empty if it
    could be opened. *)
Theorem main_without_stream m prog c :
  command c = None \/ m_fopen_tmp m = false ->
  main m [prog] c = (Fault, fopen_tmp_w (m_fopen_tmp m) c, []).
Proof.
  intros H. unfold main. cbn [length].
  change (negb (Z.of_nat 1 =? 1) && negb (Z.of_nat 1 =? 3)) with false.
  change (Z.of_nat 1 =? 3) with false. cbv iota.
  assert (Hp : parse_recovery_command_file (m_fopen_tmp m) c
               = inl (Fault, fopen_tmp_w (m_fopen_tmp m) c)).
  { unfold parse_recovery_command_file. cbv zeta.
    destruct (command c) as [f|] eqn:Hc; [|reflexivity].
    destruct H as [H|H]; [discriminate|]. rewrite H.
    destruct (copy_command_no_stream f None EmptyString) as [-> | ->];
      reflexivity. }
  by rewrite Hp.
Qed.

Lemma main_without_stream_witness :
  main example_machine ["uncrypt"%string]
    {| command := None; command_tmp := None |}
  = (Fault,
     fopen_tmp_w (m_fopen_tmp example_machine)
       {| command := None; command_tmp := None |}, []).
Proof.
  apply (main_without_stream example_machine "uncrypt"
           {| command := None; command_tmp := None |}).
  left. reflexivity.
Defined.

(** ** Extra properties: the end of the file and failed runs *)

(** X24: [read] returning 0 at the end of the file is taken neither as an
    error nor as the end of the data: when the file is shorter than
    [stat] reported and no [read] fails, the loop that fills a buffer
    goes on reading for ever; within any bound on its turns it has not
    ended, and every turn was a [read] that returned 0. *)
Theorem read_block_spins_at_eof w sb so_far pos : forall fuel buf s,
  0 <= so_far < wrap_size (st_blksize sb) ->
  0 <= pos < wrap_size (st_size sb) ->
  Z.of_nat (length (w_file w)) <= fd_pos s ->
  (forall k, w_read w k <> None) ->
  exists s',
    read_block w fuel sb buf so_far pos s = Halt OutOfFuel s' /\
    trace s'
    = trace s
      ++ replicate fuel (EvRead (size_sub (st_blksize sb) so_far) (Some 0)).
Proof.
  induction fuel as [|fuel IH]; intros buf s Hso Hpos Heof Hread.
  - cbn [read_block].
    destruct (Z.ltb_spec so_far (wrap_size (st_blksize sb))); [|lia].
    destruct (Z.ltb_spec pos (wrap_size (st_size sb))); [|lia].
    exists s. split; [reflexivity|]. cbn. by rewrite app_nil_r.
  - cbn [read_block].
    destruct (Z.ltb_spec so_far (wrap_size (st_blksize sb))); [|lia].
    destruct (Z.ltb_spec pos (wrap_size (st_size sb))); [|lia].
    cbn [andb]. rewrite bind_unfold. unfold sys_read.
    destruct (w_read w (reads s)) as [c|] eqn:Hc; [|by apply Hread in Hc].
    rewrite drop_ge by lia. rewrite take_nil. cbn [length].
    change (Z.of_nat 0) with 0.
    assert (Hwrap : forall x y, 0 <= x < wrap_size y -> size_add x 0 = x).
    { intros x y Hx. unfold size_add, wrap_size in *. rewrite Z.add_0_r.
      apply Z.mod_small. pose proof (Z.mod_pos_bound y (2 ^ 64)). lia. }
    rewrite (Hwrap so_far (st_blksize sb) Hso), (Hwrap pos (st_size sb) Hpos).
    edestruct (IH (blit buf so_far [])) as (s' & -> & Htr);
      [exact Hso|exact Hpos| |exact Hread|].
    { cbn [fd_pos]. lia. }
    exists s'. split; [reflexivity|]. rewrite Htr. cbn [trace replicate].
    rewrite <- app_assoc. reflexivity.
Qed.

Lemma read_block_spins_at_eof_witness :
  exists s',
    read_block header_world 7 header_stat [] 0 0 (initial_sys header_world)
    = Halt OutOfFuel s' /\
    trace s'
    = trace (initial_sys header_world)
      ++ replicate 7 (EvRead (size_sub (st_blksize header_stat) 0) (Some 0)).
Proof.
  apply (read_block_spins_at_eof header_world header_stat 0 0 7 []
           (initial_sys header_world)).
  - split; [lia|reflexivity].
  - split; [lia|reflexivity].
  - simpl. lia.
  - intros k. discriminate.
Defined.

Lemma parse_leaves_temporary_file fo c fn c' :
  parse_recovery_command_file fo c = inr (fn, c') ->
  is_Some (command_tmp c').
Proof.
  unfold parse_recovery_command_file. intros H.
  destruct (command c) as [f|]; [|discriminate].
  destruct (copy_command (String.length f) fo f None EmptyString)
    as [r|[fn0 out]]; [discriminate|].
  destruct fo; [|discriminate]. inversion H; subst. by eexists.
Qed.

(** X25: when [produce_block_map] fails, [main] returns 1 at once: it
    does not rename the temporary command file, which stays in
    [/cache/recovery] beside the unchanged command file, and it does not
    ask for the reboot. *)
Theorem main_failed_pass m prog c input c1 path dev enc code s :
  parse_recovery_command_file (m_fopen_tmp m) c = inr (Some input, c1) ->
  m_realpath m input = Some path ->
  find_block_device (m_platform m) path (m_encryptable m) (m_encrypted m)
  = (Some dev, (1, enc)) ->
  produce_block_map (m_world m path CACHE_BLOCK_MAP) dev enc
  = (Returned code, s) ->
  code <> 0 ->
  main m [prog] c
  = (Returned 1, c1,
     [ActPass path CACHE_BLOCK_MAP dev enc (Returned code, s)]) /\
  command c1 = command c /\ is_Some (command_tmp c1).
Proof.
  intros Hp Hrp Hfind Hpass Hcode.
  split; [|split; [by apply parse_keeps_command in Hp
                  |by apply parse_leaves_temporary_file in Hp]].
  rewrite (main_one_argument m prog c input c1 Hp).
  unfold convert. rewrite Hrp, Hfind.
  change (negb (truthy 1)) with false. cbv iota zeta. rewrite Hpass.
  cbn [fst]. destruct (Z.eqb_spec code 0); [contradiction|reflexivity].
Qed.

Lemma main_failed_pass_witness :
  main failing_machine ["uncrypt"%string] example_cache
  = (Returned 1, rewritten_tmp,
     [ActPass "/data/update.zip" CACHE_BLOCK_MAP "/dev/block/userdata" 1
        (Returned (-1),
         snd (produce_block_map unmapped_world "/dev/block/userdata" 1))]) /\
  command rewritten_tmp = command example_cache /\
  is_Some (command_tmp rewritten_tmp).
Proof.
  apply (main_failed_pass failing_machine "uncrypt" example_cache
           "/data/update.zip" rewritten_tmp "/data/update.zip"
           "/dev/block/userdata" 1 (-1)
           (snd (produce_block_map unmapped_world "/dev/block/userdata" 1))).
  - vm_compute. reflexivity.
  - reflexivity.
  - vm_compute. reflexivity.
  - apply pair_fst_eq. vm_compute. reflexivity.
  - discriminate.
Defined.

Lemma rewrite_line_none (ls : list string) :
  omap package_of ls = [] -> rewrite_line <$> ls = ls.
Proof.
  induction ls as [|l ls IH]; [reflexivity|]. intros H.
  change (omap package_of (l :: ls))
    with (match package_of l with
          | Some y => y :: omap package_of ls
          | None => omap package_of ls
          end) in H.
  rewrite fmap_cons. unfold package_of at 1 in H. unfold rewrite_line at 1.
  destruct (String.prefix UPDATE_PACKAGE l); [discriminate|].
  by rewrite IH.
Qed.

(** X26: when the command file, made of short lines, names no update
    package, [main] asks for the reboot to recovery and returns 1; the
    command file is unchanged and the temporary command file, a copy of
    it, is left behind. *)
Theorem main_without_package m prog ls c :
  m_fopen_tmp m = true ->
  command c = Some (unlines ls) -> Forall short_line ls ->
  omap package_of ls = [] ->
  main m [prog] c
  = (Returned 1, {| command := command c; command_tmp := command c |},
     reboot_to_recovery).
Proof.
  intros Hfo Hc Hls Hnone. unfold main. cbn [length].
  change (negb (Z.of_nat 1 =? 1) && negb (Z.of_nat 1 =? 3)) with false.
  change (Z.of_nat 1 =? 3) with false. cbv iota.
  rewrite Hfo. unfold parse_recovery_command_file. rewrite Hc.
  rewrite copy_command_lines by (auto using unlines_length).
  rewrite raw_package_last by assumption.
  rewrite Hnone, rewrite_line_none by assumption. reflexivity.
Qed.

Lemma main_without_package_witness :
  main example_machine ["uncrypt"%string] wipe_cache
  = (Returned 1,
     {| command := command wipe_cache; command_tmp := command wipe_cache |},
     reboot_to_recovery).
Proof.
  apply (main_without_package example_machine "uncrypt"
           ["--wipe_data"; "--locale=en_US"]%string wipe_cache).
  - reflexivity.
  - reflexivity.
  - repeat constructor; simpl; lia.
  - reflexivity.
Defined.

(** ** A call in which no system call fails *)

Lemma keeps_nf_emit e : ~ failure e -> keeps no_failure (emit e).
Proof.
  intros He s Hs. unfold no_failure in *. cbn.
  apply Forall_app_2; [exact Hs|]. by constructor.
Qed.

Lemma keeps_nf_sys_read w count :
  (forall k, w_read w k <> None) -> keeps no_failure (sys_read w count).
Proof.
  intros Hread s Hs. unfold sys_read.
  destruct (w_read w (reads s)) as [c|] eqn:Hc; [|by apply Hread in Hc].
  unfold no_failure in *. cbn. apply Forall_app_2; [exact Hs|].
  constructor; [intros []|constructor].
Qed.

Lemma keeps_nf_sys_write w mem count :
  (forall k, w_write w k <> None) -> keeps no_failure (sys_write w mem count).
Proof.
  intros Hwrite s Hs. unfold sys_write.
  destruct (w_write w (writes s)) as [c|] eqn:Hc; [|by apply Hwrite in Hc].
  unfold no_failure in *. cbn. apply Forall_app_2; [exact Hs|].
  constructor; [intros []|constructor].
Qed.

Lemma keeps_nf_sys_lseek offset : keeps no_failure (sys_lseek offset).
Proof.
  intros s Hs. unfold sys_lseek, no_failure in *. cbn.
  apply Forall_app_2; [exact Hs|]. constructor; [intros []|constructor].
Qed.

Lemma keeps_nf_write_loop w buffer size fuel : forall written,
  (forall k, w_write w k <> None) ->
  keeps no_failure (write_loop w fuel buffer size written).
Proof.
  induction fuel as [|fuel IH]; intros written Hwrite; cbn [write_loop];
    destruct (written <? size); auto using keeps_ret, keeps_halt.
  apply keeps_bind; [by apply keeps_nf_sys_write|].
  intros [n|]; [by apply IH|apply keeps_ret].
Qed.

Lemma keeps_nf_write_at_offset w buffer size offset :
  (forall k, w_write w k <> None) ->
  keeps no_failure (write_at_offset w buffer size offset).
Proof.
  intros Hwrite. unfold write_at_offset.
  apply keeps_bind; [apply keeps_nf_sys_lseek|].
  intros _. by apply keeps_nf_write_loop.
Qed.

Lemma keeps_nf_read_block w sb fuel : forall buf so_far pos,
  (forall k, w_read w k <> None) ->
  keeps no_failure (read_block w fuel sb buf so_far pos).
Proof.
  induction fuel as [|fuel IH]; intros buf so_far pos Hread;
    cbn [read_block];
    destruct ((so_far <? wrap_size (st_blksize sb))
              && (pos <? wrap_size (st_size sb)));
    auto using keeps_ret, keeps_halt.
  apply keeps_bind; [by apply keeps_nf_sys_read|].
  intros [data|]; [by apply IH|apply keeps_halt].
Qed.

Lemma keeps_nf_flush_head w encrypted sb v :
  is_Some (w_fibmap w (head_block v)) ->
  (truthy encrypted = true -> forall k, w_write w k <> None) ->
  keeps no_failure (flush_head w encrypted sb v).
Proof.
  intros [block Hblock] Hwrite. unfold flush_head.
  apply keeps_bind.
  { unfold sys_fibmap. apply keeps_bind; [|intros; apply keeps_ret].
    apply keeps_nf_emit. rewrite Hblock. intros []. }
  intros [b|]; [|apply keeps_halt].
  destruct (add_block_to_ranges (w_junk_int w) (rl v) b);
    [|apply keeps_halt].
  apply keeps_bind; [|intros; apply keeps_ret].
  destruct (truthy encrypted) eqn:Henc; [|apply keeps_ret].
  destruct (load (buffers v) (head v)); [|apply keeps_halt].
  apply keeps_bind; [by apply keeps_nf_write_at_offset, Hwrite|].
  intros rc. destruct (rc =? 0); [apply keeps_ret|apply keeps_halt].
Qed.

Lemma keeps_nf_read_next_block w encrypted sb v :
  (truthy encrypted = true -> forall k, w_read w k <> None) ->
  keeps no_failure (read_next_block w encrypted sb v).
Proof.
  intros Hread. unfold read_next_block.
  destruct (truthy encrypted) eqn:Henc; [|apply keeps_ret].
  destruct (load (buffers v) (tail v)); [|apply keeps_halt].
  apply keeps_bind; [by apply keeps_nf_read_block, Hread|].
  intros [buf' pos']. apply keeps_ret.
Qed.

Lemma failing_not_quiet s0 s evs :
  trace s = trace s0 ++ evs -> failing evs -> ~ no_failure s.
Proof.
  intros Htr (evs0 & e & -> & _ & _ & He) Hnf. unfold no_failure in Hnf.
  rewrite Htr, !Forall_app in Hnf. destruct Hnf as (_ & _ & Hnf).
  by apply Forall_inv in Hnf.
Qed.

Section Success.
Context (w : world) (encrypted : Z) (sb : stat) (s0 : sys).
Hypothesis Hstat : stat_ok sb.
Hypothesis Hfile : truthy encrypted = true -> file_ok w sb.
Hypothesis Hblocks : blocks_ok w sb.
Hypothesis Horacles : oracles_ok w sb encrypted.

Lemma head_block_resolved v s a h :
  state_inv w encrypted sb s0 v s a h -> h < a ->
  is_Some (w_fibmap w (head_block v)).
Proof.
  intros HI Hlt.
  pose proof (si_h _ _ _ _ _ _ _ _ HI) as Hh.
  pose proof (si_a _ _ _ _ _ _ _ _ HI) as Ha.
  rewrite (si_head_block _ _ _ _ _ _ _ _ HI).
  destruct Hblocks as [Hmax _]. unfold MAX_BLOCKS in Hmax.
  rewrite wrap_int_small by (unfold INT_MAX; lia).
  apply Horacles. lia.
Qed.

Lemma step_no_failure c v s a h :
  state_inv w encrypted sb s0 v s a h -> ctl_inv sb c v a h ->
  no_failure s ->
  match step w encrypted sb c v s with
  | Next _ s' => no_failure s'
  | Halt _ s' => no_failure s'
  end.
Proof.
  intros HI Hctl Hs. pose proof Hstat as [Hsize Hbs].
  pose proof (si_h _ _ _ _ _ _ _ _ HI) as Hh.
  pose proof (si_win _ _ _ _ _ _ _ _ HI) as Hwin.
  pose proof (si_head _ _ _ _ _ _ _ _ HI) as Hhead.
  pose proof (si_tail _ _ _ _ _ _ _ _ HI) as Htail.
  destruct Horacles as [_ Hrw].
  assert (Hflush : h < a -> keeps no_failure (flush_head w encrypted sb v)).
  { intros Hlt. apply keeps_nf_flush_head.
    - by apply (head_block_resolved v s a h).
    - intros Henc. by destruct (Hrw Henc). }
  assert (Hread : keeps no_failure (read_next_block w encrypted sb v)).
  { apply keeps_nf_read_next_block. intros Henc. by destruct (Hrw Henc). }
  destruct c; cbn [step].
  - destruct (pos v <? wrap_size (st_size sb)); [|exact Hs].
    rewrite Htail, window_succ, Hhead by lia.
    destruct (Z.eqb_spec ((a + 1) mod WINDOW_SIZE) (h mod WINDOW_SIZE))
      as [Heq|Hne]; [|exact Hs].
    apply (proj1 (window_full a h Hh Hwin)) in Heq.
    apply (keeps_bind no_failure); [|intros; apply keeps_ret|exact Hs].
    apply Hflush. unfold WINDOW_SIZE in *. lia.
  - apply (keeps_bind no_failure); [exact Hread|intros; apply keeps_ret
                                   |exact Hs].
  - rewrite Hhead, Htail.
    destruct (Z.eqb_spec (h mod WINDOW_SIZE) (a mod WINDOW_SIZE))
      as [Heq|Hne]; [exact Hs|].
    apply (keeps_bind no_failure); [|intros; apply keeps_ret|exact Hs].
    apply Hflush. destruct (decide (h = a)) as [->|]; [contradiction|lia].
  - exact Hs.
Qed.

Lemma run_loops_no_failure fuel : forall c v s a h,
  state_inv w encrypted sb s0 v s a h -> ctl_inv sb c v a h ->
  no_failure s ->
  match run_loops w encrypted sb fuel c v s with
  | Next _ s' => no_failure s'
  | Halt _ s' => no_failure s'
  end.
Proof.
  induction fuel as [|fuel IH]; intros c v s a h HI Hctl Hs.
  - destruct c; exact Hs.
  - destruct c; try exact Hs; cbn [run_loops]; rewrite bind_unfold.
    all: pose proof (step_inv w encrypted sb s0 Hstat Hfile _ v s a h
                       HI Hctl) as Hstep.
    all: pose proof (step_no_failure _ v s a h HI Hctl Hs) as Hnf.
    all: match goal with
         | |- context [step _ _ _ ?c ?v0 ?s1] =>
             destruct (step w encrypted sb c v0 s1) as [[c' v'] s'|r s']
         end; [|exact Hnf].
    all: destruct Hstep as (a' & h' & HI' & Hctl' & _).
    all: by apply (IH c' v' s' a' h').
Qed.

Lemma run_loops_succeeds fuel v s :
  state_inv w encrypted sb s0 v s 0 0 -> no_failure s ->
  measure sb AtLoop 0 0 <= Z.of_nat fuel ->
  exists v' s',
    run_loops w encrypted sb fuel AtLoop v s = Next v' s' /\
    state_inv w encrypted sb s0 v' s' (block_count sb) (block_count sb).
Proof.
  intros HI Hs Hfuel.
  pose proof (run_loops_inv w encrypted sb s0 Hstat Hfile fuel AtLoop v s 0 0
                HI I Hfuel) as Hrun.
  pose proof (run_loops_no_failure fuel AtLoop v s 0 0 HI I Hs) as Hnf.
  destruct (run_loops w encrypted sb fuel AtLoop v s) as [v' s'|r s'].
  - by exists v', s'.
  - destruct Hrun as [(_ & evs & Htr & Hfail)|(_ & Hnb & _)].
    + by destruct (failing_not_quiet s0 s' evs Htr Hfail).
    + contradiction.
Qed.
End Success.

(** A call returns 0 when every open succeeds and no call of the loops
    fails. *)
Lemma pass_succeeds w blk_dev encrypted sb :
  w_stat w = Some sb -> stat_ok sb ->
  (truthy encrypted = true -> file_ok w sb) ->
  blocks_ok w sb -> opens_ok w encrypted -> oracles_ok w sb encrypted ->
  exists s, produce_block_map w blk_dev encrypted = (Returned 0, s).
Proof.
  intros Hst Hstat Hfile Hblocks Hopens Horacles.
  pose proof Hstat as [Hsize Hbs].
  pose proof (block_count_le sb Hstat) as HN.
  pose proof Hopens as (Hfopen & Hsrc & Hdev).
  unfold produce_block_map, produce_block_map_body.
  cbv beta iota delta [mbind M_bind bind mret M_ret ret emit sys_open
                         sys_stat sys_close fprintf fclose halt].
  rewrite Hst, Hfopen, Hsrc. cbv beta iota delta [negb].
  destruct (Z.eqb_spec (st_blksize sb) 0) as [?|_]; [lia|].
  match goal with
  | |- context [match ?m ?s with Next _ _ => _ | Halt _ _ => _ end] =>
      assert (Hentry : m s = Next true (loop_entry w blk_dev sb encrypted))
  end.
  { unfold loop_entry, prologue_trace.
    destruct (truthy encrypted) eqn:Eenc; [|reflexivity].
    rewrite (Hdev eq_refl). reflexivity. }
  rewrite Hentry. cbv beta iota.
  destruct (run_loops_succeeds w encrypted sb
              (loop_entry w blk_dev sb encrypted) Hstat Hfile Hblocks
              Horacles (loop_fuel sb) (initial_vars w encrypted sb)
              (loop_entry w blk_dev sb encrypted))
    as (v & s1 & -> & HI).
  - by apply initial_inv.
  - apply prologue_no_failure.
  - unfold loop_fuel. simpl. lia.
  - destruct (final_ranges_spec _ _ _ _ _ _ Hstat HI Hblocks) as [-> _].
    rewrite print_ranges_spec.
    destruct (truthy encrypted); cbn; eauto.
Qed.

(** C4: for a file of 49652 bytes in blocks of 4096 bytes (13 blocks)
    whose blocks lie at 1000..1007, 2100..2101 and 30..32, a call in
    which every open succeeds and, when the file is read and the device
    written, the file is as long as [stat] says and no [read] and no
    [write] fails, returns [0] and has written exactly the device path
    line, the line "49652 4096", the line "3" and the three range
    lines. *)
Theorem header_example_block_map w blk_dev encrypted :
  w_stat w = Some header_stat ->
  (forall k, 0 <= k < 13 -> w_fibmap w k = example_resolver k) ->
  opens_ok w encrypted ->
  (truthy encrypted = true ->
   file_ok w header_stat /\
   (forall k, w_read w k <> None) /\ (forall k, w_write w k <> None)) ->
  block_count header_stat = 13 /\
  exists s,
    produce_block_map w blk_dev encrypted = (Returned 0, s) /\
    map_text (trace s)
    = (blk_dev ++ newline ++ "49652 4096" ++ newline ++ "3" ++ newline
         ++ "1000 1008" ++ newline ++ "2100 2102" ++ newline
         ++ "30 33" ++ newline)%string.
Proof.
  intros Hst Hmap Hopens Hio. split; [reflexivity|].
  assert (Hstat : stat_ok header_stat) by (unfold stat_ok; simpl; lia).
  assert (Hfile : truthy encrypted = true -> file_ok w header_stat)
    by (intros Henc; by destruct (Hio Henc)).
  assert (Hbl : blocks_ok w header_stat).
  { split; [vm_compute; discriminate|].
    intros k b Hk. change (block_count header_stat) with 13 in Hk.
    rewrite Hmap by exact Hk. unfold example_resolver, block_ok, INT_MAX.
    repeat ztest; intros Hb; try discriminate; injection Hb as <-; lia. }
  assert (Hor : oracles_ok w header_stat encrypted).
  { split.
    - intros k Hk. change (block_count header_stat) with 13 in Hk.
      rewrite Hmap by exact Hk. unfold example_resolver.
      repeat ztest; try lia; by eexists.
    - intros Henc. by destruct (Hio Henc) as (_ & ? & ?). }
  destruct (pass_succeeds w blk_dev encrypted header_stat Hst Hstat Hfile
              Hbl Hopens Hor) as [s Hrun].
  exists s. split; [exact Hrun|].
  rewrite (success_block_map _ _ _ _ _ Hst Hstat Hfile Hbl Hrun).
  unfold final_ranges. change (block_count header_stat) with 13.
  change (13 =? 0) with false. cbv iota.
  rewrite (example_phys_list w Hmap).
  unfold block_map, header. rewrite <- string_app_assoc. f_equal.
Qed.

Lemma header_example_block_map_witness :
  block_count header_stat = 13 /\
  exists s,
    produce_block_map header_file_world example_dev 1 = (Returned 0, s) /\
    map_text (trace s)
    = (example_dev ++ newline ++ "49652 4096" ++ newline ++ "3" ++ newline
         ++ "1000 1008" ++ newline ++ "2100 2102" ++ newline
         ++ "30 33" ++ newline)%string.
Proof.
  apply (header_example_block_map header_file_world example_dev 1).
  - reflexivity.
  - intros k Hk. reflexivity.
  - repeat split; reflexivity.
  - intros _. split; [vm_compute; reflexivity|].
    split; intros k; discriminate.
Defined.
